(** * pygrabber.dshow_graph: filter-graph assembly over DirectShow

    A shallow embedding of [pygrabber/dshow_graph.py].  The Python objects
    ([Filter] and its subclasses, [SampleGrabberCallback], [FilterGraph]) are
    records; methods are computations in a state-and-exception monad.  Every
    call that crosses into the native multimedia framework is an [invoke] of a
    [call]: the answer comes from an oracle [native] that sees the whole
    history of earlier calls, and the call is appended, with its answer, to
    that history.  A failing native call raises [COMError] with the native
    result code, as comtypes does. *)

From Stdlib Require Import ZArith String Ascii List Lia Bool.
From stdpp Require Import base gmap strings list.

Open Scope Z_scope.

(** ** Enumerations of the module *)

Inductive StateGraph := Stopped | Paused | Running.

Inductive RecordingFormat := AVI | ASF.

Inductive FilterType :=
| video_input | audio_input | video_compressor | audio_compressor
| sample_grabber | render | file_sink | muxer | smart_tee.

(** The value of each member, as in the [Enum] declaration. *)
Definition FilterType_value (t : FilterType) : nat :=
  match t with
  | video_input => 0 | audio_input => 1 | video_compressor => 2
  | audio_compressor => 3 | sample_grabber => 4 | render => 5
  | file_sink => 6 | muxer => 7 | smart_tee => 8
  end%nat.

Definition FilterType_of_value (n : nat) : option FilterType :=
  match n with
  | 0 => Some video_input | 1 => Some audio_input | 2 => Some video_compressor
  | 3 => Some audio_compressor | 4 => Some sample_grabber | 5 => Some render
  | 6 => Some file_sink | 7 => Some muxer | 8 => Some smart_tee
  | _ => None
  end%nat.

#[global] Instance FilterType_eq_dec : EqDecision FilterType.
Proof. solve_decision. Defined.

#[global] Instance FilterType_countable : Countable FilterType.
Proof.
  apply (inj_countable FilterType_value FilterType_of_value).
  intros []; reflexivity.
Defined.

#[global] Instance RecordingFormat_eq_dec : EqDecision RecordingFormat.
Proof. solve_decision. Defined.

(** ** Identifiers of [dshow_ids] and COM handles

    [dshow_ids] is not part of the sources at hand: the identifiers the module
    takes from it are kept symbolic, one constructor per name;
    any other identifier string is [GUID_of]. *)

Inductive GUID :=
| CLSID_SampleGrabber | CLSID_SmartTee | CLSID_NullRender
| CLSID_VideoRendererDefault | CLSID_VideoMixingRenderer
| DeviceCategories_VideoInputDevice | DeviceCategories_AudioInputDevice
| DeviceCategories_VideoCompressor | DeviceCategories_AudioCompressor
| MediaTypes_Video
| MediaSubtypes_RGB24 | MediaSubtypes_ASF | MediaSubtypes_AVI
| PinCategory_Preview | PinCategory_Capture
| GUID_of (s : string).

Inductive IID :=
| IID_IBaseFilter | IID_IVideoWindow | IID_ISampleGrabber
| IID_ISpecifyPropertyPages | IID_IPropertyBag.

(** Interface pointers are opaque handles. *)
Definition COMPTR := N.
Definition IBASEFILTER := COMPTR.
Definition IPIN := COMPTR.
Definition IMONIKER := COMPTR.
(** A Python callable handed in by the user. *)
Definition Callable := N.

Definition HRESULT := Z.
Definition PIN_IN : Z := 0.
Definition PIN_OUT : Z := 1.

(** The two fields of the bitmap header that [get_resolution] reads. *)
Record VIDEOINFOHEADER := { biWidth : Z; biHeight : Z }.

(** ** Exceptions and results *)

Inductive exn :=
| COMError (hr : HRESULT)
| AssertionError
| KeyError (k : FilterType)
| IndexError
| ValueError
| AttributeError
| TypeError.

Inductive result (A : Type) :=
| Ok (a : A)
| Raise (e : exn).
Arguments Ok {A} a.
Arguments Raise {A} e.

(** ** Native calls

    [call A] is a call into the native framework that answers with an [A]
    when it succeeds.  An enumerator is answered as the sequence of items
    its successive [Next(1)] calls will deliver; a class enumerator may be
    the NULL pointer ([None]). *)

Inductive call : Type -> Type :=
| CreateObject (clsid : GUID) : call IBASEFILTER
| QueryInterface (obj : COMPTR) (iid : IID) : call COMPTR
| EnumPins (f : IBASEFILTER) : call (list IPIN)
| QueryDirection (p : IPIN) : call Z
| AddFilter (f : IBASEFILTER) (name : string) : call unit
| Connect (ppinOut : option IPIN) (ppinIn : IPIN) : call unit
| FindPin (f : IBASEFILTER) (direction : Z) (category type : option GUID)
          (unconnected : bool) (num : Z) : call IPIN
| SetCallback (sg : COMPTR) (cb : Callable) (which : Z) : call unit
| SetMediaType (sg : COMPTR) (majortype subtype : GUID) : call unit
| GetConnectedMediaType (sg : COMPTR) : call VIDEOINFOHEADER
| SetOutputFileName (subtype : GUID) (filename : string)
  : call (IBASEFILTER * IBASEFILTER)
| CreateClassEnumerator (category : GUID) : call (option (list IMONIKER))
| BindToObject (m : IMONIKER) : call COMPTR
| BindToStorage (m : IMONIKER) : call COMPTR
| PropertyBagRead (bag : COMPTR) (name : string) : call string
| MediaControl_Run : call unit
| MediaControl_Stop : call unit
| MediaControl_Pause : call unit
| MediaControl_GetState (timeout : Z) : call Z
| GetPages (pages : COMPTR) : call (Z * COMPTR)
| GetTopWindow : call Z
| OleCreatePropertyFrame (whandle : Z) (obj : COMPTR) (count : Z)
                         (elements : COMPTR) : call unit
| CoTaskMemFree (p : COMPTR) : call unit.

(** One entry of the history: the call and what the framework answered
    (a failure code or the value). *)
Inductive event :=
| Ev {A : Type} (c : call A) (r : HRESULT + A).

Definition failure (e : event) : option HRESULT :=
  match e with
  | Ev _ (inl hr) => Some hr
  | Ev _ (inr _) => None
  end.

(** The framework: a function of the history and the call. *)
Definition Native := list event -> forall A : Type, call A -> HRESULT + A.

(** The connections made so far: the [Connect] calls that succeeded. *)
Definition connection (e : event) : option (option IPIN * IPIN) :=
  match e with
  | Ev (Connect o i) (inr _) => Some (o, i)
  | _ => None
  end.

Definition connections (tr : list event) : list (option IPIN * IPIN) :=
  omap connection tr.

(** ** The monad: a Python object of type [St], the history, exceptions *)

Definition M (St A : Type) : Type :=
  St -> list event -> result A * St * list event.

Definition ret {St A} (a : A) : M St A := fun s tr => (Ok a, s, tr).

Definition raise {St A} (e : exn) : M St A := fun s tr => (Raise e, s, tr).

Definition bind {St A B} (m : M St A) (k : A -> M St B) : M St B :=
  fun s tr =>
    match m s tr with
    | (Ok a, s', tr') => k a s' tr'
    | (Raise e, s', tr') => (Raise e, s', tr')
    end.

Definition get {St} : M St St := fun s tr => (Ok s, s, tr).

Definition modify {St} (f : St -> St) : M St unit :=
  fun s tr => (Ok tt, f s, tr).

Notation "x <- m ;; k" := (bind m (fun x => k))
  (at level 100, m at next level, right associativity).
Notation "m ;;; k" := (bind m (fun _ => k))
  (at level 100, right associativity).

(** [assert cond] *)
Definition assert {St} (b : bool) : M St unit :=
  if b then ret tt else raise AssertionError.

(** [try: m except COMError: h] *)
Definition try_except_COMError {St A} (m : M St A) (h : M St A) : M St A :=
  fun s tr =>
    match m s tr with
    | (Raise (COMError _), s', tr') => h s' tr'
    | other => other
    end.

(** Running a method of a component object held in a field: [rd] reads the
    field, [wr] stores the object back (the object is shared, so what the
    method did to it stays, also when it raises). *)
Definition zoom {St T A} (rd : St -> T) (wr : T -> St -> St) (m : M T A)
  : M St A :=
  fun s tr =>
    match m (rd s) tr with
    | (r, t', tr') => (r, wr t' s, tr')
    end.

(** Running a constructor: the new object starts as [init]; when the
    constructor raises there is no object. *)
Definition construct {St T} (init : T) (m : M T unit) : M St T :=
  fun s tr =>
    match m init tr with
    | (Ok _, t, tr') => (Ok t, s, tr')
    | (Raise e, _, tr') => (Raise e, s, tr')
    end.

(** [l[i]] on a Python list: a negative index counts from the end. *)
Definition py_index {A} (l : list A) (i : Z) : result A :=
  let n := Z.of_nat (length l) in
  let j := if i <? 0 then i + n else i in
  if (j <? 0) || (n <=? j) then Raise IndexError
  else match l !! Z.to_nat j with
       | Some x => Ok x
       | None => Raise IndexError
       end.

Definition lift {St A} (r : result A) : M St A :=
  match r with
  | Ok a => ret a
  | Raise e => raise e
  end.

(** ** Objects *)

Record SampleGrabberCallback := {
  callback : Callable;
  cnt : Z;
  keep_photo : bool;
  image_resolution : Z * Z;
}.

(** What a subclass of [Filter] adds to it. *)
Inductive Subclass :=
| VideoInput | AudioInput | VideoCompressor | AudioCompressor
| SmartTee | Muxer
| Render (video_window : option COMPTR)
| SampleGrabber (sample_grabber_if : COMPTR)
                (sg_callback : option SampleGrabberCallback).

Record Filter := {
  instance : IBASEFILTER;
  Name : string;
  out_pins : list IPIN;
  in_pins : list IPIN;
  subclass : Subclass;
}.

Definition set_out_pins (l : list IPIN) (f : Filter) : Filter :=
  {| instance := instance f; Name := Name f; out_pins := l;
     in_pins := in_pins f; subclass := subclass f |}.

Definition set_in_pins (l : list IPIN) (f : Filter) : Filter :=
  {| instance := instance f; Name := Name f; out_pins := out_pins f;
     in_pins := l; subclass := subclass f |}.

Definition set_subclass (c : Subclass) (f : Filter) : Filter :=
  {| instance := instance f; Name := Name f; out_pins := out_pins f;
     in_pins := in_pins f; subclass := c |}.

Definition set_keep_photo (b : bool) (c : SampleGrabberCallback)
  : SampleGrabberCallback :=
  {| callback := callback c; cnt := cnt c; keep_photo := b;
     image_resolution := image_resolution c |}.

Definition set_image_resolution (r : Z * Z) (c : SampleGrabberCallback)
  : SampleGrabberCallback :=
  {| callback := callback c; cnt := cnt c; keep_photo := keep_photo c;
     image_resolution := r |}.

Record FilterGraph := {
  filters : gmap FilterType Filter;
  recording_format : option RecordingFormat;
  is_recording : bool;
}.

Definition set_filters (m : gmap FilterType Filter) (g : FilterGraph)
  : FilterGraph :=
  {| filters := m; recording_format := recording_format g;
     is_recording := is_recording g |}.

Definition set_recording_format (r : option RecordingFormat) (g : FilterGraph)
  : FilterGraph :=
  {| filters := filters g; recording_format := r;
     is_recording := is_recording g |}.

Definition set_is_recording (b : bool) (g : FilterGraph) : FilterGraph :=
  {| filters := filters g; recording_format := recording_format g;
     is_recording := b |}.

(** [FilterGraph.__init__]: no filter, no format, not recording. *)
Definition FilterGraph_init : FilterGraph :=
  {| filters := ∅; recording_format := None; is_recording := false |}.

(** ** The binding *)

Section Binding.

(** The native framework the binding drives. *)
Variable native : Native.

(** [os.path.splitext] and [str.upper], from the Python library. *)
Variable os_path_splitext : string -> string * string.
Variable str_upper : string -> string.

(** A native call: the framework answers, the call is recorded, and a
    failure code becomes [COMError]. *)
Definition invoke {St A} (c : call A) : M St A :=
  fun s tr =>
    let r := native tr A c in
    (match r with
     | inl hr => Raise (COMError hr)
     | inr a => Ok a
     end, s, tr ++ [Ev c r]).

(** *** class Filter *)

Definition get_out (self : Filter) : result IPIN :=
  py_index (out_pins self) 0.

Definition get_in (self : Filter) (index : Z) : result IPIN :=
  py_index (in_pins self) index.

Definition find_pin {St} (self : Filter) (direction : Z)
    (category type : option GUID) (unconnected : bool) : M St (option IPIN) :=
  try_except_COMError
    (p <- invoke (FindPin (instance self) direction category type
                          unconnected 0) ;;
     ret (Some p))
    (ret None).

(** The loop of [reload_pins], over the pins the enumerator delivers. *)
Fixpoint reload_pins_loop (pins : list IPIN) : M Filter unit :=
  match pins with
  | [] => ret tt
  | pin :: rest =>
      d <- invoke (QueryDirection pin) ;;
      self <- get ;;
      (if d =? 0
       then modify (set_in_pins (in_pins self ++ [pin]))
       else modify (set_out_pins (out_pins self ++ [pin]))) ;;;
      reload_pins_loop rest
  end.

Definition reload_pins : M Filter unit :=
  modify (set_out_pins []) ;;;
  modify (set_in_pins []) ;;;
  self <- get ;;
  pins <- invoke (EnumPins (instance self)) ;;
  reload_pins_loop pins.

(** [Filter.__init__], followed by the rest of the subclass constructor. *)
Definition Filter_new {St} (inst : IBASEFILTER) (name : string)
    (cls : Subclass) (rest : M Filter unit) : M St Filter :=
  construct
    {| instance := inst; Name := name; out_pins := []; in_pins := [];
       subclass := cls |}
    (reload_pins ;;; rest).

(** *** show_properties *)

Definition show_properties {St} (object : COMPTR) : M St unit :=
  try_except_COMError
    (spec_pages <- invoke (QueryInterface object IID_ISpecifyPropertyPages) ;;
     cauuid <- invoke (GetPages spec_pages) ;;
     if 0 <? fst cauuid then
       whandle <- invoke GetTopWindow ;;
       invoke (OleCreatePropertyFrame whandle object
                                      (fst cauuid) (snd cauuid)) ;;;
       invoke (CoTaskMemFree (snd cauuid))
     else ret tt)
    (ret tt).

Definition set_properties {St} (self : Filter) : M St unit :=
  show_properties (instance self).

(** *** class Render *)

Definition Render_new {St} (inst : IBASEFILTER) : M St Filter :=
  Filter_new inst "Render" (Render None)
    (self <- get ;;
     vw <- try_except_COMError
             (w <- invoke (QueryInterface (instance self) IID_IVideoWindow) ;;
              ret (Some w))
             (ret None) ;;
     modify (set_subclass (Render vw))).

(** *** class SampleGrabberCallback *)

Definition SampleGrabberCallback_new (cb : Callable) : SampleGrabberCallback :=
  {| callback := cb; cnt := 0; keep_photo := false;
     image_resolution := (0, 0) |}.

Definition SampleGrabberCallback_grab_frame : M SampleGrabberCallback unit :=
  modify (set_keep_photo true).

(** *** class SampleGrabber *)

Definition SampleGrabber_new {St} : M St Filter :=
  inst <- invoke (CreateObject CLSID_SampleGrabber) ;;
  Filter_new inst "Sample Grabber" (SampleGrabber 0%N None)
    (sg <- invoke (QueryInterface inst IID_ISampleGrabber) ;;
     modify (set_subclass (SampleGrabber sg None))).

Definition set_callback (cb : SampleGrabberCallback) (which : Z)
  : M Filter unit :=
  self <- get ;;
  match subclass self with
  | SampleGrabber sg _ =>
      modify (set_subclass (SampleGrabber sg (Some cb))) ;;;
      invoke (SetCallback sg (callback cb) which)
  | _ => raise AttributeError
  end.

Definition set_media_type {St} (self : Filter) (media_type media_subtype : GUID)
  : M St unit :=
  match subclass self with
  | SampleGrabber sg _ => invoke (SetMediaType sg media_type media_subtype)
  | _ => raise AttributeError
  end.

Definition get_resolution {St} (self : Filter) : M St (Z * Z) :=
  match subclass self with
  | SampleGrabber sg _ =>
      bmp_header <- invoke (GetConnectedMediaType sg) ;;
      ret (biWidth bmp_header, biHeight bmp_header)
  | _ => raise AttributeError
  end.

(** The right-hand side is evaluated first; then [self.callback], which may
    still be [None]. *)
Definition initialize_after_connection : M Filter unit :=
  self <- get ;;
  res <- get_resolution self ;;
  match subclass self with
  | SampleGrabber sg (Some cb) =>
      modify (set_subclass
                (SampleGrabber sg (Some (set_image_resolution res cb))))
  | _ => raise AttributeError
  end.

(** *** get_moniker_name and class SystemDeviceEnum *)

Definition get_moniker_name {St} (moniker : IMONIKER) : M St string :=
  storage <- invoke (BindToStorage moniker) ;;
  property_bag <- invoke (QueryInterface storage IID_IPropertyBag) ;;
  invoke (PropertyBagRead property_bag "FriendlyName").

(** The [while count > 0] loop, entered after a [Next(1)]: the pair
    [(moniker, count)] that call delivered is [(m, 1)] while the enumerator
    has an item [m] left, and [(NULL, 0)] once it has none. *)
Fixpoint get_available_filters_loop {St} (enum : list IMONIKER)
    (result : list string) : M St (list string) :=
  match enum with
  | [] => ret result
  | moniker :: enum' =>
      name <- get_moniker_name moniker ;;
      get_available_filters_loop enum' (result ++ [name])
  end.

(** On a NULL enumerator the first [Next(1)] raises [ValueError], which the
    method catches. *)
Definition get_available_filters {St} (category_clsid : GUID)
  : M St (list string) :=
  filter_enumerator <- invoke (CreateClassEnumerator category_clsid) ;;
  match filter_enumerator with
  | None => ret []
  | Some enum => get_available_filters_loop enum []
  end.

(** The [while i != index and count > 0] loop, entered after a [Next(1)];
    the moniker it leaves, NULL ([None]) when the enumerator ran out. *)
Fixpoint get_filter_by_index_loop (enum : list IMONIKER) (i index : Z)
  : option IMONIKER :=
  match enum with
  | [] => None
  | moniker :: enum' =>
      if i =? index then Some moniker
      else get_filter_by_index_loop enum' (i + 1) index
  end.

Definition get_filter_by_index {St} (category_clsid : GUID) (index : Z)
  : M St (IBASEFILTER * string) :=
  filter_enumerator <- invoke (CreateClassEnumerator category_clsid) ;;
  match filter_enumerator with
  | None => raise ValueError
  | Some enum =>
      match get_filter_by_index_loop enum 0 index with
      | None => raise ValueError
      | Some moniker =>
          obj <- invoke (BindToObject moniker) ;;
          flt <- invoke (QueryInterface obj IID_IBaseFilter) ;;
          name <- get_moniker_name moniker ;;
          ret (flt, name)
      end
  end.

(** *** class FilterFactory *)

(** The [id] argument of [build_filter]: [int | str | IBASEFILTER], or
    [None]. *)
Inductive filter_id :=
| id_int (i : Z)
| id_str (g : GUID)
| id_instance (f : IBASEFILTER)
| id_None.

(** The device filters are made from the pair [get_filter_by_index]
    returns. *)
Definition device_filter {St} (category : GUID) (cls : Subclass)
    (id : filter_id) : M St Filter :=
  match id with
  | id_int index =>
      args <- get_filter_by_index category index ;;
      Filter_new (fst args) (snd args) cls (ret tt)
  | _ => raise TypeError
  end.

Definition build_filter {St} (filter_type : FilterType) (id : filter_id)
  : M St Filter :=
  match filter_type with
  | video_input =>
      device_filter DeviceCategories_VideoInputDevice VideoInput id
  | audio_input =>
      device_filter DeviceCategories_AudioInputDevice AudioInput id
  | video_compressor =>
      device_filter DeviceCategories_VideoCompressor VideoCompressor id
  | audio_compressor =>
      device_filter DeviceCategories_AudioCompressor AudioCompressor id
  | render =>
      match id with
      | id_str clsid =>
          inst <- invoke (CreateObject clsid) ;;
          Render_new inst
      | _ => raise TypeError
      end
  | sample_grabber => SampleGrabber_new
  | muxer =>
      match id with
      | id_instance mux => Filter_new mux "Muxer" Muxer (ret tt)
      | _ => raise TypeError
      end
  | smart_tee =>
      inst <- invoke (CreateObject CLSID_SmartTee) ;;
      Filter_new inst "Smart Tee" SmartTee (ret tt)
  | file_sink => raise ValueError
  end.

(** *** class FilterGraph *)

(** [filter_type in self.filters] *)
Definition has_filter (filter_type : FilterType) (g : FilterGraph) : bool :=
  match filters g !! filter_type with
  | Some _ => true
  | None => false
  end.

(** [self.filters[filter_type]] *)
Definition filter_at (filter_type : FilterType) : M FilterGraph Filter :=
  g <- get ;;
  match filters g !! filter_type with
  | Some f => ret f
  | None => raise (KeyError filter_type)
  end.

(** A method of [self.filters[filter_type]] that changes the filter. *)
Definition with_filter {A} (filter_type : FilterType) (m : M Filter A)
  : M FilterGraph A :=
  f <- filter_at filter_type ;;
  zoom (fun _ => f)
       (fun f' g => set_filters (<[filter_type := f']> (filters g)) g) m.

Definition out_of (filter_type : FilterType) : M FilterGraph IPIN :=
  f <- filter_at filter_type ;; lift (get_out f).

Definition in_of (filter_type : FilterType) (index : Z)
  : M FilterGraph IPIN :=
  f <- filter_at filter_type ;; lift (get_in f index).

Definition __add_filter (filter_type : FilterType) (id : filter_id)
  : M FilterGraph unit :=
  g <- get ;;
  assert (negb (has_filter filter_type g)) ;;;
  flt <- build_filter filter_type id ;;
  modify (fun g => set_filters (<[filter_type := flt]> (filters g)) g) ;;;
  invoke (AddFilter (instance flt) (Name flt)).

Definition add_video_input_device (index : Z) : M FilterGraph unit :=
  __add_filter video_input (id_int index).

Definition add_audio_input_device (index : Z) : M FilterGraph unit :=
  __add_filter audio_input (id_int index).

Definition add_video_compressor (index : Z) : M FilterGraph unit :=
  __add_filter video_compressor (id_int index).

Definition add_audio_compressor (index : Z) : M FilterGraph unit :=
  __add_filter audio_compressor (id_int index).

Definition add_sample_grabber (cb : Callable) : M FilterGraph unit :=
  __add_filter sample_grabber id_None ;;;
  let sample_grabber_cb := SampleGrabberCallback_new cb in
  with_filter sample_grabber (set_callback sample_grabber_cb 1) ;;;
  sg <- filter_at sample_grabber ;;
  set_media_type sg MediaTypes_Video MediaSubtypes_RGB24.

Definition add_null_render : M FilterGraph unit :=
  __add_filter render (id_str CLSID_NullRender).

Definition add_default_render : M FilterGraph unit :=
  __add_filter render (id_str CLSID_VideoRendererDefault).

Definition add_video_mixing_render : M FilterGraph unit :=
  __add_filter render (id_str CLSID_VideoMixingRenderer).

Definition add_file_writer_and_muxer (filename : string)
  : M FilterGraph unit :=
  let extension := str_upper (snd (os_path_splitext filename)) in
  let mediasubtype :=
    if String.eqb extension ".WMV" then MediaSubtypes_ASF
    else MediaSubtypes_AVI in
  modify (set_recording_format
            (Some (if String.eqb extension ".WMV" then ASF else AVI))) ;;;
  out <- invoke (SetOutputFileName mediasubtype filename) ;;
  flt <- build_filter muxer (id_instance (fst out)) ;;
  modify (fun g => set_filters (<[muxer := flt]> (filters g)) g).

Definition prepare_preview_graph : M FilterGraph unit :=
  g <- get ;;
  assert (has_filter video_input g) ;;;
  assert (has_filter render g) ;;;
  (if negb (has_filter sample_grabber g) then
     o <- out_of video_input ;;
     i <- in_of render 0 ;;
     invoke (Connect (Some o) i)
   else
     o <- out_of video_input ;;
     i <- in_of sample_grabber 0 ;;
     invoke (Connect (Some o) i) ;;;
     o <- out_of sample_grabber ;;
     i <- in_of render 0 ;;
     invoke (Connect (Some o) i) ;;;
     with_filter sample_grabber initialize_after_connection) ;;;
  modify (set_is_recording false).

(** [capture_pin, preview_pin = smart_tee.out_pins] *)
Definition unpack2 {St A} (l : list A) : M St (A * A) :=
  match l with
  | [a; b] => ret (a, b)
  | _ => raise ValueError
  end.

(** Returns [(preview_pin, capture_pin)]. *)
Definition __get_capture_and_preview_pins : M FilterGraph (IPIN * IPIN) :=
  vi <- filter_at video_input ;;
  preview_pin <- find_pin vi PIN_OUT (Some PinCategory_Preview) None true ;;
  vi <- filter_at video_input ;;
  capture_pin <- find_pin vi PIN_OUT (Some PinCategory_Capture) None true ;;
  match preview_pin, capture_pin with
  | Some preview_pin, Some capture_pin => ret (preview_pin, capture_pin)
  | _, _ =>
      __add_filter smart_tee id_None ;;;
      tee <- filter_at smart_tee ;;
      i <- lift (get_in tee 0) ;;
      invoke (Connect (match capture_pin with
                       | Some _ => capture_pin
                       | None => preview_pin
                       end) i) ;;;
      pins <- unpack2 (out_pins tee) ;;
      ret (snd pins, fst pins)
  end.

Definition prepare_recording_graph : M FilterGraph unit :=
  g <- get ;;
  assert (has_filter video_input g) ;;;
  assert (has_filter render g) ;;;
  assert (has_filter muxer g) ;;;
  pins <- __get_capture_and_preview_pins ;;
  let preview_pin := fst pins in
  let capture_pin := snd pins in
  g <- get ;;
  (if decide (recording_format g = Some ASF) then
     i <- in_of muxer 1 ;;
     invoke (Connect (Some capture_pin) i) ;;;
     o <- out_of audio_input ;;
     i <- in_of muxer 0 ;;
     invoke (Connect (Some o) i) ;;;
     i <- in_of render 0 ;;
     invoke (Connect (Some preview_pin) i)
   else
     i <- in_of video_compressor 0 ;;
     invoke (Connect (Some capture_pin) i) ;;;
     o <- out_of video_compressor ;;
     i <- in_of muxer 0 ;;
     invoke (Connect (Some o) i) ;;;
     i <- in_of render 0 ;;
     invoke (Connect (Some preview_pin) i) ;;;
     g <- get ;;
     if has_filter audio_input g then
       o <- out_of audio_input ;;
       i <- in_of audio_compressor 0 ;;
       invoke (Connect (Some o) i) ;;;
       with_filter muxer reload_pins ;;;
       o <- out_of audio_compressor ;;
       i <- in_of muxer 1 ;;
       invoke (Connect (Some o) i)
     else ret tt) ;;;
  modify (set_is_recording true).

Definition run : M FilterGraph unit := invoke MediaControl_Run.

Definition stop : M FilterGraph unit := invoke MediaControl_Stop.

Definition pause : M FilterGraph unit := invoke MediaControl_Pause.

Definition get_state : M FilterGraph StateGraph :=
  v <- invoke (MediaControl_GetState 4294967295) ;;
  match v with
  | 0 => ret Stopped
  | 1 => ret Paused
  | 2 => ret Running
  | _ => raise ValueError
  end.

Definition get_input_devices : M FilterGraph (list string) :=
  get_available_filters DeviceCategories_VideoInputDevice.

Definition get_audio_devices : M FilterGraph (list string) :=
  get_available_filters DeviceCategories_AudioInputDevice.

Definition get_video_compressors : M FilterGraph (list string) :=
  get_available_filters DeviceCategories_VideoCompressor.

Definition get_audio_compressors : M FilterGraph (list string) :=
  get_available_filters DeviceCategories_AudioCompressor.

(** [self.filters[sample_grabber].callback.grab_frame()]: the callback
    object is the one the grabber filter holds. *)
Definition callback_grab_frame : M Filter unit :=
  self <- get ;;
  match subclass self with
  | SampleGrabber sg (Some cb) =>
      zoom (fun _ => cb)
           (fun cb' => set_subclass (SampleGrabber sg (Some cb')))
           SampleGrabberCallback_grab_frame
  | _ => raise AttributeError
  end.

Definition grab_frame : M FilterGraph bool :=
  g <- get ;;
  if has_filter sample_grabber g then
    with_filter sample_grabber callback_grab_frame ;;;
    ret true
  else ret false.

Definition get_input_device : M FilterGraph Filter :=
  filter_at video_input.

End Binding.

(** ** SampleGrabberCallback: the frame callbacks

    [BufferCB] is entered by the native framework with a pointer to the frame.
    The memory behind [pBuffer] is a function from the byte offset; the
    user's callable is arbitrary code with a state [U] of its own, which may
    also reach the callback object (through [FilterGraph.grab_frame]) and
    may raise. *)

(** An array of shape [(rows, columns, channels)], row by row. *)
Definition Mat := list (list (list Byte.byte)).
Definition NPBUFFER := nat -> Byte.byte.

(** [np.ctypeslib.as_array(pBuffer, shape=(h, w, c))]: row-major view of the
    memory; a negative dimension is a [ValueError]. *)
Definition as_array (pBuffer : NPBUFFER) (shape : Z * Z * Z) : result Mat :=
  let '(h, w, c) := shape in
  if (h <? 0) || (w <? 0) || (c <? 0) then Raise ValueError
  else
    let H := Z.to_nat h in
    let W := Z.to_nat w in
    let C := Z.to_nat c in
    Ok ((fun i =>
           (fun j =>
              (fun k => pBuffer ((i * W + j) * C + k)%nat) <$> seq 0 C)
           <$> seq 0 W)
        <$> seq 0 H).

Definition np_copy (a : Mat) : Mat := a.

(** [np.flip(a, axis=0)] *)
Definition np_flip (a : Mat) : Mat := reverse a.



(** The array [BufferCB] computes from the buffer for the resolution
    [(w, h)], both non-negative. *)
Definition delivered_image (pBuffer : NPBUFFER) (w h : Z) : Mat :=
  np_flip (np_copy
    ((fun i =>
        (fun j =>
           (fun k => pBuffer ((i * Z.to_nat w + j) * 3 + k)%nat) <$> seq 0 3)
        <$> seq 0 (Z.to_nat w))
     <$> seq 0 (Z.to_nat h))).

Section Callback.

Variable U : Type.
Variable user_callback : Callable -> Mat -> M (U * SampleGrabberCallback) unit.


Definition BufferCB (pBuffer : NPBUFFER) (BufferLen : Z)
  : M (U * SampleGrabberCallback) Z :=
  st <- get ;;
  let self := snd st in
  if keep_photo self then
    modify (fun st => (fst st, set_keep_photo false (snd st))) ;;;
    img <- lift (as_array pBuffer (snd (image_resolution self),
                                   fst (image_resolution self), 3)) ;;
    let img := np_flip (np_copy img) in
    user_callback (callback self) img ;;;
    ret 0
  else ret 0.


End Callback.

(** ** The Python library functions the module calls

    [os.path.splitext] on Windows is [ntpath.splitext], which calls
    [genericpath._splitext] with the separators [\\], [/] and [.];
    [str.upper] is given on ASCII letters.  Both serve the examples; the
    theorems hold for whatever these functions are. *)

Fixpoint rfind_from (c : ascii) (p : string) (i found : Z) : Z :=
  match p with
  | EmptyString => found
  | String a p' => rfind_from c p' (i + 1) (if Ascii.eqb a c then i else found)
  end.

(** [p.rfind(c)]: the last index of [c], or [-1]. *)
Definition rfind (c : ascii) (p : string) : Z := rfind_from c p 0 (-1).

(** The loop that skips leading dots: [true] when a character other than
    the dot stands between [filenameIndex] and [dotIndex]. *)
Fixpoint splitext_scan (n : nat) (p : string) (filenameIndex dotIndex : Z)
    (extsep : ascii) : bool :=
  match n with
  | O => false
  | S n' =>
      if filenameIndex <? dotIndex then
        match String.get (Z.to_nat filenameIndex) p with
        | Some a =>
            if negb (Ascii.eqb a extsep) then true
            else splitext_scan n' p (filenameIndex + 1) dotIndex extsep
        | None => true
        end
      else false
  end.

Definition genericpath_splitext (p : string) (sep altsep extsep : ascii)
  : string * string :=
  let sepIndex := Z.max (rfind sep p) (rfind altsep p) in
  let dotIndex := rfind extsep p in
  if (sepIndex <? dotIndex)
     && splitext_scan (Z.to_nat (dotIndex - sepIndex)) p (sepIndex + 1)
                      dotIndex extsep
  then (String.substring 0 (Z.to_nat dotIndex) p,
        String.substring (Z.to_nat dotIndex)
                         (String.length p - Z.to_nat dotIndex) p)
  else (p, EmptyString).

Definition ntpath_splitext (p : string) : string * string :=
  genericpath_splitext p "092"%char "/"%char "."%char.

Definition ascii_upper (a : ascii) : ascii :=
  let n := nat_of_ascii a in
  if (97 <=? n)%nat && (n <=? 122)%nat then ascii_of_nat (n - 32) else a.

Fixpoint upper (s : string) : string :=
  match s with
  | EmptyString => EmptyString
  | String a s' => String (ascii_upper a) (upper s')
  end.

(** ** Surfacing of native errors

    A computation surfaces native errors, except those of the calls in
    [P], when every other native call that failed while it ran is the reason
    it raised: it ends in [COMError] with that call's result code. *)
Definition surfaces_except {St A} (P : event -> Prop) (m : M St A) : Prop :=
  forall s tr r s' tr',
    m s tr = (r, s', tr') ->
    exists evs,
      tr' = tr ++ evs /\
      forall e hr, e ∈ evs -> failure e = Some hr ->
                   P e \/ r = Raise (COMError hr).

Definition surfaces_native_errors {St A} (m : M St A) : Prop :=
  surfaces_except (fun _ => False) m.



(** A computation that leaves the object it runs on as it was. *)
Definition keeps_state {St A} (m : M St A) : Prop :=
  forall s tr, snd (fst (m s tr)) = s.

(** ** The operations of [FilterGraph] *)

Inductive operation :=
| op_add_video_input_device (index : Z)
| op_add_audio_input_device (index : Z)
| op_add_video_compressor (index : Z)
| op_add_audio_compressor (index : Z)
| op_add_sample_grabber (cb : Callable)
| op_add_null_render
| op_add_default_render
| op_add_video_mixing_render
| op_add_file_writer_and_muxer (filename : string)
| op_prepare_preview_graph
| op_prepare_recording_graph
| op_run
| op_stop
| op_pause
| op_get_state
| op_get_input_devices
| op_get_audio_devices
| op_get_video_compressors
| op_get_audio_compressors
| op_grab_frame.

(** The filter type of the operations that go through [__add_filter]. *)
Definition added_type (op : operation) : option FilterType :=
  match op with
  | op_add_video_input_device _ => Some video_input
  | op_add_audio_input_device _ => Some audio_input
  | op_add_video_compressor _ => Some video_compressor
  | op_add_audio_compressor _ => Some audio_compressor
  | op_add_sample_grabber _ => Some sample_grabber
  | op_add_null_render | op_add_default_render
  | op_add_video_mixing_render => Some render
  | _ => None
  end.


Definition void {St A} (m : M St A) : M St unit := m ;;; ret tt.

Section Operations.

Variable native : Native.
Variable os_path_splitext : string -> string * string.
Variable str_upper : string -> string.

Definition run_operation (op : operation) : M FilterGraph unit :=
  match op with
  | op_add_video_input_device index => add_video_input_device native index
  | op_add_audio_input_device index => add_audio_input_device native index
  | op_add_video_compressor index => add_video_compressor native index
  | op_add_audio_compressor index => add_audio_compressor native index
  | op_add_sample_grabber cb => add_sample_grabber native cb
  | op_add_null_render => add_null_render native
  | op_add_default_render => add_default_render native
  | op_add_video_mixing_render => add_video_mixing_render native
  | op_add_file_writer_and_muxer filename =>
      add_file_writer_and_muxer native os_path_splitext str_upper filename
  | op_prepare_preview_graph => prepare_preview_graph native
  | op_prepare_recording_graph => prepare_recording_graph native
  | op_run => run native
  | op_stop => stop native
  | op_pause => pause native
  | op_get_state => void (get_state native)
  | op_get_input_devices => void (get_input_devices native)
  | op_get_audio_devices => void (get_audio_devices native)
  | op_get_video_compressors => void (get_video_compressors native)
  | op_get_audio_compressors => void (get_audio_compressors native)
  | op_grab_frame => void grab_frame
  end.

(** What it is for [add_file_writer_and_muxer filename] to write in the
    format [fmt] with the media subtype [subtype]: however the call ends,
    [recording_format] is [fmt] and the first thing asked of the framework
    is [SetOutputFileName] with [subtype]; and when the framework answers
    with a muxer, around which [Muxer] is built, that filter is what
    [filters] holds under [FilterType.muxer]. *)
Definition writes_in_format (filename : string) (g : FilterGraph)
    (tr : list event) (fmt : RecordingFormat) (subtype : GUID) : Prop :=
  let q := SetOutputFileName subtype filename in
  let g0 := set_recording_format (Some fmt) g in
  (forall r g' tr',
     add_file_writer_and_muxer native os_path_splitext str_upper filename g tr
       = (r, g', tr') ->
     recording_format g' = Some fmt /\
     exists rest, tr' = tr ++ Ev q (native tr _ q) :: rest)
  /\
  (forall (mux sink : IBASEFILTER) (flt : Filter) (tr2 : list event),
     native tr _ q = inr (mux, sink) ->
     Filter_new native mux "Muxer" Muxer (ret tt) g0
                (tr ++ [Ev q (inr (mux, sink))]) = (Ok flt, g0, tr2) ->
     add_file_writer_and_muxer native os_path_splitext str_upper filename g tr
       = (Ok tt, set_filters (<[muxer := flt]> (filters g)) g0, tr2) /\
     instance flt = mux /\ subclass flt = Muxer).

(** What it is for the monikers of an enumerator to be read one after the
    other, starting from the history [tr]: each moniker is bound to its
    storage, asked for the property bag, and its [FriendlyName] is read. *)
Inductive friendly_names
  : list event -> list IMONIKER -> list string -> list event -> Prop :=
| friendly_nil tr : friendly_names tr [] [] tr
| friendly_cons tr moniker monikers storage bag name names tr' :
    native tr _ (BindToStorage moniker) = inr storage ->
    native (tr ++ [Ev (BindToStorage moniker) (inr storage)]) _
           (QueryInterface storage IID_IPropertyBag) = inr bag ->
    native (tr ++ [Ev (BindToStorage moniker) (inr storage);
                   Ev (QueryInterface storage IID_IPropertyBag) (inr bag)]) _
           (PropertyBagRead bag "FriendlyName") = inr name ->
    friendly_names
      (tr ++ [Ev (BindToStorage moniker) (inr storage);
              Ev (QueryInterface storage IID_IPropertyBag) (inr bag);
              Ev (PropertyBagRead bag "FriendlyName") (inr name)])
      monikers names tr' ->
    friendly_names tr (moniker :: monikers) (name :: names) tr'.

End Operations.

(** ** A sample machine

    One framework to run the examples on: two cameras (the first exposes a
    capture pin only, the second a preview and a capture pin), a microphone,
    one video and one audio compressor.  The AVI multiplexer grows a second
    input pin once its first one is connected. *)

Definition E_FAIL : HRESULT := -2147467259.

Definition sample_pins (tr : list event) (f : IBASEFILTER) : list IPIN :=
  match f with
  | 10 => [11]
  | 12 => [13; 14]
  | 20 => [21]
  | 30 => [31; 32]
  | 40 => [41; 42; 43]
  | 50 => if bool_decide (connections tr = []) then [51; 55]
          else [51; 52; 55]
  | 60 => [61; 62]
  | 70 => [71]
  | 80 => [81; 82]
  | 100 => [101; 102]
  | _ => []
  end%N.

Definition sample_direction (p : IPIN) : Z :=
  match p with
  | 21 | 31 | 41 | 51 | 52 | 61 | 81 | 101 | 102 => PIN_IN
  | _ => PIN_OUT
  end%N.

Definition sample_monikers (category : GUID) : option (list IMONIKER) :=
  match category with
  | DeviceCategories_VideoInputDevice => Some [1; 2]
  | DeviceCategories_AudioInputDevice => Some [3]
  | DeviceCategories_VideoCompressor => Some [4]
  | DeviceCategories_AudioCompressor => Some [5]
  | MediaTypes_Video => Some []
  | _ => None
  end%N.

Definition sample_bound (m : IMONIKER) : IBASEFILTER :=
  match m with
  | 1 => 10 | 2 => 12 | 3 => 70 | 4 => 60 | 5 => 80 | _ => 0
  end%N.

Definition sample_name (bag : COMPTR) : string :=
  match bag with
  | 1 => "Integrated Camera"
  | 2 => "USB Camera"
  | 3 => "Microphone"
  | 4 => "MJPEG Compressor"
  | 5 => "PCM"
  | _ => ""
  end%N.

Definition sample_native : Native :=
  fun tr A c =>
    match c in call A return HRESULT + A with
    | CreateObject clsid =>
        match clsid with
        | CLSID_SampleGrabber => inr 30%N
        | CLSID_SmartTee => inr 40%N
        | CLSID_NullRender | CLSID_VideoRendererDefault
        | CLSID_VideoMixingRenderer => inr 20%N
        | _ => inl E_FAIL
        end
    | QueryInterface obj iid => inr obj
    | EnumPins f => inr (sample_pins tr f)
    | QueryDirection p => inr (sample_direction p)
    | AddFilter f name => inr tt
    | Connect o i => match o with Some _ => inr tt | None => inl E_FAIL end
    | FindPin f direction category type unconnected num =>
        match f, category with
        | 10%N, Some PinCategory_Capture => inr 11%N
        | 12%N, Some PinCategory_Preview => inr 13%N
        | 12%N, Some PinCategory_Capture => inr 14%N
        | _, _ => inl E_FAIL
        end
    | SetCallback sg cb which => inr tt
    | SetMediaType sg majortype subtype => inr tt
    | GetConnectedMediaType sg => inr {| biWidth := 640; biHeight := 480 |}
    | SetOutputFileName subtype filename =>
        match subtype with
        | MediaSubtypes_ASF => inr (100%N, 90%N)
        | _ => inr (50%N, 90%N)
        end
    | CreateClassEnumerator category => inr (sample_monikers category)
    | BindToObject m => inr (sample_bound m)
    | BindToStorage m => inr m
    | PropertyBagRead bag name => inr (sample_name bag)
    | MediaControl_Run => inr tt
    | MediaControl_Stop => inr tt
    | MediaControl_Pause => inr tt
    | MediaControl_GetState timeout => inr 2
    | GetPages pages => inr (0, 0%N)
    | GetTopWindow => inr 0
    | OleCreatePropertyFrame whandle obj count elements => inr tt
    | CoTaskMemFree p => inr tt
    end.

(** Running a computation for its final object and history. *)
Definition exec {St A} (m : M St A) (s : St * list event)
  : St * list event :=
  (snd (fst (m (fst s) (snd s))), snd (m (fst s) (snd s))).

Definition outcome {St A} (m : M St A) (s : St * list event) : result A :=
  fst (fst (m (fst s) (snd s))).

(** ** Sample graphs, built by running the operations on the sample machine *)

Definition graph0 : FilterGraph * list event := (FilterGraph_init, []).

(** The first camera and a null render. *)
Definition graph_preview : FilterGraph * list event :=
  exec (add_null_render sample_native)
    (exec (add_video_input_device sample_native 0) graph0).

(** The same with a sample grabber whose callable is [7]. *)
Definition graph_grabber : FilterGraph * list event :=
  exec (add_sample_grabber sample_native 7%N) graph_preview.

(** A recording set-up without sound on the camera of index [index],
    writing to [filename]: render, muxer and video compressor. *)
Definition graph_silent (index : Z) (filename : string)
  : FilterGraph * list event :=
  exec (add_video_compressor sample_native 0)
    (exec (add_file_writer_and_muxer sample_native ntpath_splitext
                                     upper filename)
       (exec (add_null_render sample_native)
          (exec (add_video_input_device sample_native index) graph0))).

(** The same with the microphone and the audio compressor. *)
Definition graph_recording (index : Z) (filename : string)
  : FilterGraph * list event :=
  exec (add_audio_compressor sample_native 0)
    (exec (add_audio_input_device sample_native 0)
       (graph_silent index filename)).

(** The first camera, as [VideoInput] wraps it. *)
Definition sample_camera : Filter :=
  {| instance := 10%N; Name := "Integrated Camera"; out_pins := [11%N];
     in_pins := []; subclass := VideoInput |}.

(** The sample machine with a null renderer: it has no video window, and no
    property pages. *)
Definition E_NOINTERFACE : HRESULT := -2147467262.

Definition windowless_native : Native :=
  fun tr A c =>
    match c in call T return HRESULT + T with
    | QueryInterface obj IID_IVideoWindow => inl E_NOINTERFACE
    | QueryInterface obj IID_ISpecifyPropertyPages => inl E_NOINTERFACE
    | other => sample_native tr _ other
    end.

(** A user callable that keeps every image it is given. *)
Definition keep_images (cb : Callable) (img : Mat)
  : M (list Mat * SampleGrabberCallback) unit :=
  modify (fun st => (fst st ++ [img], snd st)).

(** A frame of two rows and one column, bytes [0 .. 5], and the memory after
    it. *)
Definition sample_frame : NPBUFFER :=
  fun n => match Byte.of_nat n with Some b => b | None => Byte.x00 end.

Definition sample_callback : SampleGrabberCallback :=
  set_image_resolution (1, 2) (SampleGrabberCallback_new 7%N).

(** The callback object the sample grabber of a graph holds. *)
Definition callback_of (g : FilterGraph) : option SampleGrabberCallback :=
  match filters g !! sample_grabber with
  | Some {| subclass := SampleGrabber _ cb |} => cb
  | _ => None
  end.

(** The sample machine with a filter graph that accepts no filter. *)
Definition refusing_native : Native :=
  fun tr A c =>
    match c in call T return HRESULT + T with
    | AddFilter f name => inl E_FAIL
    | other => sample_native tr _ other
    end.

(** ** Invariants of the graph *)

(** The type under which a filter of a given class is kept. *)
Definition key_of (c : Subclass) : FilterType :=
  match c with
  | VideoInput => video_input
  | AudioInput => audio_input
  | VideoCompressor => video_compressor
  | AudioCompressor => audio_compressor
  | SmartTee => smart_tee
  | Muxer => muxer
  | Render _ => render
  | SampleGrabber _ _ => sample_grabber
  end.

(** [filters] as its annotation [FiltersDict] has it: each filter is of the
    class of its key. *)
Definition well_typed (g : FilterGraph) : Prop :=
  forall k f, filters g !! k = Some f -> key_of (subclass f) = k.

(** A graph with a muxer knows its recording format. *)
Definition format_known (g : FilterGraph) : Prop :=
  is_Some (filters g !! muxer) -> is_Some (recording_format g).

(** The graphs that the operations of [FilterGraph] lead to, from a new
    graph, whatever the framework answers and however each call ends. *)
Inductive reachable (native : Native)
    (os_path_splitext : string -> string * string)
    (str_upper : string -> string) : FilterGraph -> Prop :=
| reachable_init :
    reachable native os_path_splitext str_upper FilterGraph_init
| reachable_step g op tr :
    reachable native os_path_splitext str_upper g ->
    reachable native os_path_splitext str_upper
      (fst (exec (run_operation native os_path_splitext str_upper op)
                 (g, tr))).

(** [I] holds after the computation when it held before, however the
    computation ends. *)
Definition inv_step {St A} (I : St -> Prop) (m : M St A) : Prop :=
  forall s tr r s' tr', m s tr = (r, s', tr') -> I s -> I s'.

(** The class of a filter is decided when it is built: the methods that
    change a filter keep it. *)
Definition keeps_class {A} (m : M Filter A) : Prop :=
  forall f tr r f' tr',
    m f tr = (r, f', tr') -> key_of (subclass f') = key_of (subclass f).

(** The operations that leave the two flags of the graph alone. *)
Definition plain (op : operation) : bool :=
  match op with
  | op_add_file_writer_and_muxer _ | op_prepare_preview_graph
  | op_prepare_recording_graph => false
  | _ => true
  end.

(** The sample machine with pins that cannot be connected. *)
Definition unconnectable_native : Native :=
  fun tr A c =>
    match c in call T return HRESULT + T with
    | Connect o i => inl E_FAIL
    | other => sample_native tr _ other
    end.

(** A set-up for recording without compressors nor microphone. *)
Definition graph_bare (index : Z) (filename : string)
  : FilterGraph * list event :=
  exec (add_file_writer_and_muxer sample_native ntpath_splitext upper
                                  filename)
    (exec (add_null_render sample_native)
       (exec (add_video_input_device sample_native index) graph0)).

(** The framework delivering one buffer after the other. *)
Fixpoint buffers_arrive (U : Type)
    (user_callback : Callable -> Mat -> M (U * SampleGrabberCallback) unit)
    (buffers : list (NPBUFFER * Z)) : M (U * SampleGrabberCallback) unit :=
  match buffers with
  | [] => ret tt
  | (pBuffer, BufferLen) :: rest =>
      BufferCB U user_callback pBuffer BufferLen ;;;
      buffers_arrive U user_callback rest
  end.

(** * Emptying the graph, and the video window

    [remove_filters], [remove_all_filters_but_video_source] and
    [configure_render] reach further into the framework: they enumerate and
    remove the filters of the native graph and set up the window of the
    render.  Their calls are added to the earlier ones, in one history.  The
    filter enumerator is followed call by call ([Next(1)] answers with a
    filter and a count, [Reset] starts it over), and the loops that wait for
    it to run dry are given fuel: a computation that runs out of fuel has
    not returned. *)

Inductive xcall : Type -> Type :=
| Earlier {A : Type} (c : call A) : xcall A
| EnumFilters : xcall COMPTR
| Next (enum : COMPTR) (celt : Z) : xcall (IBASEFILTER * Z)
| Reset (enum : COMPTR) : xcall unit
| RemoveFilter (f : IBASEFILTER) : xcall unit
| put_Owner (video_window : COMPTR) (handle : Z) : xcall unit
| put_WindowStyle (video_window : COMPTR) (style : Z) : xcall unit
| SetWindowPosition (video_window : COMPTR) (x y width height : Z)
  : xcall unit.

Inductive xevent :=
| XEv {A : Type} (c : xcall A) (r : HRESULT + A).

Definition XNative := list xevent -> forall A : Type, xcall A -> HRESULT + A.

(** An entry of the earlier kind of history, in the longer one. *)
Definition earlier (e : event) : xevent :=
  match e with
  | Ev c r => XEv (Earlier c) r
  end.

(** The earlier kind of history, out of the longer one. *)
Definition earlier_event (e : xevent) : option event :=
  match e with
  | XEv c r =>
      match c in xcall T return HRESULT + T -> option event with
      | Earlier c' => fun r => Some (Ev c' r)
      | _ => fun _ => None
      end r
  end.

Definition earlier_events (tr : list xevent) : list event :=
  omap earlier_event tr.

(** The filters [RemoveFilter] was called on, whatever the answer. *)
Definition removal (e : xevent) : option IBASEFILTER :=
  match e with
  | XEv (RemoveFilter f) _ => Some f
  | _ => None
  end.

Definition removals (tr : list xevent) : list IBASEFILTER :=
  omap removal tr.

(** The filters the enumerator delivered: the answers of [Next] with a
    count above 0. *)
Definition delivery (e : xevent) : option IBASEFILTER :=
  match e with
  | XEv (Next _ _) (inr (filt, count)) =>
      if 0 <? count then Some filt else None
  | _ => None
  end.

Definition deliveries (tr : list xevent) : list IBASEFILTER :=
  omap delivery tr.

(** The computations: [None] when the fuel is used up. *)
Definition XM (St A : Type) : Type :=
  St -> list xevent -> option (result A * St * list xevent).

Definition xret {St A} (a : A) : XM St A := fun s tr => Some (Ok a, s, tr).

Definition xraise {St A} (e : exn) : XM St A :=
  fun s tr => Some (Raise e, s, tr).

Definition xbind {St A B} (m : XM St A) (k : A -> XM St B) : XM St B :=
  fun s tr =>
    match m s tr with
    | Some (Ok a, s', tr') => k a s' tr'
    | Some (Raise e, s', tr') => Some (Raise e, s', tr')
    | None => None
    end.

Definition out_of_fuel {St A} : XM St A := fun s tr => None.

Definition xmodify {St} (f : St -> St) : XM St unit :=
  fun s tr => Some (Ok tt, f s, tr).

Declare Scope xm_scope.
Delimit Scope xm_scope with xm.
Bind Scope xm_scope with XM.

Notation "x <- m ;; k" := (xbind m (fun x => k))
  (at level 100, m at next level, right associativity) : xm_scope.
Notation "m ;;; k" := (xbind m (fun _ => k))
  (at level 100, right associativity) : xm_scope.

Section Removal.

Variable xnative : XNative.

(** The window styles of [win_api_extra], which is not part of the sources
    at hand. *)
Variable WS_CHILD WS_CLIPSIBLINGS : Z.

Definition xinvoke {St A} (c : xcall A) : XM St A :=
  fun s tr =>
    let r := xnative tr A c in
    Some (match r with
          | inl hr => Raise (COMError hr)
          | inr a => Ok a
          end, s, tr ++ [XEv c r]).

(** The framework as the earlier methods see it, after the history [tr]. *)
Definition native_after (tr : list xevent) : Native :=
  fun tr' A c => xnative (tr ++ (earlier <$> tr')) A (Earlier c).

(** A computation of the earlier methods, run at this point of the
    history. *)
Definition old {St A} (m : Native -> M St A) : XM St A :=
  fun s tr =>
    match m (native_after tr) s [] with
    | (r, s', tr') => Some (r, s', tr ++ (earlier <$> tr'))
    end.

(** *** class Render *)

Definition configure_video_window {St} (self : Filter) (handle : Z)
  : XM St unit :=
  match subclass self with
  | Render (Some video_window) =>
      (xinvoke (put_Owner video_window handle) ;;;
       xinvoke (put_WindowStyle video_window
                                (Z.lor WS_CHILD WS_CLIPSIBLINGS)))%xm
  | _ => xraise AttributeError
  end.

Definition set_window_position {St} (self : Filter) (x y width height : Z)
  : XM St unit :=
  match subclass self with
  | Render (Some video_window) =>
      xinvoke (SetWindowPosition video_window x y width height)
  | _ => xraise AttributeError
  end.

(** *** class FilterGraph *)

Definition configure_render (handle : Z) : XM FilterGraph unit :=
  (f <- old (fun _ => filter_at render) ;;
   configure_video_window f handle)%xm.

(** The loop of [remove_filters]; [p] is the answer of the last
    [Next(1)]. *)
Fixpoint remove_filters_loop (fuel : nat) (enum_filters : COMPTR)
    (p : IBASEFILTER * Z) : XM FilterGraph unit :=
  if 0 <? snd p then
    match fuel with
    | O => out_of_fuel
    | S fuel' =>
        (xinvoke (RemoveFilter (fst p)) ;;;
         xinvoke (Reset enum_filters) ;;;
         p' <- xinvoke (Next enum_filters 1) ;;
         remove_filters_loop fuel' enum_filters p')%xm
    end
  else xret tt.

Definition remove_filters (fuel : nat) : XM FilterGraph unit :=
  (enum_filters <- xinvoke EnumFilters ;;
   p <- xinvoke (Next enum_filters 1) ;;
   remove_filters_loop fuel enum_filters p ;;;
   xmodify (set_filters ∅))%xm.

(** The first loop of [remove_all_filters_but_video_source]. *)
Fixpoint filters_to_delete_loop (fuel : nat) (enum_filters : COMPTR)
    (video_input_instance : IBASEFILTER)
    (filters_to_delete : list IBASEFILTER) (p : IBASEFILTER * Z)
  : XM FilterGraph (list IBASEFILTER) :=
  if 0 <? snd p then
    match fuel with
    | O => out_of_fuel
    | S fuel' =>
        let filters_to_delete :=
          if bool_decide (fst p <> video_input_instance)
          then filters_to_delete ++ [fst p]
          else filters_to_delete in
        (p' <- xinvoke (Next enum_filters 1) ;;
         filters_to_delete_loop fuel' enum_filters video_input_instance
                                filters_to_delete p')%xm
    end
  else xret filters_to_delete.

(** The second one. *)
Fixpoint remove_each (filters_to_delete : list IBASEFILTER)
  : XM FilterGraph unit :=
  match filters_to_delete with
  | [] => xret tt
  | filt :: rest => (xinvoke (RemoveFilter filt) ;;; remove_each rest)%xm
  end.

Definition remove_all_filters_but_video_source (fuel : nat)
  : XM FilterGraph unit :=
  (video_input_f <- old (fun _ => filter_at video_input) ;;
   enum_filters <- xinvoke EnumFilters ;;
   p <- xinvoke (Next enum_filters 1) ;;
   filters_to_delete <- filters_to_delete_loop fuel enum_filters
                          (instance video_input_f) [] p ;;
   remove_each filters_to_delete ;;;
   xmodify (set_filters {[ video_input := video_input_f ]}))%xm.

End Removal.

(** ** The sample machine, with its filter graph

    The filters in the native graph are those added and not removed since,
    the last added first; the enumerator stands after the filters it has
    delivered since it was made or reset. *)

Definition in_graph_step (l : list IBASEFILTER) (e : xevent)
  : list IBASEFILTER :=
  match e with
  | XEv (Earlier (AddFilter f _)) (inr _) => f :: l
  | XEv (RemoveFilter f) (inr _) => filter (fun x => x <> f) l
  | _ => l
  end.

Definition in_graph (tr : list xevent) : list IBASEFILTER :=
  foldl in_graph_step [] tr.

Definition cursor_step (n : nat) (e : xevent) : nat :=
  match e with
  | XEv (Next _ _) (inr (_, count)) => if 0 <? count then S n else n
  | XEv (Reset _) _ => O
  | XEv EnumFilters _ => O
  | _ => n
  end.

Definition cursor (tr : list xevent) : nat := foldl cursor_step O tr.

Definition sample_xnative : XNative :=
  fun tr A c =>
    match c in xcall T return HRESULT + T with
    | Earlier c' => sample_native (earlier_events tr) _ c'
    | EnumFilters => inr 200%N
    | Next enum celt =>
        match in_graph tr !! cursor tr with
        | Some f => inr (f, 1)
        | None => inr (0%N, 0)
        end
    | Reset enum => inr tt
    | RemoveFilter f => inr tt
    | put_Owner video_window handle => inr tt
    | put_WindowStyle video_window style => inr tt
    | SetWindowPosition video_window x y width height => inr tt
    end.

(** The same with a render that cannot be removed. *)
Definition stuck_xnative : XNative :=
  fun tr A c =>
    match c in xcall T return HRESULT + T with
    | RemoveFilter 20%N => inl E_FAIL
    | other => sample_xnative tr _ other
    end.

(** The same with an enumerator that delivers the filters of [fs], once. *)
Definition listing_xnative (fs : list IBASEFILTER) : XNative :=
  fun tr A c =>
    match c in xcall T return HRESULT + T with
    | Next enum celt =>
        match fs !! length (deliveries tr) with
        | Some f => inr (f, 1)
        | None => inr (0%N, 0)
        end
    | other => sample_xnative tr _ other
    end.

(** The same with a graph that keeps its sample grabber, whatever is
    removed. *)
Definition sticky_xnative : XNative :=
  fun tr A c =>
    match c in xcall T return HRESULT + T with
    | Next enum celt => inr (30%N, 1)
    | other => sample_xnative tr _ other
    end.

(** The graph with camera, render and sample grabber, and how it was
    built. *)
Definition xgraph_grabber : FilterGraph * list xevent :=
  (fst graph_grabber, earlier <$> snd graph_grabber).

(** Running a computation from a graph and a history. *)
Definition xexec {St A} (m : XM St A) (s : St * list xevent)
  : option (St * list xevent) :=
  match m (fst s) (snd s) with
  | Some (_, s', tr') => Some (s', tr')
  | None => None
  end.

(** * Properties *)

(** ** Stepping through a computation *)

Lemma bind_Ok {St A B} (m : M St A) (k : A -> M St B) s tr a s' tr' :
  m s tr = (Ok a, s', tr') -> bind m k s tr = k a s' tr'.
Proof. intros H. unfold bind. now rewrite H. Qed.

Lemma bind_Raise {St A B} (m : M St A) (k : A -> M St B) s tr e s' tr' :
  m s tr = (Raise e, s', tr') -> bind m k s tr = (Raise e, s', tr').
Proof. intros H. unfold bind. now rewrite H. Qed.

Lemma bind_assoc {St A B C} (m : M St A) (k : A -> M St B)
    (h : B -> M St C) s tr :
  bind (bind m k) h s tr = bind m (fun a => bind (k a) h) s tr.
Proof. unfold bind. destruct (m s tr) as [[[a|e] s1] tr1]; reflexivity. Qed.

Lemma bind_inv {St A B} (m : M St A) (k : A -> M St B) s tr r s2 tr2 :
  bind m k s tr = (r, s2, tr2) ->
  (exists e, m s tr = (Raise e, s2, tr2) /\ r = Raise e) \/
  (exists a s1 tr1, m s tr = (Ok a, s1, tr1) /\ k a s1 tr1 = (r, s2, tr2)).
Proof.
  unfold bind. destruct (m s tr) as [[[a|e] s1] tr1]; intros H.
  - right. eauto.
  - left. inversion H; subst. eauto.
Qed.

Lemma py_index_0 {A} (l : list A) (x : A) :
  l !! 0%nat = Some x -> py_index l 0 = Ok x.
Proof.
  destruct l as [|y l]; intros H; [discriminate|].
  injection H as ->. unfold py_index. cbn [length].
  rewrite Z.ltb_irrefl. cbn [orb].
  replace (Z.of_nat (S (length l)) <=? 0) with false
    by (symmetry; apply Z.leb_gt; lia).
  reflexivity.
Qed.

Lemma py_index_1 {A} (l : list A) (x : A) :
  l !! 1%nat = Some x -> py_index l 1 = Ok x.
Proof.
  destruct l as [|y [|z l]]; intros H; try discriminate.
  injection H as ->. unfold py_index. cbn [length].
  replace (1 <? 0) with false by reflexivity. cbn [orb].
  replace (Z.of_nat (S (S (length l))) <=? 1) with false
    by (symmetry; apply Z.leb_gt; lia).
  reflexivity.
Qed.

Lemma has_filter_Some k g f : filters g !! k = Some f -> has_filter k g = true.
Proof. intros H. unfold has_filter. now rewrite H. Qed.

Lemma has_filter_None k g : filters g !! k = None -> has_filter k g = false.
Proof. intros H. unfold has_filter. now rewrite H. Qed.

Lemma filter_at_run k g tr f :
  filters g !! k = Some f -> filter_at k g tr = (Ok f, g, tr).
Proof. intros H. unfold filter_at, bind, get. now rewrite H. Qed.

Lemma filter_at_missing k g tr :
  filters g !! k = None -> filter_at k g tr = (Raise (KeyError k), g, tr).
Proof. intros H. unfold filter_at, bind, get. now rewrite H. Qed.

Lemma out_of_run k g tr f o :
  filters g !! k = Some f -> out_pins f !! 0%nat = Some o ->
  out_of k g tr = (Ok o, g, tr).
Proof.
  intros H Ho. unfold out_of. erewrite bind_Ok by (apply filter_at_run, H).
  unfold get_out. now rewrite (py_index_0 _ _ Ho).
Qed.

Lemma in_of_run0 k g tr f i :
  filters g !! k = Some f -> in_pins f !! 0%nat = Some i ->
  in_of k 0 g tr = (Ok i, g, tr).
Proof.
  intros H Hi. unfold in_of. erewrite bind_Ok by (apply filter_at_run, H).
  unfold get_in. now rewrite (py_index_0 _ _ Hi).
Qed.

Lemma in_of_run1 k g tr f i :
  filters g !! k = Some f -> in_pins f !! 1%nat = Some i ->
  in_of k 1 g tr = (Ok i, g, tr).
Proof.
  intros H Hi. unfold in_of. erewrite bind_Ok by (apply filter_at_run, H).
  unfold get_in. now rewrite (py_index_1 _ _ Hi).
Qed.

Lemma with_filter_run {A} k (m : M Filter A) g tr f r f' tr' :
  filters g !! k = Some f -> m f tr = (r, f', tr') ->
  with_filter k m g tr = (r, set_filters (<[k := f']> (filters g)) g, tr').
Proof.
  intros H Hm. unfold with_filter.
  erewrite bind_Ok by (apply filter_at_run, H).
  unfold zoom. now rewrite Hm.
Qed.

Create HintDb run discriminated.
#[global] Hint Resolve filter_at_run out_of_run in_of_run0 in_of_run1 : run.

Ltac run_hint := solve [ reflexivity | eassumption | eauto with run ].

(** One more statement of the computation has run. *)
Ltac step :=
  first [ rewrite bind_assoc
        | erewrite bind_Ok by run_hint; cbv beta ].

Lemma invoke_inr {St A} (native : Native) (c : call A) (a : A) (s : St) tr :
  native tr A c = inr a ->
  invoke native c s tr = (Ok a, s, tr ++ [Ev c (inr a)]).
Proof. intros H. unfold invoke. now rewrite H. Qed.

Lemma invoke_inl {St A} (native : Native) (c : call A) hr (s : St) tr :
  native tr A c = inl hr ->
  invoke native c s tr = (Raise (COMError hr), s, tr ++ [Ev c (inl hr)]).
Proof. intros H. unfold invoke. now rewrite H. Qed.

(** A native call that succeeds, as one more step. *)
Ltac step_invoke H :=
  erewrite bind_Ok by (apply invoke_inr; rewrite <- ?app_assoc; exact H);
  cbv beta; rewrite <- ?app_assoc; cbn [app].

(** ** Computations that leave the object alone

    The constructors and the helpers that only talk to the framework do not
    touch the object they are run from. *)

Lemma keeps_ret {St A} (a : A) : keeps_state (@ret St A a).
Proof. intros s tr. reflexivity. Qed.

Lemma keeps_raise {St A} e : keeps_state (@raise St A e).
Proof. intros s tr. reflexivity. Qed.

Lemma keeps_lift {St A} (r : result A) : keeps_state (@lift St A r).
Proof. destruct r; intros s tr; reflexivity. Qed.

Lemma keeps_invoke {St A} native (c : call A) :
  keeps_state (@invoke native St A c).
Proof. intros s tr. reflexivity. Qed.

Lemma keeps_bind {St A B} (m : M St A) (k : A -> M St B) :
  keeps_state m -> (forall a, keeps_state (k a)) -> keeps_state (bind m k).
Proof.
  intros Hm Hk s tr. unfold bind. specialize (Hm s tr).
  destruct (m s tr) as [[[a|e] s1] tr1]; cbn in Hm; subst s1.
  - apply Hk.
  - reflexivity.
Qed.

Lemma keeps_try {St A} (m h : M St A) :
  keeps_state m -> keeps_state h -> keeps_state (try_except_COMError m h).
Proof.
  intros Hm Hh s tr. unfold try_except_COMError. specialize (Hm s tr).
  destruct (m s tr) as [[[a|[]] s1] tr1]; cbn in Hm; subst s1;
    try reflexivity.
  apply Hh.
Qed.

Lemma keeps_construct {St T} (init : T) (m : M T unit) :
  keeps_state (@construct St T init m).
Proof.
  intros s tr. unfold construct.
  destruct (m init tr) as [[[a|e] t] tr1]; reflexivity.
Qed.

Lemma keeps_get {St} : keeps_state (@get St).
Proof. intros s tr. reflexivity. Qed.

Lemma keeps_assert {St} b : keeps_state (@assert St b).
Proof. destruct b; intros s tr; reflexivity. Qed.

Lemma keeps_unpack2 {St A} (l : list A) : keeps_state (@unpack2 St A l).
Proof. destruct l as [|? [|? [|? ?]]]; intros s tr; reflexivity. Qed.

Ltac keeps :=
  repeat first
    [ apply keeps_ret | apply keeps_raise | apply keeps_lift
    | apply keeps_invoke | apply keeps_construct | apply keeps_get
    | apply keeps_assert | apply keeps_unpack2
    | apply keeps_try
    | apply keeps_bind; [| intros ?]
    | match goal with
      | |- keeps_state (match ?x with _ => _ end) => destruct x
      | |- keeps_state (if ?b then _ else _) => destruct b
      end ].

Lemma keeps_get_moniker_name {St} native m :
  keeps_state (@get_moniker_name native St m).
Proof. unfold get_moniker_name. keeps. Qed.

Lemma keeps_get_available_filters_loop {St} native enum acc :
  keeps_state (@get_available_filters_loop native St enum acc).
Proof.
  revert acc. induction enum as [|m enum IH]; intros acc; cbn.
  - apply keeps_ret.
  - apply keeps_bind; [apply keeps_get_moniker_name | intros; apply IH].
Qed.

Lemma keeps_get_available_filters {St} native category :
  keeps_state (@get_available_filters native St category).
Proof.
  unfold get_available_filters. apply keeps_bind; [apply keeps_invoke|].
  intros [enum|]; [apply keeps_get_available_filters_loop | apply keeps_ret].
Qed.

Lemma keeps_get_filter_by_index {St} native category index :
  keeps_state (@get_filter_by_index native St category index).
Proof.
  unfold get_filter_by_index. apply keeps_bind; [apply keeps_invoke|].
  intros [enum|]; [|apply keeps_raise].
  destruct (get_filter_by_index_loop enum 0 index); [|apply keeps_raise].
  keeps.
Qed.

Lemma keeps_find_pin {St} native self d c t u :
  keeps_state (@find_pin native St self d c t u).
Proof. unfold find_pin. keeps. Qed.

Lemma keeps_show_properties {St} native obj :
  keeps_state (@show_properties native St obj).
Proof. unfold show_properties. keeps. Qed.

Lemma keeps_build_filter {St} native ft id :
  keeps_state (@build_filter native St ft id).
Proof.
  unfold build_filter, device_filter, Render_new, SampleGrabber_new,
    Filter_new.
  destruct ft; keeps.
Qed.

(** [__add_filter] on a type that is in the graph: the assertion fails, and
    nothing has happened. *)
Lemma add_filter_present native ft id g tr :
  is_Some (filters g !! ft) ->
  __add_filter native ft id g tr = (Raise AssertionError, g, tr).
Proof.
  intros [f Hf]. unfold __add_filter. step.
  rewrite (has_filter_Some _ _ _ Hf). reflexivity.
Qed.

(** [__add_filter] returning: the type was free, the filter was built, stored
    under its type, and added to the native graph under its name. *)
Lemma add_filter_Ok native ft id g tr g' tr' :
  __add_filter native ft id g tr = (Ok tt, g', tr') ->
  filters g !! ft = None /\
  exists flt tr1,
    build_filter native ft id g tr = (Ok flt, g, tr1) /\
    g' = set_filters (<[ft := flt]> (filters g)) g /\
    tr' = tr1 ++ [Ev (AddFilter (instance flt) (Name flt)) (inr tt)].
Proof.
  unfold __add_filter. step. unfold has_filter.
  destruct (filters g !! ft) as [f|] eqn:Hf; cbn [negb assert].
  { rewrite (bind_Raise _ _ _ _ AssertionError g tr) by reflexivity.
    discriminate. }
  step. intros H. split; [reflexivity|].
  apply bind_inv in H as [(e & _ & ?)|(flt & s1 & tr1 & Hb & H)];
    [discriminate|].
  pose proof (keeps_build_filter (St:=FilterGraph) native ft id g tr) as Hk.
  rewrite Hb in Hk. cbn in Hk. subst s1.
  exists flt, tr1. split; [exact Hb|].
  revert H. step. unfold invoke.
  destruct (native tr1 unit (AddFilter (instance flt) (Name flt))) as [hr|[]];
    intros H; inversion H; subst. auto.
Qed.

Lemma keeps_filter_at k : keeps_state (filter_at k).
Proof. unfold filter_at. keeps. Qed.

Lemma keeps_out_of k : keeps_state (out_of k).
Proof. unfold out_of. keeps. Qed.

Lemma keeps_in_of k i : keeps_state (in_of k i).
Proof. unfold in_of. keeps. Qed.

(** What a state-keeping computation returns comes with the state it was
    started in. *)
Lemma keeps_state_run {St A} (m : M St A) s tr r s' tr' :
  keeps_state m -> m s tr = (r, s', tr') -> s' = s.
Proof. intros Hk H. specialize (Hk s tr). rewrite H in Hk. exact Hk. Qed.

(** ** What the constructors keep *)

Section Constructors.

Variable native : Native.

(** Reloading the pins touches the two pin lists only. *)
Lemma reload_pins_loop_fields pins f tr r f' tr' :
  reload_pins_loop native pins f tr = (r, f', tr') ->
  instance f' = instance f /\ Name f' = Name f /\ subclass f' = subclass f.
Proof.
  revert f tr. induction pins as [|pin pins IH]; intros f tr;
    cbn [reload_pins_loop].
  - intros H; inversion H; subst; auto.
  - intros H.
    apply bind_inv in H as [(e & H & _)|(d & f1 & tr1 & Hd & H)].
    + apply (keeps_state_run _ _ _ _ _ _ (keeps_invoke _ _)) in H as ->.
      auto.
    + apply (keeps_state_run _ _ _ _ _ _ (keeps_invoke _ _)) in Hd as ->.
      revert H. step.
      destruct (d =? 0); (erewrite bind_Ok by reflexivity); intros H;
        apply IH in H; exact H.
Qed.

Lemma reload_pins_fields f tr r f' tr' :
  reload_pins native f tr = (r, f', tr') ->
  instance f' = instance f /\ Name f' = Name f /\ subclass f' = subclass f.
Proof.
  unfold reload_pins. repeat step.
  cbn [instance set_in_pins set_out_pins]. intros H.
  apply bind_inv in H as [(e & H & _)|(pins & f1 & tr1 & Hd & H)].
  - apply (keeps_state_run _ _ _ _ _ _ (keeps_invoke _ _)) in H as ->.
    auto.
  - apply (keeps_state_run _ _ _ _ _ _ (keeps_invoke _ _)) in Hd as ->.
    apply reload_pins_loop_fields in H. exact H.
Qed.

(** A filter that [Filter.__init__] alone has built. *)
Lemma Filter_new_plain {St} inst name cls (s : St) tr flt s' tr' :
  Filter_new native inst name cls (ret tt) s tr = (Ok flt, s', tr') ->
  instance flt = inst /\ Name flt = name /\ subclass flt = cls.
Proof.
  unfold Filter_new, construct.
  set (f0 := {| instance := inst; Name := name; out_pins := [];
                in_pins := []; subclass := cls |}).
  unfold bind.
  destruct (reload_pins native f0 tr) as [[[[]|e] f1] tr1] eqn:Hr; cbn.
  - intros H; inversion H; subst.
    apply reload_pins_fields in Hr. exact Hr.
  - discriminate.
Qed.

(** A sample grabber comes out of its constructor without a callback. *)
Lemma SampleGrabber_new_fields {St} (s : St) tr flt s' tr' :
  SampleGrabber_new native s tr = (Ok flt, s', tr') ->
  exists ptr, subclass flt = SampleGrabber ptr None.
Proof.
  unfold SampleGrabber_new. intros H.
  apply bind_inv in H as [(e & _ & ?)|(inst & s1 & tr1 & _ & H)];
    [discriminate|].
  unfold Filter_new, construct in H.
  set (f0 := {| instance := inst; Name := "Sample Grabber"; out_pins := [];
                in_pins := []; subclass := SampleGrabber 0%N None |}) in H.
  destruct (bind _ _ f0 tr1) as [[[[]|e] f1] tr2] eqn:Hb; [|discriminate].
  inversion H; subst. clear H.
  apply bind_inv in Hb as [(e & _ & ?)|([] & f2 & tr3 & _ & Hb)];
    [discriminate|].
  apply bind_inv in Hb as [(e & _ & ?)|(ptr & f3 & tr4 & _ & Hb)];
    [discriminate|].
  unfold modify in Hb. inversion Hb; subst. exists ptr. reflexivity.
Qed.

End Constructors.

(** ** Surfacing of native errors, statement by statement *)

Section Surfacing.

Variable native : Native.
Variable P : event -> Prop.

Lemma surfaces_silent {St A} (m : M St A) :
  (forall s tr, snd (m s tr) = tr) -> surfaces_except P m.
Proof.
  intros Hm s tr r s' tr' H. exists []. specialize (Hm s tr).
  rewrite H in Hm. cbn in Hm. subst tr'. rewrite app_nil_r.
  split; [reflexivity|]. intros e hr He. inversion He.
Qed.

Lemma surfaces_ret {St A} (a : A) : surfaces_except P (@ret St A a).
Proof. apply surfaces_silent. reflexivity. Qed.

Lemma surfaces_raise {St A} e : surfaces_except P (@raise St A e).
Proof. apply surfaces_silent. reflexivity. Qed.

Lemma surfaces_get {St} : surfaces_except P (@get St).
Proof. apply surfaces_silent. reflexivity. Qed.

Lemma surfaces_modify {St} (f : St -> St) : surfaces_except P (modify f).
Proof. apply surfaces_silent. reflexivity. Qed.

Lemma surfaces_lift {St A} (r : result A) : surfaces_except P (@lift St A r).
Proof. apply surfaces_silent. destruct r; reflexivity. Qed.

Lemma surfaces_assert {St} b : surfaces_except P (@assert St b).
Proof. apply surfaces_silent. destruct b; reflexivity. Qed.

Lemma surfaces_unpack2 {St A} (l : list A) :
  surfaces_except P (@unpack2 St A l).
Proof.
  apply surfaces_silent. destruct l as [|? [|? [|? ?]]]; reflexivity.
Qed.

Lemma surfaces_invoke {St A} (c : call A) :
  surfaces_except P (@invoke native St A c).
Proof.
  intros s tr r s' tr' H. unfold invoke in H.
  exists [Ev c (native tr A c)]. inversion H; subst. clear H.
  split; [reflexivity|]. intros e hr He Hf.
  apply list_elem_of_singleton in He. subst e. cbn in Hf.
  destruct (native tr A c); inversion Hf; subst. right. reflexivity.
Qed.

Lemma surfaces_bind {St A B} (m : M St A) (k : A -> M St B) :
  surfaces_except P m -> (forall a, surfaces_except P (k a)) ->
  surfaces_except P (bind m k).
Proof.
  intros Hm Hk s tr r s' tr' H.
  apply bind_inv in H as [(e & H & ->)|(a & s1 & tr1 & H1 & H2)].
  - destruct (Hm _ _ _ _ _ H) as (evs & -> & Hevs). exists evs.
    split; [reflexivity|]. intros e0 hr He Hf.
    destruct (Hevs e0 hr He Hf) as [HP|Hr]; [left; exact HP|].
    right. inversion Hr. reflexivity.
  - destruct (Hm _ _ _ _ _ H1) as (evs1 & -> & Hevs1).
    destruct (Hk a _ _ _ _ _ H2) as (evs2 & -> & Hevs2).
    exists (evs1 ++ evs2). split; [now rewrite app_assoc|].
    intros e hr He Hf. apply elem_of_app in He as [He|He].
    + destruct (Hevs1 e hr He Hf) as [HP|Hr]; [left; exact HP|discriminate].
    + exact (Hevs2 e hr He Hf).
Qed.

Lemma surfaces_zoom {St T A} (rd : St -> T) (wr : T -> St -> St)
    (m : M T A) :
  surfaces_except P m -> surfaces_except P (zoom rd wr m).
Proof.
  intros Hm s tr r s' tr' H. unfold zoom in H.
  destruct (m (rd s) tr) as [[r1 t1] tr1] eqn:Hr. inversion H; subst.
  exact (Hm _ _ _ _ _ Hr).
Qed.

Lemma surfaces_construct {St T} (init : T) (m : M T unit) :
  surfaces_except P m -> surfaces_except P (@construct St T init m).
Proof.
  intros Hm s tr r s' tr' H. unfold construct in H.
  destruct (m init tr) as [[[[]|e] t1] tr1] eqn:Hr; inversion H; subst;
    destruct (Hm _ _ _ _ _ Hr) as (evs & -> & Hevs); exists evs;
    (split; [reflexivity|]); intros e0 hr He Hf;
    destruct (Hevs e0 hr He Hf) as [HP|Hr']; auto.
  - discriminate Hr'.
  - right. inversion Hr'. reflexivity.
Qed.





End Surfacing.

Lemma surfaces_weaken {St A} (P Q : event -> Prop) (m : M St A) :
  (forall e, P e -> Q e) -> surfaces_except P m -> surfaces_except Q m.
Proof.
  intros HPQ Hm s tr r s' tr' H.
  destruct (Hm _ _ _ _ _ H) as (evs & -> & Hevs). exists evs.
  split; [reflexivity|]. intros e hr He Hf.
  destruct (Hevs e hr He Hf); auto.
Qed.

(** The history only grows. *)
Lemma surfaces_grows {St A} (P : event -> Prop) (m : M St A) s tr r s' tr' :
  surfaces_except P m -> m s tr = (r, s', tr') -> exists evs, tr' = tr ++ evs.
Proof. intros Hm H. destruct (Hm _ _ _ _ _ H) as (evs & -> & _). eauto. Qed.

Ltac surfaces :=
  repeat first
    [ apply surfaces_ret | apply surfaces_raise | apply surfaces_get
    | apply surfaces_modify | apply surfaces_lift | apply surfaces_assert
    | apply surfaces_unpack2 | apply surfaces_invoke
    | apply surfaces_zoom | apply surfaces_construct
    | apply surfaces_bind; [| intros ?]
    | match goal with
      | |- surfaces_except _ (match ?x with _ => _ end) => destruct x
      | |- surfaces_except _ (if ?b then _ else _) => destruct b
      | |- surfaces_except _ (let _ := _ in _) => cbv zeta
      end ].

(** ** The preview graph *)

Section Preview.

Variable native : Native.

(** C1. With a video input and a render in the graph, whose first output
    pin is [o] and first input pin is [i]: when there is no sample grabber,
    [prepare_preview_graph] makes the one connection [o -> i]; when there is
    one (first input [sgi], first output [sgo]) it connects [o -> sgi], then
    [sgo -> i], and stores the width and height of the connected media type
    as the [image_resolution] of the grabber's callback.  In both cases it
    returns with [is_recording = False]. *)
Theorem prepare_preview_graph_topology (g : FilterGraph) (tr : list event)
    (vi rd : Filter) (o i : IPIN) :
  filters g !! video_input = Some vi ->
  filters g !! render = Some rd ->
  out_pins vi !! 0%nat = Some o ->
  in_pins rd !! 0%nat = Some i ->
  (filters g !! sample_grabber = None ->
   native tr _ (Connect (Some o) i) = inr tt ->
   prepare_preview_graph native g tr =
     (Ok tt, set_is_recording false g,
      tr ++ [Ev (Connect (Some o) i) (inr tt)]))
  /\
  (forall (sg : Filter) (sgi sgo : IPIN) (ptr : COMPTR)
          (cb : SampleGrabberCallback) (hdr : VIDEOINFOHEADER),
   filters g !! sample_grabber = Some sg ->
   subclass sg = SampleGrabber ptr (Some cb) ->
   in_pins sg !! 0%nat = Some sgi ->
   out_pins sg !! 0%nat = Some sgo ->
   let e1 := Ev (Connect (Some o) sgi) (inr tt) in
   let e2 := Ev (Connect (Some sgo) i) (inr tt) in
   native tr _ (Connect (Some o) sgi) = inr tt ->
   native (tr ++ [e1]) _ (Connect (Some sgo) i) = inr tt ->
   native (tr ++ [e1; e2]) _ (GetConnectedMediaType ptr) = inr hdr ->
   prepare_preview_graph native g tr =
     (Ok tt,
      set_is_recording false
        (set_filters
           (<[sample_grabber :=
                set_subclass
                  (SampleGrabber ptr
                     (Some (set_image_resolution (biWidth hdr, biHeight hdr)
                                                 cb))) sg]> (filters g)) g),
      tr ++ [e1; e2; Ev (GetConnectedMediaType ptr) (inr hdr)])).
Proof.
  intros Hvi Hrd Ho Hi. split.
  - intros Hsg Hc. unfold prepare_preview_graph.
    step. rewrite (has_filter_Some _ _ _ Hvi), (has_filter_Some _ _ _ Hrd),
      (has_filter_None _ _ Hsg). cbn [negb].
    repeat step. step_invoke Hc. reflexivity.
  - intros sg sgi sgo ptr cb hdr Hsg Hcls Hsgi Hsgo e1 e2 Hc1 Hc2 Hm.
    unfold prepare_preview_graph.
    step. rewrite (has_filter_Some _ _ _ Hvi), (has_filter_Some _ _ _ Hrd),
      (has_filter_Some _ _ _ Hsg). cbn [negb].
    repeat step. step_invoke Hc1. repeat step. step_invoke Hc2. repeat step.
    erewrite bind_Ok.
    2:{ eapply with_filter_run; [exact Hsg|].
        unfold initialize_after_connection, get_resolution.
        step. rewrite Hcls. repeat step.
        erewrite bind_Ok.
        2:{ apply invoke_inr. exact Hm. }
        reflexivity. }
    cbv beta. unfold modify. rewrite <- ?app_assoc. reflexivity.
Qed.

End Preview.

(** The theorem at work on the sample machine: the first camera and a null
    render, without and with a sample grabber. *)
Lemma prepare_preview_graph_topology_witness :
  prepare_preview_graph sample_native (fst graph_preview) (snd graph_preview)
  = (Ok tt, set_is_recording false (fst graph_preview),
     snd graph_preview ++ [Ev (Connect (Some 11%N) 21%N) (inr tt)])
  /\
  let sg := {| instance := 30%N; Name := "Sample Grabber";
               out_pins := [32%N]; in_pins := [31%N];
               subclass := SampleGrabber 30%N
                             (Some (SampleGrabberCallback_new 7%N)) |} in
  prepare_preview_graph sample_native (fst graph_grabber) (snd graph_grabber)
  = (Ok tt,
     set_is_recording false
       (set_filters
          (<[sample_grabber :=
               set_subclass
                 (SampleGrabber 30%N
                    (Some (set_image_resolution (640, 480)
                             (SampleGrabberCallback_new 7%N)))) sg]>
             (filters (fst graph_grabber))) (fst graph_grabber)),
     snd graph_grabber
       ++ [Ev (Connect (Some 11%N) 31%N) (inr tt);
           Ev (Connect (Some 32%N) 21%N) (inr tt);
           Ev (GetConnectedMediaType 30%N)
              (inr {| biWidth := 640; biHeight := 480 |})]).
Proof.
  split.
  - eapply (proj1 (prepare_preview_graph_topology sample_native
                     (fst graph_preview) (snd graph_preview) _ _ 11%N 21%N
                     eq_refl eq_refl eq_refl eq_refl));
      reflexivity.
  - intros sg.
    eapply (proj2 (prepare_preview_graph_topology sample_native
                     (fst graph_grabber) (snd graph_grabber) _ _ 11%N 21%N
                     eq_refl eq_refl eq_refl eq_refl)
              sg 31%N 32%N 30%N (SampleGrabberCallback_new 7%N)
              {| biWidth := 640; biHeight := 480 |});
      reflexivity.
Defined.

(** ** The capture and preview pins *)

Section Pins.

Variable native : Native.

(** [find_pin] never raises: it answers with the pin, or with [None] when
    the framework refused. *)
Lemma find_pin_run {St} (self : Filter) d c t u (s : St) tr :
  let q := FindPin (instance self) d c t u 0 in
  find_pin native self d c t u s tr =
    (Ok (match native tr _ q with inr p => Some p | inl _ => None end),
     s, tr ++ [Ev q (native tr _ q)]).
Proof.
  intros q. unfold find_pin, try_except_COMError, bind, invoke. fold q.
  destruct (native tr IPIN q); reflexivity.
Qed.

(** C2. [__get_capture_and_preview_pins] asks the video input for a preview
    pin, then for a capture pin.  When the framework finds both, they are
    returned as they are and nothing else is done.  When one of them is not
    found, a smart tee is added ([__add_filter]), the pin that was found (the
    capture pin first) is connected to the first input of the tee, and the
    tee's two outputs are returned: the first as the capture pin, the second
    as the preview pin.  The result is the pair (preview pin, capture
    pin). *)
Theorem get_capture_and_preview_pins_topology (g : FilterGraph)
    (tr : list event) (vi : Filter) :
  filters g !! video_input = Some vi ->
  let find cat := FindPin (instance vi) PIN_OUT (Some cat) None true 0 in
  let rp := native tr _ (find PinCategory_Preview) in
  let tr1 := tr ++ [Ev (find PinCategory_Preview) rp] in
  let rc := native tr1 _ (find PinCategory_Capture) in
  let tr2 := tr ++ [Ev (find PinCategory_Preview) rp;
                    Ev (find PinCategory_Capture) rc] in
  (forall p c : IPIN,
     rp = inr p -> rc = inr c ->
     __get_capture_and_preview_pins native g tr = (Ok (p, c), g, tr2))
  /\
  (forall (g3 : FilterGraph) (tr3 : list event) (tee : Filter)
          (i c p : IPIN),
     (exists hr, rp = inl hr) \/ (exists hr, rc = inl hr) ->
     __add_filter native smart_tee id_None g tr2 = (Ok tt, g3, tr3) ->
     filters g3 !! smart_tee = Some tee ->
     in_pins tee !! 0%nat = Some i ->
     out_pins tee = [c; p] ->
     let available :=
       match rc, rp with
       | inr c0, _ => Some c0
       | inl _, inr p0 => Some p0
       | inl _, inl _ => None
       end in
     native tr3 _ (Connect available i) = inr tt ->
     __get_capture_and_preview_pins native g tr =
       (Ok (p, c), g3, tr3 ++ [Ev (Connect available i) (inr tt)])).
Proof.
  intros Hvi find rp tr1 rc tr2.
  assert (Hr :
    __get_capture_and_preview_pins native g tr =
    (match (match rp with inr p => Some p | inl _ => None end),
           (match rc with inr p => Some p | inl _ => None end) with
     | Some preview_pin, Some capture_pin => ret (preview_pin, capture_pin)
     | preview_pin, capture_pin =>
         __add_filter native smart_tee id_None ;;;
         tee <- filter_at smart_tee ;;
         i <- lift (get_in tee 0) ;;
         invoke native (Connect (match capture_pin with
                                 | Some _ => capture_pin
                                 | None => preview_pin
                                 end) i) ;;;
         pins <- unpack2 (out_pins tee) ;;
         ret (snd pins, fst pins)
     end) g tr2).
  { unfold __get_capture_and_preview_pins.
    step. erewrite bind_Ok by apply find_pin_run. cbv beta.
    step. erewrite bind_Ok by apply find_pin_run. cbv beta.
    subst tr2 rc tr1 rp find. cbv beta.
    rewrite <- app_assoc. cbn [app].
    destruct (native tr IPIN _) as [hp|p0];
      destruct (native _ IPIN _) as [hc|c0]; reflexivity. }
  clearbody rc. clearbody tr1. clearbody rp.
  split.
  - intros p c Hp Hc. rewrite Hr, Hp, Hc. reflexivity.
  - intros g3 tr3 tee i c p Hmiss Hadd Htee Hi Hout available Hconn.
    rewrite Hr.
    assert (Hbody :
      (__add_filter native smart_tee id_None ;;;
       tee <- filter_at smart_tee ;;
       i <- lift (get_in tee 0) ;;
       invoke native (Connect available i) ;;;
       pins <- unpack2 (out_pins tee) ;;
       ret (snd pins, fst pins)) g tr2 =
      (Ok (p, c), g3, tr3 ++ [Ev (Connect available i) (inr tt)])).
    { erewrite bind_Ok by exact Hadd. cbv beta.
      step. unfold get_in. rewrite (py_index_0 _ _ Hi). step.
      erewrite bind_Ok by (apply invoke_inr; exact Hconn). cbv beta.
      rewrite Hout. reflexivity. }
    subst available.
    destruct rp as [hp|p0], rc as [hc|c0]; try exact Hbody.
    destruct Hmiss as [[? ?]|[? ?]]; discriminate.
Qed.

End Pins.

(** On the sample machine: the second camera has both pins; the first has a
    capture pin only and gets the smart tee. *)
Lemma get_capture_and_preview_pins_topology_witness :
  (let s := graph_recording 1 "out.avi" in
   let find cat := FindPin 12%N PIN_OUT (Some cat) None true 0 in
   __get_capture_and_preview_pins sample_native (fst s) (snd s) =
     (Ok (13%N, 14%N), fst s,
      snd s ++ [Ev (find PinCategory_Preview) (inr 13%N);
                Ev (find PinCategory_Capture) (inr 14%N)]))
  /\
  (let s := graph_recording 0 "out.avi" in
   let find cat := FindPin 10%N PIN_OUT (Some cat) None true 0 in
   let s3 := exec (__add_filter sample_native smart_tee id_None)
               (fst s, snd s ++ [Ev (find PinCategory_Preview) (inl E_FAIL);
                                 Ev (find PinCategory_Capture) (inr 11%N)]) in
   __get_capture_and_preview_pins sample_native (fst s) (snd s) =
     (Ok (43%N, 42%N), fst s3,
      snd s3 ++ [Ev (Connect (Some 11%N) 41%N) (inr tt)])).
Proof.
  split.
  - intros s find.
    apply (proj1 (get_capture_and_preview_pins_topology sample_native
                    (fst s) (snd s) _ eq_refl) 13%N 14%N); reflexivity.
  - intros s find s3.
    eapply (proj2 (get_capture_and_preview_pins_topology sample_native
                     (fst s) (snd s) _ eq_refl)
              (fst s3) (snd s3) _ 41%N 42%N 43%N).
    + left. exists E_FAIL. reflexivity.
    + reflexivity.
    + reflexivity.
    + reflexivity.
    + reflexivity.
    + reflexivity.
Defined.

(** ** The recording graph *)

Section Recording.

Variable native : Native.

(** Whatever [__add_filter] does, the graph is as before or has the new
    filter under its type. *)
Lemma add_filter_frame ft id g tr r g' tr' :
  __add_filter native ft id g tr = (r, g', tr') ->
  g' = g \/ exists flt, g' = set_filters (<[ft := flt]> (filters g)) g.
Proof.
  unfold __add_filter. step.
  destruct (has_filter ft g); cbn [negb assert].
  { rewrite (bind_Raise _ _ _ _ AssertionError g tr) by reflexivity.
    intros H; inversion H; auto. }
  step. intros H.
  apply bind_inv in H as [(e & Hb & _)|(flt & s1 & tr1 & Hb & H)].
  - pose proof (keeps_build_filter (St:=FilterGraph) native ft id g tr) as Hk.
    rewrite Hb in Hk. cbn in Hk. auto.
  - pose proof (keeps_build_filter (St:=FilterGraph) native ft id g tr) as Hk.
    rewrite Hb in Hk. cbn in Hk. subst s1.
    revert H. step. unfold invoke. intros H. inversion H; subst.
    right. eauto.
Qed.

(** Looking for the pins changes nothing in the graph but, possibly, the
    smart tee. *)
Lemma get_capture_and_preview_pins_frame g tr r g1 tr1 :
  __get_capture_and_preview_pins native g tr = (r, g1, tr1) ->
  recording_format g1 = recording_format g /\
  is_recording g1 = is_recording g /\
  forall k, k <> smart_tee -> filters g1 !! k = filters g !! k.
Proof.
  unfold __get_capture_and_preview_pins. intros H.
  apply bind_inv in H as [(e & H & _)|(vi & s1 & t1 & Hvi & H)].
  { apply (keeps_state_run _ _ _ _ _ _ (keeps_filter_at _)) in H as ->. auto. }
  apply (keeps_state_run _ _ _ _ _ _ (keeps_filter_at _)) in Hvi as ->.
  revert H. erewrite bind_Ok by apply find_pin_run. cbv beta.
  intros H.
  apply bind_inv in H as [(e & H & _)|(vi' & s1 & t2 & Hvi' & H)].
  { apply (keeps_state_run _ _ _ _ _ _ (keeps_filter_at _)) in H as ->. auto. }
  apply (keeps_state_run _ _ _ _ _ _ (keeps_filter_at _)) in Hvi' as ->.
  revert H. erewrite bind_Ok by apply find_pin_run. cbv beta.
  set (pp := match native t1 _ _ with inl _ => None | inr p => Some p end).
  set (cp := match native t2 _ _ with inl _ => None | inr p => Some p end).
  assert (Htee : forall avail r g1 tr1,
    (__add_filter native smart_tee id_None ;;;
     tee <- filter_at smart_tee ;;
     i <- lift (get_in tee 0) ;;
     invoke native (Connect avail i) ;;;
     pins <- unpack2 (out_pins tee) ;;
     ret (snd pins, fst pins)) g
      (t2 ++ [Ev (FindPin (instance vi') PIN_OUT (Some PinCategory_Capture)
                          None true 0)
                 (native t2 _ (FindPin (instance vi') PIN_OUT
                                 (Some PinCategory_Capture) None true 0))])
    = (r, g1, tr1) ->
    recording_format g1 = recording_format g /\
    is_recording g1 = is_recording g /\
    forall k, k <> smart_tee -> filters g1 !! k = filters g !! k).
  { clear. intros avail r g1 tr1 H.
    apply bind_inv in H as [(e & H & _)|([] & s1 & t3 & Hadd & H)].
    - apply add_filter_frame in H as [->|[flt ->]]; auto.
      cbn. repeat split. intros k Hk. now rewrite lookup_insert_ne.
    - assert (g1 = s1) as ->.
      { eapply keeps_state_run; [|exact H]. unfold filter_at. keeps. }
      apply add_filter_frame in Hadd as [->|[flt ->]]; auto.
      cbn. repeat split. intros k Hk. now rewrite lookup_insert_ne. }
  destruct pp as [p|], cp as [c|]; try (apply Htee).
  intros H. inversion H; subst. auto.
Qed.



End Recording.


(** ASF needs the audio input: without one, the capture pin is connected to
    the muxer and the look-up of the audio input then raises [KeyError];
    [is_recording] is not set. *)
Lemma prepare_recording_graph_ASF_without_audio (native : Native) g tr vi rd mux
    preview capture m1 g1 tr1 :
  filters g !! video_input = Some vi ->
  filters g !! render = Some rd ->
  filters g !! muxer = Some mux ->
  filters g !! audio_input = None ->
  recording_format g = Some ASF ->
  in_pins mux !! 1%nat = Some m1 ->
  __get_capture_and_preview_pins native g tr
    = (Ok (preview, capture), g1, tr1) ->
  native tr1 _ (Connect (Some capture) m1) = inr tt ->
  prepare_recording_graph native g tr
  = (Raise (KeyError audio_input), g1,
     tr1 ++ [Ev (Connect (Some capture) m1) (inr tt)]).
Proof.
  intros Hvi Hrd Hmux Hai Hasf Hm1 Hpins Hc1.
  destruct (get_capture_and_preview_pins_frame _ _ _ _ _ _ Hpins)
    as (Hfmt & _ & Hframe).
  assert (Hmux1 : filters g1 !! muxer = Some mux)
    by (rewrite Hframe; [exact Hmux | discriminate]).
  assert (Hai1 : filters g1 !! audio_input = None)
    by (rewrite Hframe; [exact Hai | discriminate]).
  unfold prepare_recording_graph. step.
  rewrite (has_filter_Some _ _ _ Hvi), (has_filter_Some _ _ _ Hrd),
    (has_filter_Some _ _ _ Hmux).
  repeat step. cbn [fst snd]. rewrite decide_True by congruence.
  repeat step. step_invoke Hc1. repeat step.
  unfold out_of.
  erewrite bind_Raise; [reflexivity|].
  erewrite bind_Raise; [reflexivity|].
  apply filter_at_missing, Hai1.
Qed.

(** A [Connect] that the framework refuses ends the preparation with its
    error; [is_recording] keeps its value. *)
Lemma prepare_preview_graph_Connect_fails (native : Native) g tr vi rd o i
    hr :
  filters g !! video_input = Some vi ->
  filters g !! render = Some rd ->
  filters g !! sample_grabber = None ->
  out_pins vi !! 0%nat = Some o ->
  in_pins rd !! 0%nat = Some i ->
  native tr _ (Connect (Some o) i) = inl hr ->
  prepare_preview_graph native g tr
  = (Raise (COMError hr), g, tr ++ [Ev (Connect (Some o) i) (inl hr)]).
Proof.
  intros Hvi Hrd Hsg Ho Hi Hc. unfold prepare_preview_graph. step.
  rewrite (has_filter_Some _ _ _ Hvi), (has_filter_Some _ _ _ Hrd),
    (has_filter_None _ _ Hsg). cbn [negb].
  repeat step.
  erewrite bind_Raise; [reflexivity|]. apply invoke_inl, Hc.
Qed.

(** ** Still-frame capture *)

(** C5. [FilterGraph.grab_frame]: without a sample grabber in the graph it
    returns [False] and nothing changes; with a sample grabber (holding its
    callback object) it returns [True] and the one change is that the
    callback's [keep_photo] is now [True].  The request is a flag, not a
    count: a second [grab_frame] right after leaves everything as it is. *)
Theorem grab_frame_requests_one_frame (g : FilterGraph) (tr : list event) :
  (filters g !! sample_grabber = None ->
   grab_frame g tr = (Ok false, g, tr))
  /\
  (forall (sg : Filter) (ptr : COMPTR) (cb : SampleGrabberCallback),
   filters g !! sample_grabber = Some sg ->
   subclass sg = SampleGrabber ptr (Some cb) ->
   let g' :=
     set_filters
       (<[sample_grabber :=
            set_subclass (SampleGrabber ptr (Some (set_keep_photo true cb)))
                         sg]> (filters g)) g in
   grab_frame g tr = (Ok true, g', tr) /\
   grab_frame g' tr = (Ok true, g', tr)).
Proof.
  assert (Hone : forall g sg ptr cb,
    filters g !! sample_grabber = Some sg ->
    subclass sg = SampleGrabber ptr (Some cb) ->
    grab_frame g tr =
    (Ok true,
     set_filters
       (<[sample_grabber :=
            set_subclass (SampleGrabber ptr (Some (set_keep_photo true cb)))
                         sg]> (filters g)) g, tr)).
  { clear g. intros g sg ptr cb Hsg Hcls. unfold grab_frame. step.
    rewrite (has_filter_Some _ _ _ Hsg).
    erewrite bind_Ok; [reflexivity|].
    eapply with_filter_run; [exact Hsg|].
    unfold callback_grab_frame. step. rewrite Hcls. reflexivity. }
  split.
  - intros Hsg. unfold grab_frame. step.
    rewrite (has_filter_None _ _ Hsg). reflexivity.
  - intros sg ptr cb Hsg Hcls g'. split; [apply Hone; assumption|].
    erewrite Hone; [|apply lookup_insert_eq|reflexivity].
    unfold g', set_filters, set_subclass, set_keep_photo. cbn.
    rewrite insert_insert_eq. reflexivity.
Qed.

Lemma grab_frame_requests_one_frame_witness :
  grab_frame (fst graph_preview) (snd graph_preview)
    = (Ok false, fst graph_preview, snd graph_preview)
  /\
  (let sg := {| instance := 30%N; Name := "Sample Grabber";
                out_pins := [32%N]; in_pins := [31%N];
                subclass := SampleGrabber 30%N
                              (Some (SampleGrabberCallback_new 7%N)) |} in
   let g' :=
     set_filters
       (<[sample_grabber :=
            set_subclass
              (SampleGrabber 30%N
                 (Some (set_keep_photo true (SampleGrabberCallback_new 7%N))))
              sg]> (filters (fst graph_grabber))) (fst graph_grabber) in
   grab_frame (fst graph_grabber) (snd graph_grabber)
     = (Ok true, g', snd graph_grabber) /\
   grab_frame g' (snd graph_grabber) = (Ok true, g', snd graph_grabber)).
Proof.
  split.
  - apply (proj1 (grab_frame_requests_one_frame (fst graph_preview)
                    (snd graph_preview))).
    reflexivity.
  - intros sg g'.
    apply (proj2 (grab_frame_requests_one_frame (fst graph_grabber)
                    (snd graph_grabber))
             sg 30%N (SampleGrabberCallback_new 7%N));
      reflexivity.
Defined.

(** A sample grabber that [add_sample_grabber] has added holds its callback
    object, with no frame requested yet. *)
Lemma add_sample_grabber_installs_callback native cb g tr g' tr' :
  add_sample_grabber native cb g tr = (Ok tt, g', tr') ->
  exists sg ptr,
    filters g' !! sample_grabber = Some sg /\
    subclass sg = SampleGrabber ptr (Some (SampleGrabberCallback_new cb)).
Proof.
  unfold add_sample_grabber. intros H.
  apply bind_inv in H as [(e & _ & ?)|([] & g1 & tr1 & Hadd & H)];
    [discriminate|].
  apply add_filter_Ok in Hadd as (Hfree & flt & tr0 & Hb & -> & ->).
  cbn [build_filter] in Hb.
  apply SampleGrabber_new_fields in Hb as [ptr Hcls].
  apply bind_inv in H as [(e & _ & ?)|([] & g2 & tr2 & Hset & H)];
    [discriminate|].
  assert (g' = g2) as ->.
  { eapply keeps_state_run; [|exact H].
    apply keeps_bind; [apply keeps_filter_at|].
    intros f. unfold set_media_type.
    destruct (subclass f); keeps. }
  unfold with_filter in Hset.
  erewrite bind_Ok in Hset
    by (apply filter_at_run; cbn; apply lookup_insert_eq).
  unfold zoom, set_callback in Hset.
  rewrite bind_Ok
    with (a := flt) (s' := flt)
         (tr' := tr0 ++ [Ev (AddFilter (instance flt) (Name flt)) (inr tt)])
    in Hset by reflexivity.
  rewrite Hcls in Hset.
  unfold bind, modify, invoke in Hset.
  destruct (native _ _ _) as [hr|[]]; inversion Hset; subst.
  eexists _, ptr. split; [apply lookup_insert_eq|reflexivity].
Qed.

(** ** Which native errors reach the caller *)

Section Errors.

Variable native : Native.
Variable os_path_splitext : string -> string * string.
Variable str_upper : string -> string.
Variable P : event -> Prop.

Lemma surfaces_reload_pins_loop pins :
  surfaces_except P (reload_pins_loop native pins).
Proof.
  induction pins as [|pin pins IH]; cbn [reload_pins_loop]; surfaces.
  all: exact IH.
Qed.

Lemma surfaces_reload_pins : surfaces_except P (reload_pins native).
Proof. unfold reload_pins. surfaces. apply surfaces_reload_pins_loop. Qed.

Lemma surfaces_Filter_new {St} inst name cls rest :
  surfaces_except P rest ->
  surfaces_except P (@Filter_new native St inst name cls rest).
Proof.
  intros Hrest. unfold Filter_new. apply surfaces_construct.
  apply surfaces_bind; [apply surfaces_reload_pins | intros _; exact Hrest].
Qed.

Lemma surfaces_get_moniker_name {St} m :
  surfaces_except P (@get_moniker_name native St m).
Proof. unfold get_moniker_name. surfaces. Qed.



Lemma surfaces_get_filter_by_index {St} category index :
  surfaces_except P (@get_filter_by_index native St category index).
Proof.
  unfold get_filter_by_index.
  apply surfaces_bind; [apply surfaces_invoke|].
  intros [enum|]; [|apply surfaces_raise].
  destruct (get_filter_by_index_loop enum 0 index); [|apply surfaces_raise].
  apply surfaces_bind; [apply surfaces_invoke|]. intros obj.
  apply surfaces_bind; [apply surfaces_invoke|]. intros flt.
  apply surfaces_bind; [apply surfaces_get_moniker_name|]. intros name.
  apply surfaces_ret.
Qed.

Lemma surfaces_device_filter {St} category cls id :
  surfaces_except P (@device_filter native St category cls id).
Proof.
  unfold device_filter. destruct id; try apply surfaces_raise.
  apply surfaces_bind; [apply surfaces_get_filter_by_index|]. intros args.
  apply surfaces_Filter_new, surfaces_ret.
Qed.

Lemma surfaces_SampleGrabber_new {St} :
  surfaces_except P (@SampleGrabber_new native St).
Proof.
  unfold SampleGrabber_new.
  apply surfaces_bind; [apply surfaces_invoke|]. intros inst.
  apply surfaces_Filter_new. surfaces.
Qed.

(** Every filter but the render is built without an [except]. *)
Lemma surfaces_build_filter {St} ft id :
  ft <> render -> surfaces_except P (@build_filter native St ft id).
Proof.
  intros Hft. destruct ft; cbn [build_filter]; try congruence;
    try apply surfaces_device_filter;
    try apply surfaces_SampleGrabber_new;
    try apply surfaces_raise.
  - destruct id; try apply surfaces_raise.
    apply surfaces_Filter_new, surfaces_ret.
  - apply surfaces_bind; [apply surfaces_invoke|]. intros inst.
    apply surfaces_Filter_new, surfaces_ret.
Qed.
















End Errors.

Section Guards.

Variable native : Native.
Variable os_path_splitext : string -> string * string.
Variable str_upper : string -> string.








End Guards.




(** The same at the level of the graph: preparing the recording graph on
    the first camera returns normally although [FindPin] failed. *)
Lemma prepare_recording_graph_swallows_COMError :
  ~ surfaces_native_errors
      (run_operation sample_native ntpath_splitext upper
                     op_prepare_recording_graph).
Proof.
  intros H.
  set (s := graph_recording 0 "out.avi").
  destruct (run_operation sample_native ntpath_splitext upper
              op_prepare_recording_graph (fst s) (snd s))
    as [[r g'] tr'] eqn:Hrun.
  assert (Hr : r = Ok tt).
  { change r with (fst (fst (r, g', tr'))). rewrite <- Hrun.
    vm_compute. reflexivity. }
  assert (He : drop (length (snd s)) tr' !! 0%nat
               = Some (Ev (FindPin 10%N PIN_OUT (Some PinCategory_Preview)
                                   None true 0) (inl E_FAIL))).
  { change tr' with (snd (r, g', tr')). rewrite <- Hrun.
    vm_compute. reflexivity. }
  destruct (H _ _ _ _ _ Hrun) as (evs & Hevs & Hfail).
  rewrite Hevs, drop_app_length in He.
  destruct (Hfail _ E_FAIL (list_elem_of_lookup_2 _ _ _ He) eq_refl)
    as [[]|Habs].
  subst r. discriminate Habs.
Qed.

(** ** The file writer and the muxer *)

Section Writer.

Variable native : Native.
Variable os_path_splitext : string -> string * string.
Variable str_upper : string -> string.

Lemma writes_in_format_run filename g tr fmt subtype :
  (if String.eqb (str_upper (snd (os_path_splitext filename))) ".WMV"
   then ASF else AVI) = fmt ->
  (if String.eqb (str_upper (snd (os_path_splitext filename))) ".WMV"
   then MediaSubtypes_ASF else MediaSubtypes_AVI) = subtype ->
  writes_in_format native os_path_splitext str_upper filename g tr fmt subtype.
Proof.
  intros Hfmt Hsub. unfold writes_in_format, add_file_writer_and_muxer.
  cbv zeta. rewrite Hfmt, Hsub.
  set (q := SetOutputFileName subtype filename).
  set (g0 := set_recording_format (Some fmt) g).
  split.
  - intros r g' tr'. erewrite bind_Ok by reflexivity. fold g0. intros H.
    apply bind_inv in H as [(e & H & _)|(out & g1 & tr1 & Hq & H)].
    + unfold invoke in H. inversion H; subst. split; [reflexivity|].
      exists []. reflexivity.
    + unfold invoke in Hq. inversion Hq; subst g1 tr1. clear Hq.
      apply bind_inv in H as [(e & H & _)|(flt & g2 & tr2 & Hb & H)].
      * pose proof (keeps_state_run _ _ _ _ _ _
                      (keeps_build_filter native _ _) H) as ->.
        split; [reflexivity|].
        destruct (surfaces_grows (fun _ => False) _ _ _ _ _ _
                    (surfaces_build_filter native _ muxer _
                       ltac:(discriminate)) H) as [evs ->].
        exists evs. now rewrite <- app_assoc.
      * pose proof (keeps_state_run _ _ _ _ _ _
                      (keeps_build_filter native _ _) Hb) as ->.
        unfold modify in H. inversion H; subst. split; [reflexivity|].
        destruct (surfaces_grows (fun _ => False) _ _ _ _ _ _
                    (surfaces_build_filter native _ muxer _
                       ltac:(discriminate)) Hb) as [evs ->].
        exists evs. now rewrite <- app_assoc.
  - intros mux sink flt tr2 Hq Hnew.
    destruct (Filter_new_plain _ _ _ _ _ _ _ _ _ Hnew) as (Hinst & _ & Hcls).
    split; [|split; assumption].
    erewrite bind_Ok by reflexivity. fold g0.
    erewrite bind_Ok by (apply invoke_inr; exact Hq). cbv beta.
    cbn [fst build_filter]. erewrite bind_Ok by exact Hnew. reflexivity.
Qed.

(** C6. [add_file_writer_and_muxer] takes the format from the extension of
    the file name, in upper case: [.WMV] gives the subtype ASF and
    [recording_format = RecordingFormat.ASF]; anything else gives AVI and
    [RecordingFormat.AVI].  The muxer the framework answers with is wrapped
    and stored under [FilterType.muxer]. *)
Theorem add_file_writer_and_muxer_format (filename : string)
    (g : FilterGraph) (tr : list event) :
  let extension := str_upper (snd (os_path_splitext filename)) in
  (extension = ".WMV"%string ->
   writes_in_format native os_path_splitext str_upper filename g tr
                    ASF MediaSubtypes_ASF)
  /\
  (extension <> ".WMV"%string ->
   writes_in_format native os_path_splitext str_upper filename g tr
                    AVI MediaSubtypes_AVI).
Proof.
  intros extension. split; intros Hext; apply writes_in_format_run.
  - fold extension. now rewrite Hext.
  - fold extension. now rewrite Hext.
  - fold extension. apply String.eqb_neq in Hext. now rewrite Hext.
  - fold extension. apply String.eqb_neq in Hext. now rewrite Hext.
Qed.

End Writer.

(** With [ntpath.splitext] and the ASCII [upper], on the sample machine:
    [out.wmv] is written as ASF; [clip], which has no extension, and
    [.wmv], whose leading dot starts the name, as AVI. *)
Lemma add_file_writer_and_muxer_format_witness :
  writes_in_format sample_native ntpath_splitext upper "out.wmv"
                   (fst graph_preview) (snd graph_preview)
                   ASF MediaSubtypes_ASF
  /\
  writes_in_format sample_native ntpath_splitext upper "clip"
                   (fst graph_preview) (snd graph_preview)
                   AVI MediaSubtypes_AVI
  /\
  writes_in_format sample_native ntpath_splitext upper ".wmv"
                   (fst graph_preview) (snd graph_preview)
                   AVI MediaSubtypes_AVI.
Proof.
  split; [|split].
  - apply (proj1 (add_file_writer_and_muxer_format sample_native
                    ntpath_splitext upper "out.wmv"
                    (fst graph_preview) (snd graph_preview))).
    reflexivity.
  - apply (proj2 (add_file_writer_and_muxer_format sample_native
                    ntpath_splitext upper "clip"
                    (fst graph_preview) (snd graph_preview))).
    vm_compute. discriminate.
  - apply (proj2 (add_file_writer_and_muxer_format sample_native
                    ntpath_splitext upper ".wmv"
                    (fst graph_preview) (snd graph_preview))).
    vm_compute. discriminate.
Defined.

(** What the sample machine then holds: the ASF writer, with its two input
    pins, under [FilterType.muxer]. *)
Example add_file_writer_and_muxer_wmv :
  let s := exec (add_file_writer_and_muxer sample_native ntpath_splitext
                                           upper "C:\videos\out.WmV")
                graph_preview in
  recording_format (fst s) = Some ASF /\
  filters (fst s) !! muxer
    = Some {| instance := 100%N; Name := "Muxer"; out_pins := [];
              in_pins := [101%N; 102%N]; subclass := Muxer |}.
Proof. split; reflexivity. Qed.

(** ** Enumerating the devices *)

Section Enumeration.

Variable native : Native.

Lemma get_moniker_name_run {St} moniker storage bag name (s : St) tr :
  native tr _ (BindToStorage moniker) = inr storage ->
  native (tr ++ [Ev (BindToStorage moniker) (inr storage)]) _
         (QueryInterface storage IID_IPropertyBag) = inr bag ->
  native (tr ++ [Ev (BindToStorage moniker) (inr storage);
                 Ev (QueryInterface storage IID_IPropertyBag) (inr bag)]) _
         (PropertyBagRead bag "FriendlyName") = inr name ->
  get_moniker_name native moniker s tr =
    (Ok name, s,
     tr ++ [Ev (BindToStorage moniker) (inr storage);
            Ev (QueryInterface storage IID_IPropertyBag) (inr bag);
            Ev (PropertyBagRead bag "FriendlyName") (inr name)]).
Proof.
  intros H1 H2 H3. unfold get_moniker_name.
  step_invoke H1. step_invoke H2.
  erewrite invoke_inr by exact H3. now rewrite <- app_assoc.
Qed.

(** The loop appends the names to what it has, in the order of the
    enumerator. *)
Lemma get_available_filters_loop_run {St} tr enum names tr' :
  friendly_names native tr enum names tr' ->
  forall (acc : list string) (s : St),
    get_available_filters_loop native enum acc s tr
    = (Ok (acc ++ names), s, tr').
Proof.
  induction 1 as [tr|tr moniker monikers storage bag name names tr'
                     H1 H2 H3 Hrest IH]; intros acc s.
  - cbn. now rewrite app_nil_r.
  - cbn [get_available_filters_loop].
    erewrite bind_Ok by (apply get_moniker_name_run; eassumption).
    cbv beta. rewrite IH. now rewrite <- app_assoc.
Qed.

(** When the answers about a moniker do not depend on what was asked
    before, the names read are simply those of the monikers. *)
Lemma friendly_names_map (storage bag : IMONIKER -> COMPTR)
    (name : IMONIKER -> string) monikers :
  (forall tr m, m ∈ monikers ->
     native tr _ (BindToStorage m) = inr (storage m) /\
     native tr _ (QueryInterface (storage m) IID_IPropertyBag) = inr (bag m) /\
     native tr _ (PropertyBagRead (bag m) "FriendlyName") = inr (name m)) ->
  forall tr, exists tr',
    friendly_names native tr monikers (name <$> monikers) tr'.
Proof.
  induction monikers as [|m monikers IH]; intros Hn tr.
  - exists tr. constructor.
  - destruct (IH (fun tr m Hm => Hn tr m (list_elem_of_further _ _ _ Hm))
                 (tr ++ [Ev (BindToStorage m) (inr (storage m));
                         Ev (QueryInterface (storage m) IID_IPropertyBag)
                            (inr (bag m));
                         Ev (PropertyBagRead (bag m) "FriendlyName")
                            (inr (name m))])) as [tr' Hrest].
    exists tr'. cbn [fmap list_fmap].
    eapply friendly_cons; [apply Hn, list_elem_of_here ..|exact Hrest].
Qed.

(** C7. [get_available_filters], for any category: on a NULL enumerator, and
    on an enumerator without entries, the result is the empty list; on an
    enumerator that delivers [monikers], the result is the list of their
    [FriendlyName]s, one for each moniker and in the order of the
    enumerator.  *)
Theorem get_available_filters_names (category : GUID) (g : FilterGraph)
    (tr : list event) :
  let q := CreateClassEnumerator category in
  (native tr _ q = inr None ->
   get_available_filters native category g tr
   = (Ok [], g, tr ++ [Ev q (inr None)]))
  /\
  (native tr _ q = inr (Some []) ->
   get_available_filters native category g tr
   = (Ok [], g, tr ++ [Ev q (inr (Some []))]))
  /\
  (forall monikers names tr',
   native tr _ q = inr (Some monikers) ->
   friendly_names native (tr ++ [Ev q (inr (Some monikers))])
                  monikers names tr' ->
   get_available_filters native category g tr = (Ok names, g, tr') /\
   length names = length monikers)
  /\
  (forall monikers (storage bag : IMONIKER -> COMPTR)
          (name : IMONIKER -> string),
   native tr _ q = inr (Some monikers) ->
   (forall tr m, m ∈ monikers ->
      native tr _ (BindToStorage m) = inr (storage m) /\
      native tr _ (QueryInterface (storage m) IID_IPropertyBag)
        = inr (bag m) /\
      native tr _ (PropertyBagRead (bag m) "FriendlyName")
        = inr (name m)) ->
   exists tr',
     get_available_filters native category g tr
     = (Ok (name <$> monikers), g, tr')).
Proof.
  intros q.
  assert (Hrun : forall monikers names tr',
    native tr _ q = inr (Some monikers) ->
    friendly_names native (tr ++ [Ev q (inr (Some monikers))])
                   monikers names tr' ->
    get_available_filters native category g tr = (Ok names, g, tr')).
  { intros monikers names tr' Hq Hnames. unfold get_available_filters.
    fold q. erewrite bind_Ok by (apply invoke_inr; exact Hq).
    cbv beta iota.
    exact (get_available_filters_loop_run _ _ _ _ Hnames [] g). }
  split; [|split; [|split]].
  - intros Hq. unfold get_available_filters. fold q.
    erewrite bind_Ok by (apply invoke_inr; exact Hq). reflexivity.
  - intros Hq. apply (Hrun [] [] _ Hq). constructor.
  - intros monikers names tr' Hq Hnames.
    split; [exact (Hrun _ _ _ Hq Hnames)|].
    clear -Hnames. induction Hnames; cbn; congruence.
  - intros monikers storage bag name Hq Hn.
    destruct (friendly_names_map storage bag name monikers Hn
                (tr ++ [Ev q (inr (Some monikers))])) as [tr' Hnames].
    exists tr'. exact (Hrun _ _ _ Hq Hnames).
Qed.

End Enumeration.

(** The four device lists are this method at the four categories. *)
Lemma get_devices_are_get_available_filters native :
  get_input_devices native
    = get_available_filters native DeviceCategories_VideoInputDevice /\
  get_audio_devices native
    = get_available_filters native DeviceCategories_AudioInputDevice /\
  get_video_compressors native
    = get_available_filters native DeviceCategories_VideoCompressor /\
  get_audio_compressors native
    = get_available_filters native DeviceCategories_AudioCompressor.
Proof. repeat split. Qed.

(** On the sample machine: the two cameras; a category without an
    enumerator; a category whose enumerator is empty. *)
Lemma get_available_filters_names_witness :
  (exists tr',
     get_available_filters sample_native DeviceCategories_VideoInputDevice
                           FilterGraph_init []
     = (Ok ["Integrated Camera"; "USB Camera"], FilterGraph_init, tr'))
  /\
  (get_available_filters sample_native DeviceCategories_AudioInputDevice
                         FilterGraph_init []
   = (Ok ["Microphone"], FilterGraph_init,
      [Ev (CreateClassEnumerator DeviceCategories_AudioInputDevice)
          (inr (Some [3%N]));
       Ev (BindToStorage 3%N) (inr 3%N);
       Ev (QueryInterface 3%N IID_IPropertyBag) (inr 3%N);
       Ev (PropertyBagRead 3%N "FriendlyName") (inr "Microphone")])
   /\ length ["Microphone"] = length [3%N])
  /\
  get_available_filters sample_native (GUID_of "{00000000}")
                        FilterGraph_init []
  = (Ok [], FilterGraph_init,
     [] ++ [Ev (CreateClassEnumerator (GUID_of "{00000000}")) (inr None)])
  /\
  get_available_filters sample_native MediaTypes_Video FilterGraph_init []
  = (Ok [], FilterGraph_init,
     [] ++ [Ev (CreateClassEnumerator MediaTypes_Video) (inr (Some []))]).
Proof.
  split; [|split; [|split]].
  - apply (proj2 (proj2 (proj2 (get_available_filters_names sample_native
             DeviceCategories_VideoInputDevice FilterGraph_init [])))
             [1%N; 2%N] (fun m => m) (fun m => m) sample_name eq_refl).
    intros tr m Hm. repeat split.
  - apply (proj1 (proj2 (proj2 (get_available_filters_names sample_native
             DeviceCategories_AudioInputDevice FilterGraph_init [])))
             [3%N] ["Microphone"] _ eq_refl).
    eapply friendly_cons; [reflexivity..|]. apply friendly_nil.
  - apply (proj1 (get_available_filters_names sample_native
                    (GUID_of "{00000000}") FilterGraph_init [])).
    reflexivity.
  - apply (proj1 (proj2 (get_available_filters_names sample_native
                           MediaTypes_Video FilterGraph_init []))).
    reflexivity.
Defined.

(** ** One filter for each type *)

(** A list of pairs without a repeated key has at most one pair for each
    key. *)
Lemma at_most_one_key {K V} `{EqDecision K} (l : list (K * V)) (k : K) :
  NoDup (l.*1) ->
  (length (filter (fun kv => kv.1 = k) l) <= 1)%nat.
Proof.
  induction l as [|[k' v] l IH]; intros Hnd; [cbn; lia|].
  rewrite fmap_cons in Hnd. apply NoDup_cons in Hnd as [Hk' Hnd].
  specialize (IH Hnd). rewrite filter_cons.
  destruct (decide ((k', v).1 = k)) as [Heq|Hne]; [|exact IH].
  cbn in Heq. subst k'.
  assert (filter (fun kv : K * V => kv.1 = k) l = []) as ->; [|cbn; lia].
  destruct (filter (fun kv : K * V => kv.1 = k) l) as [|[k2 v2] rest] eqn:Hf;
    [reflexivity|].
  assert (Hin : (k2, v2) ∈ filter (fun kv : K * V => kv.1 = k) l)
    by (rewrite Hf; apply list_elem_of_here).
  apply list_elem_of_filter in Hin as [Hk2 Hin]. cbn in Hk2. subst k2.
  exfalso. apply Hk'. apply list_elem_of_fmap. exists (k, v2). auto.
Qed.

Section OnePerType.

Variable native : Native.
Variable os_path_splitext : string -> string * string.
Variable str_upper : string -> string.

(** C9. [filters] holds at most one filter for each [FilterType].  An add
    operation that goes through [__add_filter] for a type that is already in
    the graph fails on the assertion, before the framework is called, and
    the graph is what it was: the filter that was there stays.  When
    [__add_filter] returns, the type was free and the new filter is the one
    change to [filters]. *)
Theorem add_filter_at_most_one_per_type :
  (forall (g : FilterGraph) (ft : FilterType),
     (length (filter (fun kv => kv.1 = ft) (map_to_list (filters g))) <= 1)%nat)
  /\
  (forall (op : operation) (ft : FilterType) (g : FilterGraph) tr,
     added_type op = Some ft ->
     is_Some (filters g !! ft) ->
     run_operation native os_path_splitext str_upper op g tr
     = (Raise AssertionError, g, tr))
  /\
  (forall (ft : FilterType) (id : filter_id) (g : FilterGraph) tr,
     is_Some (filters g !! ft) ->
     __add_filter native ft id g tr = (Raise AssertionError, g, tr))
  /\
  (forall (ft : FilterType) (id : filter_id) (g g' : FilterGraph) tr tr',
     __add_filter native ft id g tr = (Ok tt, g', tr') ->
     filters g !! ft = None /\
     exists flt, filters g' = <[ft := flt]> (filters g)).
Proof.
  split; [|split; [|split]].
  - intros g ft. apply at_most_one_key, NoDup_fst_map_to_list.
  - intros op ft g tr Hop Hin.
    destruct op; cbn in Hop; inversion Hop; subst ft;
      cbn [run_operation];
      try (apply add_filter_present; exact Hin).
    unfold add_sample_grabber.
    apply bind_Raise, add_filter_present, Hin.
  - intros ft id g tr Hin. apply add_filter_present, Hin.
  - intros ft id g g' tr tr' H.
    apply add_filter_Ok in H as (Hfree & flt & tr1 & _ & -> & _).
    split; [exact Hfree|]. exists flt. reflexivity.
Qed.

End OnePerType.

(** On the sample machine, with the first camera and a null render in the
    graph: a second video input, and another render, are refused. *)
Lemma add_filter_at_most_one_per_type_witness :
  run_operation sample_native ntpath_splitext upper
                (op_add_video_input_device 1)
                (fst graph_preview) (snd graph_preview)
  = (Raise AssertionError, fst graph_preview, snd graph_preview)
  /\
  run_operation sample_native ntpath_splitext upper op_add_default_render
                (fst graph_preview) (snd graph_preview)
  = (Raise AssertionError, fst graph_preview, snd graph_preview)
  /\
  __add_filter sample_native render (id_str CLSID_VideoMixingRenderer)
               (fst graph_preview) (snd graph_preview)
  = (Raise AssertionError, fst graph_preview, snd graph_preview)
  /\
  (filters FilterGraph_init !! video_input = None /\
   exists flt,
     filters (fst (exec (__add_filter sample_native video_input (id_int 0))
                        graph0))
     = <[video_input := flt]> (filters FilterGraph_init)).
Proof.
  pose proof (add_filter_at_most_one_per_type sample_native ntpath_splitext
                upper) as (_ & Hop & Hadd & Hok).
  split; [|split; [|split]].
  - apply (Hop _ video_input); [reflexivity|]. eexists. reflexivity.
  - apply (Hop _ render); [reflexivity|]. eexists. reflexivity.
  - apply Hadd. eexists. reflexivity.
  - apply (Hok video_input (id_int 0) FilterGraph_init _ []
               (snd (exec (__add_filter sample_native video_input (id_int 0))
                          graph0))).
    reflexivity.
Defined.

(** ** The frame callback *)

Lemma as_array_Ok (pBuffer : NPBUFFER) (h w : Z) :
  0 <= h -> 0 <= w ->
  as_array pBuffer (h, w, 3)
  = Ok ((fun i =>
           (fun j =>
              (fun k => pBuffer ((i * Z.to_nat w + j) * 3 + k)%nat)
              <$> seq 0 3)
           <$> seq 0 (Z.to_nat w))
        <$> seq 0 (Z.to_nat h)).
Proof.
  intros Hh Hw. unfold as_array.
  replace (h <? 0) with false by (symmetry; apply Z.ltb_ge; lia).
  replace (w <? 0) with false by (symmetry; apply Z.ltb_ge; lia).
  reflexivity.
Qed.


Section OneShot.

Variable U : Type.
Variable user_callback : Callable -> Mat -> M (U * SampleGrabberCallback) unit.

Lemma BufferCB_discards pBuffer BufferLen u self tr :
  keep_photo self = false ->
  BufferCB U user_callback pBuffer BufferLen (u, self) tr
  = (Ok 0, (u, self), tr).
Proof.
  intros Hk. unfold BufferCB. step. cbn [snd]. rewrite Hk. reflexivity.
Qed.

Lemma BufferCB_fires pBuffer BufferLen u self tr w h :
  keep_photo self = true ->
  image_resolution self = (w, h) ->
  0 <= w -> 0 <= h ->
  BufferCB U user_callback pBuffer BufferLen (u, self) tr
  = match user_callback (callback self) (delivered_image pBuffer w h)
            (u, set_keep_photo false self) tr with
    | (Ok _, st, tr') => (Ok 0, st, tr')
    | (Raise e, st, tr') => (Raise e, st, tr')
    end.
Proof.
  intros Hk Hres Hw Hh. unfold BufferCB. step. cbn [snd]. rewrite Hk.
  erewrite bind_Ok by reflexivity. cbv beta.
  rewrite Hres. cbn [fst snd]. rewrite (as_array_Ok _ _ _ Hh Hw).
  erewrite bind_Ok by reflexivity. cbv beta.
  unfold bind, ret. cbn [fst snd]. fold (delivered_image pBuffer w h).
  destruct (user_callback _ _ _ _) as [[[[]|e] st] tr']; reflexivity.
Qed.

(** One request, one frame: when the callable leaves [keep_photo] alone,
    the buffer that follows a delivered one is discarded. *)
Lemma BufferCB_then_discards pBuffer BufferLen pBuffer' BufferLen'
    u self tr w h r st tr' :
  (forall cb img u0 self0 tr0 r0 st0 tr0',
     user_callback cb img (u0, self0) tr0 = (r0, st0, tr0') ->
     keep_photo (snd st0) = keep_photo self0) ->
  keep_photo self = true ->
  image_resolution self = (w, h) ->
  0 <= w -> 0 <= h ->
  BufferCB U user_callback pBuffer BufferLen (u, self) tr = (r, st, tr') ->
  BufferCB U user_callback pBuffer' BufferLen' st tr' = (Ok 0, st, tr').
Proof.
  intros Hcb Hk Hres Hw Hh Hrun.
  rewrite (BufferCB_fires _ _ _ _ _ _ _ Hk Hres Hw Hh) in Hrun.
  destruct (user_callback _ _ _ _) as [[r1 st1] tr1] eqn:Hu.
  apply Hcb in Hu. cbn in Hu.
  assert (st1 = st /\ tr1 = tr') as [-> ->]
    by (destruct r1; inversion Hrun; auto).
  destruct st as [u1 self1]. apply BufferCB_discards. exact Hu.
Qed.


End OneShot.


(** From the graph to the callback: after [FilterGraph.grab_frame] the
    callback object of the grabber has a frame requested; the buffer that
    arrives next is handed to the callable (the resolution is still
    [(0, 0)], so the image is empty), and the one after it is not. *)
Example grab_frame_then_buffers :
  let g := fst (exec grab_frame graph_grabber) in
  let frame := BufferCB (list Mat) keep_images sample_frame 6 in
  callback_of g = Some (set_keep_photo true (SampleGrabberCallback_new 7%N))
  /\
  exec (frame ;;; frame)
       (([], set_keep_photo true (SampleGrabberCallback_new 7%N)), [])
  = (([ [] ], SampleGrabberCallback_new 7%N), []).
Proof. split; reflexivity. Qed.

(** * Further properties of the module *)

(** ** Reloading the pins of a filter *)

Section ReloadPins.

Variable native : Native.

Lemma reload_pins_loop_partition (dir : IPIN -> Z) pins :
  (forall tr p, p ∈ pins -> native tr _ (QueryDirection p) = inr (dir p)) ->
  forall f tr, exists tr',
    reload_pins_loop native pins f tr
    = (Ok tt,
       set_in_pins (in_pins f ++ filter (fun p => dir p = 0) pins)
         (set_out_pins (out_pins f ++ filter (fun p => dir p <> 0) pins) f),
       tr').
Proof.
  induction pins as [|pin pins IH]; intros Hdir f tr.
  - exists tr. cbn. rewrite !app_nil_r. destruct f; reflexivity.
  - cbn [reload_pins_loop].
    erewrite bind_Ok
      by (apply invoke_inr, Hdir, list_elem_of_here).
    cbv beta. step. rewrite !filter_cons.
    assert (Hrest : forall tr p, p ∈ pins ->
              native tr _ (QueryDirection p) = inr (dir p))
      by (intros tr0 p Hp; apply Hdir, list_elem_of_further, Hp).
    destruct (Z.eqb_spec (dir pin) 0) as [H0|H0].
    + erewrite bind_Ok by reflexivity. cbv beta.
      destruct (IH Hrest (set_in_pins (in_pins f ++ [pin]) f)
                  (tr ++ [Ev (QueryDirection pin) (inr (dir pin))]))
        as [tr' ->].
      exists tr'. rewrite decide_True by exact H0.
      rewrite decide_False by (intros Hne; apply Hne, H0).
      cbn. rewrite <- app_assoc. reflexivity.
    + erewrite bind_Ok by reflexivity. cbv beta.
      destruct (IH Hrest (set_out_pins (out_pins f ++ [pin]) f)
                  (tr ++ [Ev (QueryDirection pin) (inr (dir pin))]))
        as [tr' ->].
      exists tr'. rewrite decide_False by exact H0.
      rewrite decide_True by exact H0.
      cbn. rewrite <- app_assoc. reflexivity.
Qed.

(** X1. [reload_pins] forgets the pins the filter had and sorts the pins the
    enumerator delivers by their direction, keeping the enumerator's order:
    direction 0 goes to [in_pins], any other direction to [out_pins]; the
    rest of the filter is untouched.  When the enumeration itself fails, the
    error is raised and the filter is left without pins. *)
Theorem reload_pins_partition (f : Filter) (tr : list event) :
  (forall (pins : list IPIN) (dir : IPIN -> Z),
     native tr _ (EnumPins (instance f)) = inr pins ->
     (forall tr' p, p ∈ pins ->
        native tr' _ (QueryDirection p) = inr (dir p)) ->
     exists tr',
       reload_pins native f tr
       = (Ok tt,
          {| instance := instance f; Name := Name f;
             out_pins := filter (fun p => dir p <> 0) pins;
             in_pins := filter (fun p => dir p = 0) pins;
             subclass := subclass f |}, tr'))
  /\
  (forall hr,
     native tr _ (EnumPins (instance f)) = inl hr ->
     reload_pins native f tr
     = (Raise (COMError hr),
        {| instance := instance f; Name := Name f; out_pins := [];
           in_pins := []; subclass := subclass f |},
        tr ++ [Ev (EnumPins (instance f)) (inl hr)])).
Proof.
  split.
  - intros pins dir Hpins Hdir. unfold reload_pins. repeat step.
    erewrite bind_Ok by (apply invoke_inr; exact Hpins). cbv beta.
    change (instance (set_in_pins [] (set_out_pins [] f)))
      with (instance f).
    destruct (reload_pins_loop_partition dir pins Hdir
                (set_in_pins [] (set_out_pins [] f))
                (tr ++ [Ev (EnumPins (instance f)) (inr pins)]))
      as [tr' ->].
    exists tr'. reflexivity.
  - intros hr Hfail. unfold reload_pins. repeat step.
    erewrite bind_Raise; [reflexivity|]. apply invoke_inl. exact Hfail.
Qed.

End ReloadPins.

(** The AVI muxer of the sample machine, before and after its first input
    is connected; and a framework that cannot enumerate pins. *)
Lemma reload_pins_partition_witness :
  (exists tr',
     reload_pins sample_native
       {| instance := 50%N; Name := "Muxer"; out_pins := [99%N];
          in_pins := [98%N]; subclass := Muxer |}
       [Ev (Connect (Some 62%N) 51%N) (inr tt)]
     = (Ok tt,
        {| instance := 50%N; Name := "Muxer"; out_pins := [55%N];
           in_pins := [51%N; 52%N]; subclass := Muxer |}, tr'))
  /\
  reload_pins (fun _ _ _ => inl E_FAIL) sample_camera []
  = (Raise (COMError E_FAIL),
     {| instance := 10%N; Name := "Integrated Camera"; out_pins := [];
        in_pins := []; subclass := VideoInput |},
     [] ++ [Ev (EnumPins 10%N) (inl E_FAIL)]).
Proof.
  split.
  - apply (proj1 (reload_pins_partition sample_native
                    {| instance := 50%N; Name := "Muxer";
                       out_pins := [99%N]; in_pins := [98%N];
                       subclass := Muxer |}
                    [Ev (Connect (Some 62%N) 51%N) (inr tt)])
             [51%N; 52%N; 55%N] sample_direction).
    + reflexivity.
    + intros tr' p _. reflexivity.
  - apply (proj2 (reload_pins_partition (fun _ _ _ => inl E_FAIL)
                    sample_camera [])).
    reflexivity.
Defined.

(** ** Picking a device by its index *)

(** The loop of [get_filter_by_index] stops on the moniker at [index],
    counting from [i]; it runs out when there is none. *)
Lemma get_filter_by_index_loop_spec enum :
  forall i index,
    get_filter_by_index_loop enum i index
    = if decide (i <= index) then enum !! Z.to_nat (index - i) else None.
Proof.
  induction enum as [|m enum IH]; intros i index;
    cbn [get_filter_by_index_loop].
  - destruct (decide (i <= index)); reflexivity.
  - destruct (Z.eqb_spec i index) as [->|Hne].
    + rewrite decide_True by lia. now rewrite Z.sub_diag.
    + rewrite IH. destruct (decide (i <= index)) as [Hle|Hgt].
      * rewrite decide_True by lia.
        replace (Z.to_nat (index - i)) with (S (Z.to_nat (index - (i + 1))))
          by lia.
        reflexivity.
      * rewrite decide_False by lia. reflexivity.
Qed.

Section DeviceIndex.

Variable native : Native.


(** X3. The index of a device in the list of names is the index that
    selects it: when the answers of the framework about a category and its
    monikers do not depend on what was asked before, [get_filter_by_index]
    at a position of the enumerator returns the filter bound to the moniker
    at that position (as its [IBaseFilter]), together with the name that
    [get_available_filters] lists at the same position. *)
Theorem get_filter_by_index_agrees (category : GUID) (g : FilterGraph)
    (enum : list IMONIKER) (bound flt storage bag : IMONIKER -> COMPTR)
    (name : IMONIKER -> string) (index : Z) (moniker : IMONIKER) :
  (forall tr, native tr _ (CreateClassEnumerator category)
              = inr (Some enum)) ->
  (forall tr m, m ∈ enum ->
     native tr _ (BindToObject m) = inr (bound m) /\
     native tr _ (QueryInterface (bound m) IID_IBaseFilter)
       = inr (flt m) /\
     native tr _ (BindToStorage m) = inr (storage m) /\
     native tr _ (QueryInterface (storage m) IID_IPropertyBag)
       = inr (bag m) /\
     native tr _ (PropertyBagRead (bag m) "FriendlyName")
       = inr (name m)) ->
  0 <= index ->
  enum !! Z.to_nat index = Some moniker ->
  forall tr tr0, exists names tr1 tr2,
    get_available_filters native category g tr = (Ok names, g, tr1) /\
    names !! Z.to_nat index = Some (name moniker) /\
    get_filter_by_index native category index g tr0
    = (Ok (flt moniker, name moniker), g, tr2).
Proof.
  intros Hq Hm Hidx Hlook tr tr0.
  assert (Hin : moniker ∈ enum) by (eapply list_elem_of_lookup_2, Hlook).
  destruct (friendly_names_map native storage bag name enum
              (fun tr m Hm' =>
                 match Hm tr m Hm' with
                 | conj _ (conj _ H) => H
                 end)
              (tr ++ [Ev (CreateClassEnumerator category)
                         (inr (Some enum))])) as [tr1 Hnames].
  exists (name <$> enum), tr1.
  eexists. split; [|split].
  - unfold get_available_filters.
    erewrite bind_Ok by (apply invoke_inr, Hq). cbv beta iota.
    exact (get_available_filters_loop_run native _ _ _ _ Hnames [] g).
  - rewrite list_lookup_fmap, Hlook. reflexivity.
  - unfold get_filter_by_index.
    erewrite bind_Ok by (apply invoke_inr, Hq). cbv beta iota.
    rewrite get_filter_by_index_loop_spec, decide_True by exact Hidx.
    rewrite Z.sub_0_r, Hlook.
    destruct (Hm (tr0 ++ [Ev (CreateClassEnumerator category)
                             (inr (Some enum))]) moniker Hin)
      as (Hb & _).
    erewrite bind_Ok by (apply invoke_inr, Hb). cbv beta.
    erewrite bind_Ok by (apply invoke_inr, Hm, Hin). cbv beta.
    erewrite bind_Ok.
    2:{ apply get_moniker_name_run; apply Hm, Hin. }
    reflexivity.
Qed.

End DeviceIndex.


Lemma get_filter_by_index_agrees_witness :
  exists names tr1 tr2,
    get_available_filters sample_native DeviceCategories_VideoInputDevice
                          FilterGraph_init []
    = (Ok names, FilterGraph_init, tr1)
    /\ names !! Z.to_nat 1 = Some "USB Camera"%string
    /\ get_filter_by_index sample_native DeviceCategories_VideoInputDevice 1
                           FilterGraph_init []
       = (Ok (12%N, "USB Camera"%string), FilterGraph_init, tr2).
Proof.
  apply (get_filter_by_index_agrees sample_native
           DeviceCategories_VideoInputDevice FilterGraph_init
           [1%N; 2%N] sample_bound sample_bound (fun m => m) (fun m => m)
           sample_name
           1 2%N).
  - intros tr. reflexivity.
  - intros tr m Hm.
    assert (Hcase : m = 1%N \/ m = 2%N).
    { apply elem_of_cons in Hm as [->|Hm]; [auto|].
      apply elem_of_cons in Hm as [->|Hm]; [auto|].
      inversion Hm. }
    destruct Hcase as [-> | ->]; repeat split.
  - lia.
  - reflexivity.
Defined.

(** ** Adding a filter: what is left when it fails *)

Section AddFailure.

Variable native : Native.

(** X4. [__add_filter] on a free type.  When the filter cannot be built, the
    error is raised and the graph is as before.  When the filter is built
    but the native graph refuses it ([AddFilter] fails), the error is raised
    and the filter is nevertheless in [filters]: the type is taken, and any
    further [__add_filter] for it fails on the assertion. *)
Theorem add_filter_failure (ft : FilterType) (id : filter_id)
    (g : FilterGraph) (tr : list event) :
  filters g !! ft = None ->
  (forall e tr1,
     build_filter native ft id g tr = (Raise e, g, tr1) ->
     __add_filter native ft id g tr = (Raise e, g, tr1))
  /\
  (forall flt tr1 hr,
     build_filter native ft id g tr = (Ok flt, g, tr1) ->
     native tr1 _ (AddFilter (instance flt) (Name flt)) = inl hr ->
     let g' := set_filters (<[ft := flt]> (filters g)) g in
     __add_filter native ft id g tr
     = (Raise (COMError hr), g',
        tr1 ++ [Ev (AddFilter (instance flt) (Name flt)) (inl hr)])
     /\
     forall id' tr',
       __add_filter native ft id' g' tr' = (Raise AssertionError, g', tr')).
Proof.
  intros Hfree. split.
  - intros e tr1 Hb. unfold __add_filter. step.
    rewrite (has_filter_None _ _ Hfree). cbn [negb]. step.
    erewrite bind_Raise; [reflexivity|exact Hb].
  - intros flt tr1 hr Hb Hadd g'. split.
    + unfold __add_filter. step.
      rewrite (has_filter_None _ _ Hfree). cbn [negb]. step.
      erewrite bind_Ok by exact Hb. cbv beta. step.
      apply invoke_inl. exact Hadd.
    + intros id' tr'. apply add_filter_present.
      exists flt. apply lookup_insert_eq.
Qed.

(** X5. [add_sample_grabber] on a graph without sample grabber, when the
    framework goes along: the grabber is stored with a new callback object
    (no frame requested, resolution [(0, 0)]) around the user's callable;
    the callback is registered for the method 1, [BufferCB], and the media
    type asked for is RGB24 video. *)
Theorem add_sample_grabber_run (cb : Callable) (g : FilterGraph)
    (tr tr1 : list event) (flt : Filter) (ptr : COMPTR) :
  filters g !! sample_grabber = None ->
  SampleGrabber_new native g tr = (Ok flt, g, tr1) ->
  subclass flt = SampleGrabber ptr None ->
  let e1 := Ev (AddFilter (instance flt) (Name flt)) (inr tt) in
  let e2 := Ev (SetCallback ptr cb 1) (inr tt) in
  let e3 := Ev (SetMediaType ptr MediaTypes_Video MediaSubtypes_RGB24)
               (inr tt) in
  native tr1 _ (AddFilter (instance flt) (Name flt)) = inr tt ->
  native (tr1 ++ [e1]) _ (SetCallback ptr cb 1) = inr tt ->
  native (tr1 ++ [e1; e2]) _
         (SetMediaType ptr MediaTypes_Video MediaSubtypes_RGB24) = inr tt ->
  add_sample_grabber native cb g tr
  = (Ok tt,
     set_filters
       (<[sample_grabber :=
            set_subclass
              (SampleGrabber ptr (Some (SampleGrabberCallback_new cb)))
              flt]> (filters g)) g,
     tr1 ++ [e1; e2; e3]).
Proof.
  intros Hfree Hnew Hcls e1 e2 e3 H1 H2 H3.
  unfold add_sample_grabber.
  erewrite bind_Ok.
  2:{ unfold __add_filter. step.
      rewrite (has_filter_None _ _ Hfree). cbn [negb]. step.
      cbn [build_filter]. erewrite bind_Ok by exact Hnew. cbv beta. step.
      apply invoke_inr. exact H1. }
  cbv beta zeta.
  set (g1 := set_filters (<[sample_grabber := flt]> (filters g)) g).
  assert (Hg1 : filters g1 !! sample_grabber = Some flt)
    by apply lookup_insert_eq.
  erewrite bind_Ok.
  2:{ eapply with_filter_run; [exact Hg1|].
      unfold set_callback. step. rewrite Hcls. step.
      apply invoke_inr. exact H2. }
  cbv beta.
  erewrite bind_Ok by (apply filter_at_run, lookup_insert_eq). cbv beta.
  unfold set_media_type. cbn [subclass set_subclass].
  erewrite invoke_inr by (rewrite <- app_assoc; exact H3).
  unfold g1, set_filters. cbn [filters recording_format is_recording].
  rewrite insert_insert_eq, <- !app_assoc. reflexivity.
Qed.

(** X6. [add_sample_grabber] when the native graph refuses the grabber: the
    error is raised before a callback is attached, and the grabber stays in
    [filters] without one.  On that graph [grab_frame] does not return
    [False]: it finds the grabber and raises [AttributeError]. *)
Theorem add_sample_grabber_refused (cb : Callable) (g : FilterGraph)
    (tr tr1 : list event) (flt : Filter) (ptr : COMPTR) (hr : HRESULT) :
  filters g !! sample_grabber = None ->
  SampleGrabber_new native g tr = (Ok flt, g, tr1) ->
  subclass flt = SampleGrabber ptr None ->
  native tr1 _ (AddFilter (instance flt) (Name flt)) = inl hr ->
  let g' := set_filters (<[sample_grabber := flt]> (filters g)) g in
  add_sample_grabber native cb g tr
  = (Raise (COMError hr), g',
     tr1 ++ [Ev (AddFilter (instance flt) (Name flt)) (inl hr)])
  /\
  forall tr', grab_frame g' tr' = (Raise AttributeError, g', tr').
Proof.
  intros Hfree Hnew Hcls Hadd g'. split.
  - unfold add_sample_grabber.
    erewrite bind_Raise; [reflexivity|].
    unfold __add_filter. step.
    rewrite (has_filter_None _ _ Hfree). cbn [negb]. step.
    cbn [build_filter]. erewrite bind_Ok by exact Hnew. cbv beta. step.
    apply invoke_inl. exact Hadd.
  - intros tr'. unfold grab_frame. step.
    assert (Hg' : filters g' !! sample_grabber = Some flt)
      by apply lookup_insert_eq.
    rewrite (has_filter_Some _ _ _ Hg').
    erewrite bind_Raise; [reflexivity|].
    erewrite with_filter_run; [|exact Hg'|].
    2:{ unfold callback_grab_frame. step. rewrite Hcls. reflexivity. }
    unfold g', set_filters. cbn [filters recording_format is_recording].
    rewrite insert_insert_eq. reflexivity.
Qed.

End AddFailure.

Lemma add_filter_failure_witness :
  __add_filter sample_native video_input (id_int 5) FilterGraph_init []
  = (Raise ValueError, FilterGraph_init,
     [Ev (CreateClassEnumerator DeviceCategories_VideoInputDevice)
         (inr (Some [1%N; 2%N]))])
  /\
  (let tr1 := snd (SampleGrabber_new refusing_native FilterGraph_init []) in
   let flt := {| instance := 30%N; Name := "Sample Grabber";
                 out_pins := [32%N]; in_pins := [31%N];
                 subclass := SampleGrabber 30%N None |} in
   let g' := set_filters (<[sample_grabber := flt]> ∅) FilterGraph_init in
   __add_filter refusing_native sample_grabber id_None FilterGraph_init []
   = (Raise (COMError E_FAIL), g',
      tr1 ++ [Ev (AddFilter 30%N "Sample Grabber") (inl E_FAIL)])
   /\
   forall id' tr',
     __add_filter refusing_native sample_grabber id' g' tr'
     = (Raise AssertionError, g', tr')).
Proof.
  split.
  - apply (proj1 (add_filter_failure sample_native video_input (id_int 5)
                    FilterGraph_init [] eq_refl)).
    reflexivity.
  - intros tr1 flt g'.
    apply (proj2 (add_filter_failure refusing_native sample_grabber id_None
                    FilterGraph_init [] eq_refl) flt tr1 E_FAIL);
      reflexivity.
Defined.

Lemma add_sample_grabber_run_witness :
  let s := exec (SampleGrabber_new sample_native) graph_preview in
  let flt := {| instance := 30%N; Name := "Sample Grabber";
                out_pins := [32%N]; in_pins := [31%N];
                subclass := SampleGrabber 30%N None |} in
  add_sample_grabber sample_native 7%N (fst graph_preview) (snd graph_preview)
  = (Ok tt,
     set_filters
       (<[sample_grabber :=
            set_subclass
              (SampleGrabber 30%N (Some (SampleGrabberCallback_new 7%N)))
              flt]> (filters (fst graph_preview))) (fst graph_preview),
     snd s ++ [Ev (AddFilter 30%N "Sample Grabber") (inr tt);
               Ev (SetCallback 30%N 7%N 1) (inr tt);
               Ev (SetMediaType 30%N MediaTypes_Video MediaSubtypes_RGB24)
                  (inr tt)]).
Proof.
  intros s flt.
  apply (add_sample_grabber_run sample_native 7%N (fst graph_preview)
           (snd graph_preview) (snd s) flt 30%N); reflexivity.
Defined.

Lemma add_sample_grabber_refused_witness :
  let tr1 := snd (SampleGrabber_new refusing_native FilterGraph_init []) in
  let flt := {| instance := 30%N; Name := "Sample Grabber";
                out_pins := [32%N]; in_pins := [31%N];
                subclass := SampleGrabber 30%N None |} in
  let g' := set_filters (<[sample_grabber := flt]> ∅) FilterGraph_init in
  add_sample_grabber refusing_native 7%N FilterGraph_init []
  = (Raise (COMError E_FAIL), g',
     tr1 ++ [Ev (AddFilter 30%N "Sample Grabber") (inl E_FAIL)])
  /\
  forall tr', grab_frame g' tr' = (Raise AttributeError, g', tr').
Proof.
  intros tr1 flt g'.
  apply (add_sample_grabber_refused refusing_native 7%N FilterGraph_init []
           tr1 flt 30%N E_FAIL); reflexivity.
Defined.

(** ** What the operations keep *)

Section InvSteps.

Context {St : Type} (I : St -> Prop).

Lemma inv_keeps {A} (m : M St A) : keeps_state m -> inv_step I m.
Proof.
  intros Hk s tr r s' tr' H HI.
  now rewrite (keeps_state_run _ _ _ _ _ _ Hk H).
Qed.

Lemma inv_modify (f : St -> St) :
  (forall s, I s -> I (f s)) -> inv_step I (modify f).
Proof. intros Hf s tr r s' tr' H HI. inversion H; subst. auto. Qed.

Lemma inv_bind {A B} (m : M St A) (k : A -> M St B) :
  inv_step I m -> (forall a, inv_step I (k a)) -> inv_step I (bind m k).
Proof.
  intros Hm Hk s tr r s' tr' H HI.
  apply bind_inv in H as [(e & H & _)|(a & s1 & tr1 & H1 & H2)].
  - exact (Hm _ _ _ _ _ H HI).
  - exact (Hk a _ _ _ _ _ H2 (Hm _ _ _ _ _ H1 HI)).
Qed.

(** The same, when the continuation needs to know something about the value
    it is given. *)
Lemma inv_bind_with {A B} (Q : A -> Prop) (m : M St A) (k : A -> M St B) :
  (forall s tr a s' tr', m s tr = (Ok a, s', tr') -> Q a) ->
  inv_step I m -> (forall a, Q a -> inv_step I (k a)) ->
  inv_step I (bind m k).
Proof.
  intros HQ Hm Hk s tr r s' tr' H HI.
  apply bind_inv in H as [(e & H & _)|(a & s1 & tr1 & H1 & H2)].
  - exact (Hm _ _ _ _ _ H HI).
  - exact (Hk a (HQ _ _ _ _ _ H1) _ _ _ _ _ H2 (Hm _ _ _ _ _ H1 HI)).
Qed.

End InvSteps.

Section Classes.

Variable native : Native.

Lemma keeps_class_reload_pins : keeps_class (reload_pins native).
Proof.
  intros f tr r f' tr' H.
  destruct (reload_pins_fields _ _ _ _ _ _ H) as (_ & _ & ->). reflexivity.
Qed.

Lemma keeps_class_set_callback cb which :
  keeps_class (set_callback native cb which).
Proof.
  intros f tr r f' tr'. unfold set_callback. step.
  destruct (subclass f) eqn:Hc; try (intros H; inversion H; subst; congruence).
  erewrite bind_Ok by reflexivity. cbv beta. unfold invoke.
  intros H. inversion H; subst. reflexivity.
Qed.

Lemma keeps_class_initialize_after_connection :
  keeps_class (initialize_after_connection native).
Proof.
  intros f tr r f' tr'. unfold initialize_after_connection. step. intros H.
  apply bind_inv in H as [(e & H & _)|(res & f1 & tr1 & Hr & H)].
  - assert (f' = f) as ->; [|reflexivity].
    eapply keeps_state_run; [|exact H]. unfold get_resolution.
    destruct (subclass f); keeps.
  - assert (f1 = f) as ->.
    { eapply keeps_state_run; [|exact Hr]. unfold get_resolution.
      destruct (subclass f); keeps. }
    destruct (subclass f) as [| | | | | | |sg [cb|]] eqn:Hc;
      inversion H; subst; cbn; rewrite ?Hc; reflexivity.
Qed.

Lemma keeps_class_callback_grab_frame : keeps_class callback_grab_frame.
Proof.
  intros f tr r f' tr'. unfold callback_grab_frame. step.
  destruct (subclass f) as [| | | | | | |sg [cb|]] eqn:Hc;
    intros H; inversion H; subst; cbn; rewrite ?Hc; reflexivity.
Qed.

(** A filter is built in the class of the type that was asked for. *)
Lemma Render_new_class {St} inst (s s' : St) tr flt tr' :
  Render_new native inst s tr = (Ok flt, s', tr') ->
  key_of (subclass flt) = render.
Proof.
  unfold Render_new, Filter_new, construct.
  set (f0 := {| instance := inst; Name := "Render"; out_pins := [];
                in_pins := []; subclass := Render None |}).
  destruct (bind _ _ f0 tr) as [[[[]|e] f1] tr1] eqn:Hb; [|discriminate].
  intros H. inversion H; subst. clear H.
  apply bind_inv in Hb as [(e & _ & ?)|([] & f2 & tr2 & _ & Hb)];
    [discriminate|].
  revert Hb. step. intros Hb.
  apply bind_inv in Hb as [(e & _ & ?)|(vw & f3 & tr3 & _ & Hb)];
    [discriminate|].
  inversion Hb; subst. reflexivity.
Qed.

Lemma build_filter_class {St} ft id (s s' : St) tr flt tr' :
  build_filter native ft id s tr = (Ok flt, s', tr') ->
  key_of (subclass flt) = ft.
Proof.
  assert (Hdev : forall category cls,
    device_filter native category cls id s tr = (Ok flt, s', tr') ->
    subclass flt = cls).
  { intros category cls. unfold device_filter.
    destruct id; try discriminate. intros H.
    apply bind_inv in H as [(e & _ & ?)|(args & s1 & tr1 & _ & H)];
      [discriminate|].
    apply Filter_new_plain in H. tauto. }
  destruct ft; cbn [build_filter].
  - intros H. now rewrite (Hdev _ _ H).
  - intros H. now rewrite (Hdev _ _ H).
  - intros H. now rewrite (Hdev _ _ H).
  - intros H. now rewrite (Hdev _ _ H).
  - intros H. apply SampleGrabber_new_fields in H as [ptr ->]. reflexivity.
  - destruct id; try discriminate. intros H.
    apply bind_inv in H as [(e & _ & ?)|(inst & s1 & tr1 & _ & H)];
      [discriminate|].
    exact (Render_new_class _ _ _ _ _ _ H).
  - discriminate.
  - destruct id; try discriminate. intros H.
    apply Filter_new_plain in H as (_ & _ & ->). reflexivity.
  - intros H.
    apply bind_inv in H as [(e & _ & ?)|(inst & s1 & tr1 & _ & H)];
      [discriminate|].
    apply Filter_new_plain in H as (_ & _ & ->). reflexivity.
Qed.

End Classes.

(** Steps of the graph, for an invariant that survives the two ways in
    which [filters] changes: a filter of the right class put under a type
    other than the muxer, and a filter replaced by one of its class. *)
Section GraphSteps.

Variable native : Native.
Variable I : FilterGraph -> Prop.

Hypothesis I_insert :
  forall g k flt,
    I g -> k <> muxer -> key_of (subclass flt) = k ->
    I (set_filters (<[k := flt]> (filters g)) g).

Hypothesis I_update :
  forall g k f f',
    I g -> filters g !! k = Some f ->
    key_of (subclass f') = key_of (subclass f) ->
    I (set_filters (<[k := f']> (filters g)) g).

Lemma inv_with_filter {A} k (m : M Filter A) :
  keeps_class m -> inv_step I (with_filter k m).
Proof.
  intros Hm g tr r g' tr' H HI. unfold with_filter in H.
  apply bind_inv in H as [(e & H & _)|(f & g1 & tr1 & Hf & H)].
  - now rewrite (keeps_state_run _ _ _ _ _ _ (keeps_filter_at k) H).
  - pose proof (keeps_state_run _ _ _ _ _ _ (keeps_filter_at k) Hf) as ->.
    assert (Hlook : filters g !! k = Some f).
    { unfold filter_at, bind, get in Hf.
      destruct (filters g !! k); inversion Hf; subst; reflexivity. }
    unfold zoom in H. destruct (m f tr1) as [[r1 f'] tr2] eqn:Hrun.
    inversion H; subst. eapply I_update; eauto.
Qed.

Lemma inv_add_filter ft id :
  ft <> muxer -> inv_step I (__add_filter native ft id).
Proof.
  intros Hft. unfold __add_filter.
  apply inv_bind; [apply inv_keeps, keeps_get|]. intros g0.
  apply inv_bind; [apply inv_keeps, keeps_assert|]. intros _.
  apply inv_bind_with with (Q := fun flt => key_of (subclass flt) = ft).
  - intros s tr flt s' tr' H. exact (build_filter_class _ _ _ _ _ _ _ _ H).
  - apply inv_keeps, keeps_build_filter.
  - intros flt Hcls.
    apply inv_bind; [|intros _; apply inv_keeps, keeps_invoke].
    apply inv_modify. intros g HI. now apply I_insert.
Qed.

Lemma inv_add_sample_grabber cb : inv_step I (add_sample_grabber native cb).
Proof.
  unfold add_sample_grabber.
  apply inv_bind; [apply inv_add_filter; discriminate|]. intros _. cbv zeta.
  apply inv_bind;
    [apply inv_with_filter, keeps_class_set_callback|]. intros _.
  apply inv_bind; [apply inv_keeps, keeps_filter_at|]. intros sg.
  apply inv_keeps. unfold set_media_type. destruct (subclass sg); keeps.
Qed.

Lemma inv_get_capture_and_preview_pins :
  inv_step I (__get_capture_and_preview_pins native).
Proof.
  unfold __get_capture_and_preview_pins.
  apply inv_bind; [apply inv_keeps, keeps_filter_at|]. intros vi.
  apply inv_bind; [apply inv_keeps, keeps_find_pin|]. intros pp.
  apply inv_bind; [apply inv_keeps, keeps_filter_at|]. intros vi'.
  apply inv_bind; [apply inv_keeps, keeps_find_pin|]. intros cp.
  assert (Htee : forall avail,
    inv_step I
      (__add_filter native smart_tee id_None ;;;
       tee <- filter_at smart_tee ;;
       i <- lift (get_in tee 0) ;;
       invoke native (Connect avail i) ;;;
       pins <- unpack2 (out_pins tee) ;;
       ret (snd pins, fst pins))).
  { intros avail.
    apply inv_bind; [apply inv_add_filter; discriminate|]. intros _.
    apply inv_keeps. unfold filter_at. keeps. }
  destruct pp, cp; try apply Htee. apply inv_keeps, keeps_ret.
Qed.

(** The statements of [prepare_preview_graph] before the flag is set. *)
Lemma inv_preview_connections (g0 : FilterGraph) :
  inv_step I
    (if negb (has_filter sample_grabber g0) then
       o <- out_of video_input ;;
       i <- in_of render 0 ;;
       invoke native (Connect (Some o) i)
     else
       o <- out_of video_input ;;
       i <- in_of sample_grabber 0 ;;
       invoke native (Connect (Some o) i) ;;;
       o <- out_of sample_grabber ;;
       i <- in_of render 0 ;;
       invoke native (Connect (Some o) i) ;;;
       with_filter sample_grabber (initialize_after_connection native)).
Proof.
  destruct (negb (has_filter sample_grabber g0)).
  - apply inv_keeps. unfold out_of, in_of, filter_at. keeps.
  - apply inv_bind; [apply inv_keeps, keeps_out_of|]. intros o.
    apply inv_bind; [apply inv_keeps, keeps_in_of|]. intros i.
    apply inv_bind; [apply inv_keeps, keeps_invoke|]. intros _.
    apply inv_bind; [apply inv_keeps, keeps_out_of|]. intros o'.
    apply inv_bind; [apply inv_keeps, keeps_in_of|]. intros i'.
    apply inv_bind; [apply inv_keeps, keeps_invoke|]. intros _.
    apply inv_with_filter, keeps_class_initialize_after_connection.
Qed.

(** The statements of [prepare_recording_graph] between the look-up of the
    pins and the setting of the flag. *)
Lemma inv_recording_connections (g : FilterGraph)
    (preview_pin capture_pin : IPIN) :
  inv_step I
    ((if decide (recording_format g = Some ASF) then
        i <- in_of muxer 1 ;;
        invoke native (Connect (Some capture_pin) i) ;;;
        o <- out_of audio_input ;;
        i <- in_of muxer 0 ;;
        invoke native (Connect (Some o) i) ;;;
        i <- in_of render 0 ;;
        invoke native (Connect (Some preview_pin) i)
      else
        i <- in_of video_compressor 0 ;;
        invoke native (Connect (Some capture_pin) i) ;;;
        o <- out_of video_compressor ;;
        i <- in_of muxer 0 ;;
        invoke native (Connect (Some o) i) ;;;
        i <- in_of render 0 ;;
        invoke native (Connect (Some preview_pin) i) ;;;
        g <- get ;;
        if has_filter audio_input g then
          o <- out_of audio_input ;;
          i <- in_of audio_compressor 0 ;;
          invoke native (Connect (Some o) i) ;;;
          with_filter muxer (reload_pins native) ;;;
          o <- out_of audio_compressor ;;
          i <- in_of muxer 1 ;;
          invoke native (Connect (Some o) i)
        else ret tt)).
Proof.
  destruct (decide (recording_format g = Some ASF)).
  - apply inv_keeps. unfold out_of, in_of, filter_at. keeps.
  - repeat first
      [ apply inv_keeps, keeps_invoke
      | apply inv_bind;
        [ first [ apply inv_keeps, keeps_in_of
                | apply inv_keeps, keeps_out_of
                | apply inv_keeps, keeps_invoke
                | apply inv_keeps, keeps_get ] | intros ?] ].
    destruct (has_filter audio_input _); [|apply inv_keeps, keeps_ret].
    repeat first
      [ apply inv_keeps, keeps_invoke
      | apply inv_bind;
        [ first [ apply inv_keeps, keeps_in_of
                | apply inv_keeps, keeps_out_of
                | apply inv_keeps, keeps_invoke
                | apply inv_with_filter, keeps_class_reload_pins ]
        | intros ?] ].
Qed.

End GraphSteps.

Section OperationSteps.

Variable native : Native.
Variable os_path_splitext : string -> string * string.
Variable str_upper : string -> string.
Variable I : FilterGraph -> Prop.

Hypothesis I_insert :
  forall g k flt,
    I g -> k <> muxer -> key_of (subclass flt) = k ->
    I (set_filters (<[k := flt]> (filters g)) g).

Hypothesis I_update :
  forall g k f f',
    I g -> filters g !! k = Some f ->
    key_of (subclass f') = key_of (subclass f) ->
    I (set_filters (<[k := f']> (filters g)) g).

Lemma inv_void {A} (m : M FilterGraph A) : inv_step I m -> inv_step I (void m).
Proof.
  intros Hm. unfold void. apply inv_bind; [exact Hm|].
  intros _. apply inv_keeps, keeps_ret.
Qed.

Lemma inv_plain_operation op :
  plain op = true ->
  inv_step I (run_operation native os_path_splitext str_upper op).
Proof.
  destruct op; cbn [plain run_operation]; intros Hp; try discriminate;
    try (apply inv_add_filter; [exact I_insert|discriminate]);
    try (apply inv_keeps, keeps_invoke);
    try (apply inv_void, inv_keeps, keeps_get_available_filters).
  - apply inv_add_sample_grabber; assumption.
  - apply inv_void, inv_keeps. unfold get_state. keeps.
  - apply inv_void. unfold grab_frame.
    apply inv_bind; [apply inv_keeps, keeps_get|]. intros g.
    destruct (has_filter sample_grabber g); [|apply inv_keeps, keeps_ret].
    apply inv_bind; [|intros _; apply inv_keeps, keeps_ret].
    apply inv_with_filter; [exact I_update|].
    apply keeps_class_callback_grab_frame.
Qed.

(** [prepare_preview_graph] and [prepare_recording_graph], up to their last
    statement. *)
Lemma inv_prepare_preview_graph :
  (forall g b, I g -> I (set_is_recording b g)) ->
  inv_step I (prepare_preview_graph native).
Proof.
  intros Hflag. unfold prepare_preview_graph.
  apply inv_bind; [apply inv_keeps, keeps_get|]. intros g.
  apply inv_bind; [apply inv_keeps, keeps_assert|]. intros _.
  apply inv_bind; [apply inv_keeps, keeps_assert|]. intros _.
  apply inv_bind; [apply inv_preview_connections; assumption|]. intros _.
  apply inv_modify. intros g0. apply Hflag.
Qed.

Lemma inv_prepare_recording_graph :
  (forall g b, I g -> I (set_is_recording b g)) ->
  inv_step I (prepare_recording_graph native).
Proof.
  intros Hflag. unfold prepare_recording_graph.
  apply inv_bind; [apply inv_keeps, keeps_get|]. intros g.
  apply inv_bind; [apply inv_keeps, keeps_assert|]. intros _.
  apply inv_bind; [apply inv_keeps, keeps_assert|]. intros _.
  apply inv_bind; [apply inv_keeps, keeps_assert|]. intros _.
  apply inv_bind; [apply inv_get_capture_and_preview_pins; assumption|].
  intros pins. cbv zeta.
  apply inv_bind; [apply inv_keeps, keeps_get|]. intros g1.
  apply inv_bind; [apply inv_recording_connections; assumption|]. intros _.
  apply inv_modify. intros g0. apply Hflag.
Qed.

End OperationSteps.

Section Invariants.

Variable native : Native.
Variable os_path_splitext : string -> string * string.
Variable str_upper : string -> string.

Lemma well_typed_insert g k flt :
  well_typed g -> key_of (subclass flt) = k ->
  well_typed (set_filters (<[k := flt]> (filters g)) g).
Proof.
  intros Hwt Hk k' f. cbn. rewrite lookup_insert.
  destruct (decide (k = k')) as [<-|Hne].
  - intros H. inversion H; subst. reflexivity.
  - apply Hwt.
Qed.

Lemma typed_insert g k flt :
  well_typed g /\ format_known g -> k <> muxer ->
  key_of (subclass flt) = k ->
  well_typed (set_filters (<[k := flt]> (filters g)) g) /\
  format_known (set_filters (<[k := flt]> (filters g)) g).
Proof.
  intros [Hwt Hfk] Hk Hcls. split; [now apply well_typed_insert|].
  unfold format_known. cbn. rewrite lookup_insert_ne by exact Hk. exact Hfk.
Qed.

Lemma typed_update g k f f' :
  well_typed g /\ format_known g -> filters g !! k = Some f ->
  key_of (subclass f') = key_of (subclass f) ->
  well_typed (set_filters (<[k := f']> (filters g)) g) /\
  format_known (set_filters (<[k := f']> (filters g)) g).
Proof.
  intros [Hwt Hfk] Hf Hcls. split.
  - apply well_typed_insert; [exact Hwt|]. rewrite Hcls. now apply Hwt.
  - unfold format_known. cbn. intros H. apply Hfk.
    destruct (decide (k = muxer)) as [->|Hne]; [eauto|].
    rewrite lookup_insert_ne in H by exact Hne. exact H.
Qed.

Lemma typed_add_file_writer_and_muxer filename :
  inv_step (fun g => well_typed g /\ format_known g)
    (add_file_writer_and_muxer native os_path_splitext str_upper filename).
Proof.
  intros g tr r g' tr' H [Hwt _].
  unfold add_file_writer_and_muxer in H. cbv zeta in H.
  set (fmt := if String.eqb _ ".WMV" then ASF else AVI) in H.
  erewrite bind_Ok in H by reflexivity.
  set (g0 := set_recording_format (Some fmt) g) in H.
  assert (H0 : well_typed g0 /\ format_known g0).
  { split; [exact Hwt|]. intros _. cbn. eauto. }
  apply bind_inv in H as [(e & H & _)|(out & g1 & tr1 & Hq & H)].
  { now rewrite (keeps_state_run _ _ _ _ _ _ (keeps_invoke _ _) H). }
  pose proof (keeps_state_run _ _ _ _ _ _ (keeps_invoke _ _) Hq) as ->.
  apply bind_inv in H as [(e & H & _)|(flt & g2 & tr2 & Hb & H)].
  { now rewrite (keeps_state_run _ _ _ _ _ _ (keeps_build_filter _ _ _) H). }
  pose proof (keeps_state_run _ _ _ _ _ _ (keeps_build_filter _ _ _) Hb) as ->.
  apply build_filter_class in Hb. inversion H; subst. split.
  - exact (well_typed_insert g0 _ _ (proj1 H0) Hb).
  - intros _. cbn. eauto.
Qed.

(** X7. In every graph that the operations lead to from a new
    [FilterGraph], whatever the framework answered and however the calls
    ended, each filter in [filters] is of the class of its key (a
    [VideoInput] under [video_input], a [SampleGrabber] under
    [sample_grabber], and so on: nothing is ever kept under [file_sink]),
    and a graph that has a muxer has a recording format, ASF or AVI. *)
Theorem reachable_graph_typed (g : FilterGraph) :
  reachable native os_path_splitext str_upper g ->
  well_typed g /\ format_known g /\ filters g !! file_sink = None.
Proof.
  intros Hr.
  assert (Hinv : well_typed g /\ format_known g).
  { induction Hr as [|g op tr Hr IH].
    - split.
      + intros k f H. cbn in H. rewrite lookup_empty in H. discriminate.
      + intros [f H]. cbn in H. rewrite lookup_empty in H. discriminate.
    - unfold exec. cbn [fst snd].
      destruct (run_operation native os_path_splitext str_upper op g tr)
        as [[r g'] tr'] eqn:Hrun. cbn [fst snd].
      assert (Hstep : inv_step (fun g => well_typed g /\ format_known g)
                (run_operation native os_path_splitext str_upper op)).
      { destruct (plain op) eqn:Hp.
        - exact (inv_plain_operation native os_path_splitext str_upper
                   (fun g => well_typed g /\ format_known g)
                   typed_insert typed_update op Hp).
        - destruct op; try discriminate; cbn [run_operation].
          + apply typed_add_file_writer_and_muxer.
          + exact (inv_prepare_preview_graph native
                     (fun g => well_typed g /\ format_known g)
                     typed_update (fun g0 b H => H)).
          + exact (inv_prepare_recording_graph native
                     (fun g => well_typed g /\ format_known g)
                     typed_insert typed_update (fun g0 b H => H)). }
      exact (Hstep _ _ _ _ _ Hrun IH). }
  destruct Hinv as [Hwt Hfk]. split; [exact Hwt|]. split; [exact Hfk|].
  destruct (filters g !! file_sink) as [f|] eqn:Hf; [|reflexivity].
  apply Hwt in Hf. destruct (subclass f); discriminate.
Qed.

(** X8. The two flags of the graph.  [is_recording] is set to [False] by
    [prepare_preview_graph] and to [True] by [prepare_recording_graph] when
    they return; when they raise, and in every other operation, it keeps its
    value.  [recording_format] keeps its value in every operation but
    [add_file_writer_and_muxer]. *)
Theorem flags_change_only_where (op : operation) (g : FilterGraph)
    (tr : list event) (r : result unit) (g' : FilterGraph)
    (tr' : list event) :
  run_operation native os_path_splitext str_upper op g tr = (r, g', tr') ->
  is_recording g'
  = match op, r with
    | op_prepare_preview_graph, Ok _ => false
    | op_prepare_recording_graph, Ok _ => true
    | _, _ => is_recording g
    end
  /\
  match op with
  | op_add_file_writer_and_muxer _ => True
  | _ => recording_format g' = recording_format g
  end.
Proof.
  intros Hrun.
  set (J := fun s : FilterGraph =>
              is_recording s = is_recording g /\
              recording_format s = recording_format g).
  assert (J_insert : forall s k flt,
            J s -> k <> muxer -> key_of (subclass flt) = k ->
            J (set_filters (<[k := flt]> (filters s)) s))
    by (intros s k flt Hs _ _; exact Hs).
  assert (J_update : forall s k f f',
            J s -> filters s !! k = Some f ->
            key_of (subclass f') = key_of (subclass f) ->
            J (set_filters (<[k := f']> (filters s)) s))
    by (intros s k f f' Hs _ _; exact Hs).
  assert (HJ : J g) by (split; reflexivity).
  destruct (plain op) eqn:Hp.
  - destruct (inv_plain_operation native os_path_splitext str_upper J
                J_insert J_update op Hp _ _ _ _ _ Hrun HJ) as [Hrec Hfmt].
    destruct op; try discriminate; auto.
  - destruct op; try discriminate; cbn [run_operation] in Hrun.
    + split; [|exact I].
      unfold add_file_writer_and_muxer in Hrun. cbv zeta in Hrun.
      erewrite bind_Ok in Hrun by reflexivity.
      apply bind_inv in Hrun as [(e & H & _)|(out & g1 & tr1 & Hq & H)].
      { now rewrite (keeps_state_run _ _ _ _ _ _ (keeps_invoke _ _) H). }
      pose proof (keeps_state_run _ _ _ _ _ _ (keeps_invoke _ _) Hq) as ->.
      apply bind_inv in H as [(e & H & _)|(flt & g2 & tr2 & Hb & H)].
      { now rewrite (keeps_state_run _ _ _ _ _ _
                       (keeps_build_filter _ _ _) H). }
      pose proof (keeps_state_run _ _ _ _ _ _
                    (keeps_build_filter _ _ _) Hb) as ->.
      inversion H; subst. reflexivity.
    + unfold prepare_preview_graph in Hrun.
      revert Hrun. step. intros Hrun.
      apply bind_inv in Hrun as [(e & H & ->)|([] & g1 & tr1 & H1 & Hrun)].
      { rewrite (keeps_state_run _ _ _ _ _ _ (keeps_assert _) H). auto. }
      pose proof (keeps_state_run _ _ _ _ _ _ (keeps_assert _) H1) as ->.
      apply bind_inv in Hrun as [(e & H & ->)|([] & g1 & tr2 & H2 & Hrun)].
      { rewrite (keeps_state_run _ _ _ _ _ _ (keeps_assert _) H). auto. }
      pose proof (keeps_state_run _ _ _ _ _ _ (keeps_assert _) H2) as ->.
      apply bind_inv in Hrun as [(e & H & ->)|([] & g1 & tr3 & H3 & Hrun)].
      { exact (inv_preview_connections native J J_update g _ _ _ _ _ H HJ). }
      destruct (inv_preview_connections native J J_update g _ _ _ _ _ H3 HJ)
        as [Hrec Hfmt].
      inversion Hrun; subst. cbn. auto.
    + unfold prepare_recording_graph in Hrun.
      revert Hrun. step. intros Hrun.
      apply bind_inv in Hrun as [(e & H & ->)|([] & g1 & tr1 & H1 & Hrun)].
      { rewrite (keeps_state_run _ _ _ _ _ _ (keeps_assert _) H). auto. }
      pose proof (keeps_state_run _ _ _ _ _ _ (keeps_assert _) H1) as ->.
      apply bind_inv in Hrun as [(e & H & ->)|([] & g1 & tr2 & H2 & Hrun)].
      { rewrite (keeps_state_run _ _ _ _ _ _ (keeps_assert _) H). auto. }
      pose proof (keeps_state_run _ _ _ _ _ _ (keeps_assert _) H2) as ->.
      apply bind_inv in Hrun as [(e & H & ->)|([] & g1 & tr3 & H3 & Hrun)].
      { rewrite (keeps_state_run _ _ _ _ _ _ (keeps_assert _) H). auto. }
      pose proof (keeps_state_run _ _ _ _ _ _ (keeps_assert _) H3) as ->.
      apply bind_inv in Hrun as [(e & H & ->)|(pins & g1 & tr4 & H4 & Hrun)].
      { exact (inv_get_capture_and_preview_pins native J J_insert
                 _ _ _ _ _ H HJ). }
      pose proof (inv_get_capture_and_preview_pins native J J_insert
                    _ _ _ _ _ H4 HJ) as HJ1.
      cbv zeta in Hrun. revert Hrun. step. intros Hrun.
      apply bind_inv in Hrun as [(e & H & ->)|([] & g2 & tr5 & H5 & Hrun)].
      { exact (inv_recording_connections native J J_update g1 _ _
                 _ _ _ _ _ H HJ1). }
      destruct (inv_recording_connections native J J_update g1 _ _
                  _ _ _ _ _ H5 HJ1) as [Hrec Hfmt].
      inversion Hrun; subst. cbn. auto.
Qed.

End Invariants.

(** A camera is added, then a file writer: the graph is well typed and knows
    its format. *)
Lemma reachable_graph_typed_witness :
  let g1 := fst (exec (run_operation sample_native ntpath_splitext upper
                         (op_add_video_input_device 0))
                      (FilterGraph_init, [])) in
  let g2 := fst (exec (run_operation sample_native ntpath_splitext upper
                         (op_add_file_writer_and_muxer "out.wmv"))
                      (g1, [])) in
  well_typed g2 /\ format_known g2 /\ filters g2 !! file_sink = None.
Proof.
  intros g1 g2.
  apply (reachable_graph_typed sample_native ntpath_splitext upper g2).
  apply reachable_step, reachable_step, reachable_init.
Defined.

(** The preview graph is prepared after a recording was: the flag goes back
    to [False]; a frame grab in between does not touch it. *)
Lemma flags_change_only_where_witness :
  let s1 := exec (prepare_recording_graph sample_native)
                 (graph_recording 1 "out.avi") in
  let s2 := exec grab_frame s1 in
  let s3 := exec (prepare_preview_graph sample_native) s2 in
  (is_recording (fst s1) = true /\
   recording_format (fst s1) = Some AVI) /\
  (is_recording (fst s2) = true /\
   recording_format (fst s2) = recording_format (fst s1)) /\
  (is_recording (fst s3) = false /\
   recording_format (fst s3) = recording_format (fst s2)).
Proof.
  intros s1 s2 s3. split; [|split].
  - apply (flags_change_only_where sample_native ntpath_splitext upper
             op_prepare_recording_graph
             (fst (graph_recording 1 "out.avi"))
             (snd (graph_recording 1 "out.avi")) (Ok tt) (fst s1) (snd s1)).
    vm_compute. reflexivity.
  - apply (flags_change_only_where sample_native ntpath_splitext upper
             op_grab_frame (fst s1) (snd s1) (Ok tt) (fst s2) (snd s2)).
    vm_compute. reflexivity.
  - apply (flags_change_only_where sample_native ntpath_splitext upper
             op_prepare_preview_graph (fst s2) (snd s2) (Ok tt)
             (fst s3) (snd s3)).
    vm_compute. reflexivity.
Defined.

(** ** Preparing a graph: the ways it fails *)

Section PrepareEdges.

Variable native : Native.

(** X9. A recording graph that needed the smart tee cannot be prepared a
    second time: with the smart tee in the graph and a preview or capture
    pin that the framework does not find, [prepare_recording_graph] asks for
    the two pins and then fails on the assertion of [__add_filter]; the
    graph is left as it was and nothing is connected. *)
Theorem prepare_recording_graph_again (g : FilterGraph) (tr : list event)
    (vi rd mux tee : Filter) :
  filters g !! video_input = Some vi ->
  filters g !! render = Some rd ->
  filters g !! muxer = Some mux ->
  filters g !! smart_tee = Some tee ->
  let find cat := FindPin (instance vi) PIN_OUT (Some cat) None true 0 in
  let rp := native tr _ (find PinCategory_Preview) in
  let rc := native (tr ++ [Ev (find PinCategory_Preview) rp]) _
                   (find PinCategory_Capture) in
  (exists hr, rp = inl hr) \/ (exists hr, rc = inl hr) ->
  prepare_recording_graph native g tr
  = (Raise AssertionError, g,
     tr ++ [Ev (find PinCategory_Preview) rp;
            Ev (find PinCategory_Capture) rc]).
Proof.
  intros Hvi Hrd Hmux Htee find rp rc Hmiss.
  unfold prepare_recording_graph. step.
  rewrite (has_filter_Some _ _ _ Hvi), (has_filter_Some _ _ _ Hrd),
    (has_filter_Some _ _ _ Hmux).
  repeat step.
  erewrite bind_Raise; [reflexivity|].
  unfold __get_capture_and_preview_pins.
  step. erewrite bind_Ok by apply find_pin_run. cbv beta.
  step. erewrite bind_Ok by apply find_pin_run. cbv beta.
  subst rc rp find. cbv beta in *. rewrite <- app_assoc. cbn [app].
  destruct (native tr IPIN _) as [hp|p];
    destruct (native _ IPIN _) as [hc|c]; cbv beta iota;
    try (apply bind_Raise, add_filter_present; eauto).
  destruct Hmiss as [[x Hx]|[x Hx]]; discriminate Hx.
Qed.

(** X10. A recording graph without the filters its format needs.  For ASF
    without an audio input, the capture pin is connected to the muxer and
    the look-up of the audio input then raises [KeyError]; for AVI without
    a video compressor, [KeyError] is raised before anything is connected.
    In both cases [is_recording] is not set. *)
Theorem prepare_recording_graph_missing_filter (g : FilterGraph)
    (tr : list event) (vi rd mux : Filter) (preview capture : IPIN)
    (g1 : FilterGraph) (tr1 : list event) :
  filters g !! video_input = Some vi ->
  filters g !! render = Some rd ->
  filters g !! muxer = Some mux ->
  __get_capture_and_preview_pins native g tr
    = (Ok (preview, capture), g1, tr1) ->
  (forall m1,
     recording_format g = Some ASF ->
     filters g !! audio_input = None ->
     in_pins mux !! 1%nat = Some m1 ->
     native tr1 _ (Connect (Some capture) m1) = inr tt ->
     prepare_recording_graph native g tr
     = (Raise (KeyError audio_input), g1,
        tr1 ++ [Ev (Connect (Some capture) m1) (inr tt)]))
  /\
  (recording_format g <> Some ASF ->
   filters g !! video_compressor = None ->
   prepare_recording_graph native g tr
   = (Raise (KeyError video_compressor), g1, tr1))
  /\
  is_recording g1 = is_recording g.
Proof.
  intros Hvi Hrd Hmux Hpins.
  destruct (get_capture_and_preview_pins_frame _ _ _ _ _ _ Hpins)
    as (Hfmt & Hrec & Hframe).
  split; [|split; [|exact Hrec]].
  - intros m1 Hasf Hai Hm1 Hc.
    eapply prepare_recording_graph_ASF_without_audio; eassumption.
  - intros Havi Hvc.
    assert (Hvc1 : filters g1 !! video_compressor = None)
      by (rewrite Hframe; [exact Hvc | discriminate]).
    unfold prepare_recording_graph. step.
    rewrite (has_filter_Some _ _ _ Hvi), (has_filter_Some _ _ _ Hrd),
      (has_filter_Some _ _ _ Hmux).
    repeat step. cbn [fst snd]. rewrite decide_False by congruence.
    erewrite bind_Raise; [reflexivity|].
    erewrite bind_Raise; [reflexivity|].
    unfold in_of.
    erewrite bind_Raise; [reflexivity|].
    apply filter_at_missing, Hvc1.
Qed.

(** X11. [prepare_preview_graph] without sample grabber, when it cannot
    connect: a video input or render that is not in the graph fails the
    assertion; a video input without output pin, or a render without input
    pin, raises [IndexError] before the framework is called; a [Connect]
    that the framework refuses raises its [COMError].  In all these cases
    the graph, [is_recording] included, is as before. *)
Theorem prepare_preview_graph_failure (g : FilterGraph) (tr : list event) :
  (filters g !! video_input = None \/ filters g !! render = None ->
   prepare_preview_graph native g tr = (Raise AssertionError, g, tr))
  /\
  (forall vi rd,
     filters g !! video_input = Some vi ->
     filters g !! render = Some rd ->
     filters g !! sample_grabber = None ->
     (out_pins vi = [] \/ in_pins rd = [] ->
      prepare_preview_graph native g tr = (Raise IndexError, g, tr))
     /\
     (forall o i hr,
        out_pins vi !! 0%nat = Some o ->
        in_pins rd !! 0%nat = Some i ->
        native tr _ (Connect (Some o) i) = inl hr ->
        prepare_preview_graph native g tr
        = (Raise (COMError hr), g,
           tr ++ [Ev (Connect (Some o) i) (inl hr)]))).
Proof.
  split.
  - intros Hmiss. unfold prepare_preview_graph. step. unfold has_filter.
    destruct (filters g !! video_input); [|reflexivity].
    destruct (filters g !! render); [|reflexivity].
    destruct Hmiss; discriminate.
  - intros vi rd Hvi Hrd Hsg. split.
    + intros Hpins. unfold prepare_preview_graph. step.
      rewrite (has_filter_Some _ _ _ Hvi), (has_filter_Some _ _ _ Hrd),
        (has_filter_None _ _ Hsg). cbn [negb].
      repeat step.
      destruct (out_pins vi) as [|o outs] eqn:Hout.
      * erewrite bind_Raise; [reflexivity|].
        unfold out_of.
        rewrite (bind_Ok _ _ _ _ _ _ _ (filter_at_run _ _ tr _ Hvi)).
        unfold get_out. rewrite Hout. reflexivity.
      * destruct Hpins as [?|Hin]; [discriminate|].
        erewrite bind_Ok by (eapply out_of_run; [exact Hvi|]; rewrite Hout;
                             reflexivity).
        cbv beta. erewrite bind_Raise; [reflexivity|].
        erewrite bind_Raise; [reflexivity|].
        unfold in_of.
        rewrite (bind_Ok _ _ _ _ _ _ _ (filter_at_run _ _ tr _ Hrd)).
        unfold get_in. rewrite Hin. reflexivity.
    + intros o i hr Ho Hi Hc.
      eapply prepare_preview_graph_Connect_fails; eassumption.
Qed.

End PrepareEdges.

(** The recording graph of the first camera, prepared twice. *)
Lemma prepare_recording_graph_again_witness :
  let s1 := exec (prepare_recording_graph sample_native)
                 (graph_recording 0 "out.avi") in
  let find cat := FindPin 10%N PIN_OUT (Some cat) None true 0 in
  prepare_recording_graph sample_native (fst s1) (snd s1)
  = (Raise AssertionError, fst s1,
     snd s1 ++ [Ev (find PinCategory_Preview) (inl E_FAIL);
                Ev (find PinCategory_Capture) (inr 11%N)]).
Proof.
  intros s1 find.
  eapply (prepare_recording_graph_again sample_native (fst s1) (snd s1)
            _ _ _ _ eq_refl eq_refl eq_refl eq_refl).
  left. exists E_FAIL. reflexivity.
Defined.

(** On the second camera: ASF without microphone, and AVI without video
    compressor. *)
Lemma prepare_recording_graph_missing_filter_witness :
  (let s := graph_silent 1 "out.wmv" in
   let s1 := exec (__get_capture_and_preview_pins sample_native) s in
   prepare_recording_graph sample_native (fst s) (snd s)
   = (Raise (KeyError audio_input), fst s1,
      snd s1 ++ [Ev (Connect (Some 14%N) 102%N) (inr tt)]))
  /\
  (let s := graph_bare 1 "out.avi" in
   let s1 := exec (__get_capture_and_preview_pins sample_native) s in
   prepare_recording_graph sample_native (fst s) (snd s)
   = (Raise (KeyError video_compressor), fst s1, snd s1)).
Proof.
  split.
  - intros s s1.
    apply (proj1 (prepare_recording_graph_missing_filter sample_native
                    (fst s) (snd s) _ _ _ 13%N 14%N (fst s1) (snd s1)
                    eq_refl eq_refl eq_refl eq_refl) 102%N);
      reflexivity.
  - intros s s1.
    apply (proj1 (proj2 (prepare_recording_graph_missing_filter
                           sample_native (fst s) (snd s) _ _ _ 13%N 14%N
                           (fst s1) (snd s1)
                           eq_refl eq_refl eq_refl eq_refl)));
      [discriminate | reflexivity].
Defined.

(** An empty graph; a camera that has lost its pins; pins that cannot be
    connected. *)
Lemma prepare_preview_graph_failure_witness :
  prepare_preview_graph sample_native FilterGraph_init []
  = (Raise AssertionError, FilterGraph_init, [])
  /\
  (let g := set_filters
              (<[video_input := set_out_pins [] sample_camera]>
                 (filters (fst graph_preview))) (fst graph_preview) in
   prepare_preview_graph sample_native g [] = (Raise IndexError, g, []))
  /\
  prepare_preview_graph unconnectable_native (fst graph_preview)
                        (snd graph_preview)
  = (Raise (COMError E_FAIL), fst graph_preview,
     snd graph_preview ++ [Ev (Connect (Some 11%N) 21%N) (inl E_FAIL)]).
Proof.
  split; [|split].
  - apply (proj1 (prepare_preview_graph_failure sample_native
                    FilterGraph_init [])).
    left. reflexivity.
  - intros g.
    apply (proj1 (proj2 (prepare_preview_graph_failure sample_native g [])
                    _ _ eq_refl eq_refl eq_refl)).
    left. reflexivity.
  - apply (proj2 (proj2 (prepare_preview_graph_failure unconnectable_native
                           (fst graph_preview) (snd graph_preview))
                    _ _ eq_refl eq_refl eq_refl) 11%N 21%N E_FAIL);
      reflexivity.
Defined.

(** ** Buffers and requests *)

Section Buffers.

Variable U : Type.
Variable user_callback : Callable -> Mat -> M (U * SampleGrabberCallback) unit.

(** X12. A buffer that arrives for a requested frame while the resolution
    of the callback has a negative width or height (the height of a top-down
    bitmap is negative): [BufferCB] raises [ValueError] when it shapes the
    array; the callable is not run, and the request is used up. *)
Theorem BufferCB_negative_size (pBuffer : NPBUFFER) (BufferLen : Z) (u : U)
    (self : SampleGrabberCallback) (tr : list event) (w h : Z) :
  keep_photo self = true ->
  image_resolution self = (w, h) ->
  w < 0 \/ h < 0 ->
  BufferCB U user_callback pBuffer BufferLen (u, self) tr
  = (Raise ValueError, (u, set_keep_photo false self), tr).
Proof.
  intros Hk Hres Hneg. unfold BufferCB. step. cbn [snd]. rewrite Hk.
  erewrite bind_Ok by reflexivity. cbv beta. rewrite Hres. cbn [fst snd].
  erewrite bind_Raise; [reflexivity|].
  unfold as_array.
  assert ((h <? 0) || (w <? 0) || (3 <? 0) = true) as ->; [|reflexivity].
  destruct Hneg as [Hw|Hh].
  - apply Z.ltb_lt in Hw. rewrite Hw. now rewrite orb_true_r.
  - apply Z.ltb_lt in Hh. now rewrite Hh.
Qed.

(** X13. One request, one frame.  A frame was requested and a buffer has
    been handed to a callable that leaves [keep_photo] alone: whatever
    buffers arrive after it, [BufferCB] returns 0 for each and none reaches
    the callable, until a frame is requested again. *)
Theorem one_request_one_frame (pBuffer : NPBUFFER) (BufferLen : Z)
    (buffers : list (NPBUFFER * Z)) (u : U) (self : SampleGrabberCallback)
    (tr : list event) (w h : Z) r st tr' :
  (forall cb img u0 self0 tr0 r0 st0 tr0',
     user_callback cb img (u0, self0) tr0 = (r0, st0, tr0') ->
     keep_photo (snd st0) = keep_photo self0) ->
  image_resolution self = (w, h) ->
  0 <= w -> 0 <= h ->
  BufferCB U user_callback pBuffer BufferLen
           (u, set_keep_photo true self) tr = (r, st, tr') ->
  buffers_arrive U user_callback buffers st tr' = (Ok tt, st, tr').
Proof.
  intros Hcb Hres Hw Hh Hrun.
  induction buffers as [|[p len] rest IH]; [reflexivity|].
  cbn [buffers_arrive].
  erewrite bind_Ok; [exact IH|].
  eapply BufferCB_then_discards; [exact Hcb| | | | |exact Hrun];
    [reflexivity|exact Hres|exact Hw|exact Hh].
Qed.

End Buffers.

Lemma BufferCB_negative_size_witness :
  BufferCB (list Mat) keep_images sample_frame 6
           ([], set_keep_photo true
                  (set_image_resolution (1, -2)
                     (SampleGrabberCallback_new 7%N)))
           []
  = (Raise ValueError,
     ([], set_keep_photo false
            (set_keep_photo true
               (set_image_resolution (1, -2)
                                     (SampleGrabberCallback_new 7%N)))), []).
Proof.
  apply (BufferCB_negative_size (list Mat) keep_images sample_frame 6 []
           _ [] 1 (-2)); [reflexivity | reflexivity | right; lia].
Defined.

(** A frame is requested for the callable that keeps the images; after the
    first buffer, three more arrive. *)
Lemma one_request_one_frame_witness :
  let st := exec (BufferCB (list Mat) keep_images sample_frame 6)
                 (([], set_keep_photo true sample_callback), []) in
  buffers_arrive (list Mat) keep_images
                 [(sample_frame, 6); (sample_frame, 6); (sample_frame, 6)]
                 (fst st) (snd st)
  = (Ok tt, fst st, snd st).
Proof.
  intros st.
  apply (one_request_one_frame (list Mat) keep_images sample_frame 6
           [(sample_frame, 6); (sample_frame, 6); (sample_frame, 6)]
           [] sample_callback [] 1 2 (Ok 0)).
  - intros cb img u0 self0 tr0 r0 st0 tr0' H. inversion H; subst.
    reflexivity.
  - reflexivity.
  - lia.
  - lia.
  - reflexivity.
Defined.

(** ** Emptying the graph *)

Lemma xbind_Ok {St A B} (m : XM St A) (k : A -> XM St B) s tr a s' tr' :
  m s tr = Some (Ok a, s', tr') -> xbind m k s tr = k a s' tr'.
Proof. intros H. unfold xbind. now rewrite H. Qed.

Lemma xbind_Raise {St A B} (m : XM St A) (k : A -> XM St B) s tr e s' tr' :
  m s tr = Some (Raise e, s', tr') ->
  xbind m k s tr = Some (Raise e, s', tr').
Proof. intros H. unfold xbind. now rewrite H. Qed.

Lemma xbind_None {St A B} (m : XM St A) (k : A -> XM St B) s tr :
  m s tr = None -> xbind m k s tr = None.
Proof. intros H. unfold xbind. now rewrite H. Qed.

Lemma removals_app tr1 tr2 :
  removals (tr1 ++ tr2) = removals tr1 ++ removals tr2.
Proof. apply omap_app. Qed.

Lemma deliveries_app tr1 tr2 :
  deliveries (tr1 ++ tr2) = deliveries tr1 ++ deliveries tr2.
Proof. apply omap_app. Qed.

(** What the last answer [p] of [Next] delivered. *)
Lemma deliveries_Next enum celt (p : IBASEFILTER * Z) :
  deliveries [XEv (Next enum celt) (inr p)]
  = if 0 <? snd p then [fst p] else [].
Proof. destruct p as [f c]. cbn. now destruct (0 <? c). Qed.

Section RemovalFacts.

Variable xnative : XNative.

Lemma old_filter_at_Some k g tr f :
  filters g !! k = Some f ->
  old xnative (fun _ => filter_at k) g tr = Some (Ok f, g, tr).
Proof.
  intros H. unfold old. rewrite (filter_at_run _ _ _ _ H). cbn.
  now rewrite app_nil_r.
Qed.

Lemma old_filter_at_None k g tr :
  filters g !! k = None ->
  old xnative (fun _ => filter_at k) g tr = Some (Raise (KeyError k), g, tr).
Proof.
  intros H. unfold old. rewrite (filter_at_missing _ _ _ H). cbn.
  now rewrite app_nil_r.
Qed.

Lemma xinvoke_inr {St A} (c : xcall A) (a : A) (s : St) tr :
  xnative tr A c = inr a ->
  xinvoke xnative c s tr = Some (Ok a, s, tr ++ [XEv c (inr a)]).
Proof. intros H. unfold xinvoke. now rewrite H. Qed.

Lemma xinvoke_inl {St A} (c : xcall A) hr (s : St) tr :
  xnative tr A c = inl hr ->
  xinvoke xnative c s tr
  = Some (Raise (COMError hr), s, tr ++ [XEv c (inl hr)]).
Proof. intros H. unfold xinvoke. now rewrite H. Qed.

(** The first loop of [remove_all_filters_but_video_source] removes
    nothing, and collects the filters delivered that are not the camera. *)
Lemma filters_to_delete_loop_spec enum inst fuel :
  forall acc p g tr r g' tr',
    filters_to_delete_loop xnative fuel enum inst acc p g tr
    = Some (r, g', tr') ->
    g' = g /\
    exists new,
      tr' = tr ++ new /\ removals new = [] /\
      match r with
      | Ok l =>
          l = acc ++ filter (fun f => f <> inst)
                       ((if 0 <? snd p then [fst p] else [])
                        ++ deliveries new)
      | Raise _ => True
      end.
Proof.
  induction fuel as [|fuel IH]; intros acc p g tr r g' tr' Hrun;
    cbn [filters_to_delete_loop] in Hrun;
    destruct (0 <? snd p) eqn:Hp.
  - discriminate Hrun.
  - inversion Hrun; subst. split; [reflexivity|]. exists [].
    rewrite !app_nil_r. cbn. auto.
  - unfold xbind, xinvoke in Hrun.
    destruct (xnative tr _ (Next enum 1)) as [hr|p'] eqn:Hn.
    + inversion Hrun; subst. split; [reflexivity|].
      eexists. split; [reflexivity|]. split; [reflexivity|exact I].
    + apply IH in Hrun. destruct Hrun as [-> (new & -> & Hrem & Hr)].
      split; [reflexivity|].
      exists (XEv (Next enum 1) (inr p') :: new).
      split; [now rewrite <- app_assoc|].
      split; [exact Hrem|].
      destruct r as [l|e]; [|exact I]. subst l.
      change (XEv (Next enum 1) (inr p') :: new)
        with ([XEv (Next enum 1) (inr p')] ++ new).
      rewrite deliveries_app, deliveries_Next.
      rewrite !filter_app.
      destruct (bool_decide (fst p <> inst)) eqn:Hd.
      * apply bool_decide_eq_true in Hd.
        rewrite filter_cons_True by exact Hd. rewrite filter_nil.
        now rewrite <- !app_assoc.
      * apply bool_decide_eq_false in Hd.
        rewrite filter_cons_False by exact Hd. rewrite filter_nil.
        reflexivity.
  - inversion Hrun; subst. split; [reflexivity|]. exists [].
    rewrite !app_nil_r. cbn. auto.
Qed.

(** The second loop always returns; it calls [RemoveFilter] on the filters
    of the list, in order, up to the first failure. *)
Lemma remove_each_spec l :
  forall g tr, exists r new,
    remove_each xnative l g tr = Some (r, g, tr ++ new) /\
    deliveries new = [] /\
    removals new `prefix_of` l /\
    (r = Ok tt -> removals new = l).
Proof.
  induction l as [|f l IH]; intros g tr; cbn [remove_each].
  - exists (Ok tt), []. rewrite app_nil_r. repeat split; reflexivity.
  - unfold xbind, xinvoke.
    destruct (xnative tr _ (RemoveFilter f)) as [hr|[]] eqn:Hn.
    + exists (Raise (COMError hr)), [XEv (RemoveFilter f) (inl hr)].
      split; [reflexivity|]. split; [reflexivity|].
      split; [apply prefix_cons, prefix_nil|discriminate].
    + destruct (IH g (tr ++ [XEv (RemoveFilter f) (inr tt)]))
        as (r & new & Hrun & Hd & Hpre & Hok).
      exists r, (XEv (RemoveFilter f) (inr tt) :: new).
      rewrite Hrun, <- app_assoc. split; [reflexivity|].
      split; [exact Hd|]. split.
      * apply prefix_cons. exact Hpre.
      * intros Hr. cbn. f_equal. now apply Hok.
Qed.

(** X14. [remove_all_filters_but_video_source] never asks the framework to
    remove the camera: whatever the framework answers, the filters it calls
    [RemoveFilter] on are the filters the enumerator delivered, the camera
    left out, in the order of delivery, up to the first removal that fails.
    When it returns, all of them were removed and [filters] holds the camera
    alone, the same object as before; when it raises, [filters] is as it was,
    also when some filters are already out of the native graph.  Without a
    camera it raises [KeyError] before any call. *)
Theorem remove_all_filters_but_video_source_spares_camera
    (fuel : nat) (g : FilterGraph) (tr : list xevent) r g' tr' :
  remove_all_filters_but_video_source xnative fuel g tr
  = Some (r, g', tr') ->
  exists new,
    tr' = tr ++ new /\
    match filters g !! video_input with
    | None => r = Raise (KeyError video_input) /\ g' = g /\ new = []
    | Some video_input_f =>
        (instance video_input_f ∉ removals new) /\
        removals new `prefix_of`
          filter (fun f => f <> instance video_input_f) (deliveries new) /\
        match r with
        | Ok _ =>
            removals new
            = filter (fun f => f <> instance video_input_f) (deliveries new)
            /\ g' = set_filters {[ video_input := video_input_f ]} g
        | Raise _ => g' = g
        end
    end.
Proof.
  intros Hrun. unfold remove_all_filters_but_video_source in Hrun.
  destruct (filters g !! video_input) as [vi|] eqn:Hvi.
  2:{ erewrite xbind_Raise in Hrun by (now apply old_filter_at_None).
      inversion Hrun; subst. exists []. rewrite app_nil_r. auto. }
  erewrite xbind_Ok in Hrun by (apply old_filter_at_Some; exact Hvi).
  unfold xbind at 1, xinvoke at 1 in Hrun.
  destruct (xnative tr _ EnumFilters) as [hr|enum] eqn:He.
  { inversion Hrun; subst. eexists. split; [reflexivity|].
    split; [apply not_elem_of_nil|]. split; [apply prefix_nil|reflexivity]. }
  unfold xbind at 1, xinvoke at 1 in Hrun.
  destruct (xnative _ _ (Next enum 1)) as [hr|p] eqn:Hn.
  { inversion Hrun; subst. rewrite <- app_assoc. eexists.
    split; [reflexivity|].
    split; [apply not_elem_of_nil|]. split; [apply prefix_nil|reflexivity]. }
  unfold xbind at 1 in Hrun.
  destruct (filters_to_delete_loop _ _ _ _ _ _ _ _) as [[[r1 g1] tr1]|]
    eqn:Hloop; [|discriminate Hrun].
  apply filters_to_delete_loop_spec in Hloop.
  destruct Hloop as [-> (new1 & -> & Hrem1 & Hr1)].
  destruct r1 as [l|e].
  2:{ inversion Hrun; subst. rewrite <- !app_assoc. eexists.
      split; [reflexivity|].
      assert (Hnone : removals ([XEv EnumFilters (inr enum)] ++
                                [XEv (Next enum 1) (inr p)] ++ new1) = []).
      { rewrite !removals_app, Hrem1. reflexivity. }
      rewrite Hnone.
      split; [apply not_elem_of_nil|]. split; [apply prefix_nil|reflexivity]. }
  cbn [app] in Hr1.
  assert (Hspare : forall k, k `prefix_of` l -> instance vi ∉ k).
  { intros k Hpre Hin. apply (elem_of_prefix _ _ _ Hin) in Hpre.
    rewrite Hr1 in Hpre. apply list_elem_of_filter in Hpre.
    now destruct Hpre. }
  destruct (remove_each_spec l g
              (((tr ++ [XEv EnumFilters (inr enum)]) ++
                [XEv (Next enum 1) (inr p)]) ++ new1))
    as (r2 & new2 & Hrun2 & Hd2 & Hpre2 & Hok2).
  unfold xbind at 1 in Hrun. rewrite Hrun2 in Hrun.
  exists ([XEv EnumFilters (inr enum)] ++ [XEv (Next enum 1) (inr p)] ++
          new1 ++ new2).
  assert (Hrem : removals ([XEv EnumFilters (inr enum)] ++
                           [XEv (Next enum 1) (inr p)] ++ new1 ++ new2)
                 = removals new2).
  { rewrite !removals_app, Hrem1. reflexivity. }
  assert (Hdel : filter (fun f => f <> instance vi)
                   (deliveries ([XEv EnumFilters (inr enum)] ++
                                [XEv (Next enum 1) (inr p)] ++ new1 ++ new2))
                 = l).
  { rewrite !deliveries_app, deliveries_Next, Hd2, app_nil_r. subst l.
    reflexivity. }
  rewrite Hrem, Hdel.
  assert (Htr : forall r0 g0,
             Some (r0, g0,
                   (((tr ++ [XEv EnumFilters (inr enum)]) ++
                     [XEv (Next enum 1) (inr p)]) ++ new1) ++ new2)
             = Some (r, g', tr') ->
             r0 = r /\ g0 = g' /\
             tr' = tr ++ [XEv EnumFilters (inr enum)] ++
                   [XEv (Next enum 1) (inr p)] ++ new1 ++ new2).
  { intros r0 g0 H. inversion H; subst. rewrite <- !app_assoc. auto. }
  destruct r2 as [[]|e].
  - unfold xmodify in Hrun.
    apply Htr in Hrun. destruct Hrun as (<- & <- & ->).
    split; [reflexivity|]. rewrite (Hok2 eq_refl).
    split; [|split; [reflexivity|split; reflexivity]].
    apply Hspare. reflexivity.
  - apply Htr in Hrun. destruct Hrun as (<- & <- & ->).
    split; [reflexivity|].
    split; [|split; [exact Hpre2|reflexivity]].
    apply Hspare. exact Hpre2.
Qed.

(** The enumerator runs dry: once [n] filters have been delivered after the
    history [tr], [Next] delivers no more. *)
Lemma filters_to_delete_loop_returns enum inst n tr g fuel :
  (forall new enum celt p,
     (n <= length (deliveries new))%nat ->
     xnative (tr ++ new) _ (Next enum celt) = inr p -> snd p <= 0) ->
  forall acc p new,
    (0 < snd p ->
     (length (deliveries new) <= n)%nat /\
     (n - length (deliveries new) < fuel)%nat) ->
    is_Some (filters_to_delete_loop xnative fuel enum inst acc p g
               (tr ++ new)).
Proof.
  intros Hdry. induction fuel as [|fuel IH]; intros acc p new Hp;
    cbn [filters_to_delete_loop]; destruct (0 <? snd p) eqn:Hpos;
    try (eexists; reflexivity).
  - apply Z.ltb_lt in Hpos. destruct (Hp Hpos). lia.
  - apply Z.ltb_lt in Hpos. destruct (Hp Hpos) as [Hle Hlt].
    unfold xbind, xinvoke.
    destruct (xnative (tr ++ new) _ (Next enum 1)) as [hr|p'] eqn:Hn;
      [eexists; reflexivity|].
    rewrite <- app_assoc. apply IH. intros Hpos'.
    rewrite deliveries_app, deliveries_Next, length_app.
    apply Z.ltb_lt in Hpos'. rewrite Hpos'. cbn [length].
    assert (length (deliveries new) < n)%nat; [|lia].
    destruct (le_lt_dec n (length (deliveries new))) as [Hge|]; [|assumption].
    apply (Hdry _ _ _ _ Hge) in Hn. apply Z.ltb_lt in Hpos'. lia.
Qed.

(** X15. [remove_all_filters_but_video_source] returns, when the filters
    run out: if the enumerator delivers at most [n] filters from the call
    on, its loop needs no more than [n] rounds, whatever else the framework
    answers. *)
Theorem remove_all_filters_but_video_source_returns (n fuel : nat)
    (g : FilterGraph) (tr : list xevent) :
  (forall new enum celt p,
     (n <= length (deliveries new))%nat ->
     xnative (tr ++ new) _ (Next enum celt) = inr p -> snd p <= 0) ->
  (n <= fuel)%nat ->
  is_Some (remove_all_filters_but_video_source xnative fuel g tr).
Proof.
  intros Hdry Hfuel. unfold remove_all_filters_but_video_source.
  destruct (filters g !! video_input) as [vi|] eqn:Hvi.
  2:{ erewrite xbind_Raise by (now apply old_filter_at_None).
      eexists; reflexivity. }
  erewrite xbind_Ok by (apply old_filter_at_Some; exact Hvi).
  unfold xbind at 1, xinvoke at 1.
  destruct (xnative tr _ EnumFilters) as [hr|enum] eqn:He;
    [eexists; reflexivity|].
  unfold xbind at 1, xinvoke at 1.
  destruct (xnative _ _ (Next enum 1)) as [hr|p] eqn:Hn;
    [eexists; reflexivity|].
  rewrite <- app_assoc.
  destruct (filters_to_delete_loop_returns enum (instance vi) n tr g fuel
              Hdry [] p
              ([XEv EnumFilters (inr enum)] ++ [XEv (Next enum 1) (inr p)]))
    as [[[r1 g1] tr1] Hloop].
  { intros Hpos. rewrite deliveries_app, deliveries_Next.
    apply Z.ltb_lt in Hpos. rewrite Hpos. cbn.
    assert (0 < n)%nat; [|lia].
    destruct n; [|lia]. apply Z.ltb_lt in Hpos.
    apply (Hdry [XEv EnumFilters (inr enum)]) in Hn; [lia|cbn; lia]. }
  unfold xbind at 1. rewrite Hloop.
  destruct r1 as [l|e]; [|eexists; reflexivity].
  destruct (remove_each_spec l g1 tr1) as (r2 & new2 & Hrun2 & _).
  unfold xbind. rewrite Hrun2.
  destruct r2; eexists; reflexivity.
Qed.

(** The loop of [remove_filters] removes what the enumerator delivers. *)
Lemma remove_filters_loop_spec enum fuel :
  forall p g tr r g' tr',
    remove_filters_loop xnative fuel enum p g tr = Some (r, g', tr') ->
    g' = g /\
    exists new,
      tr' = tr ++ new /\
      removals new
        `prefix_of` (if 0 <? snd p then [fst p] else []) ++ deliveries new /\
      match r with
      | Ok _ =>
          removals new
          = (if 0 <? snd p then [fst p] else []) ++ deliveries new
      | Raise _ => True
      end.
Proof.
  induction fuel as [|fuel IH]; intros p g tr r g' tr' Hrun;
    cbn [remove_filters_loop] in Hrun;
    destruct (0 <? snd p) eqn:Hp.
  - discriminate Hrun.
  - inversion Hrun; subst. split; [reflexivity|]. exists [].
    rewrite app_nil_r. cbn. auto.
  - unfold xbind at 1, xinvoke at 1 in Hrun.
    destruct (xnative tr _ (RemoveFilter (fst p))) as [hr|[]] eqn:Hrm.
    { inversion Hrun; subst. split; [reflexivity|].
      eexists. split; [reflexivity|]. cbn. split; [reflexivity|exact I]. }
    unfold xbind at 1, xinvoke at 1 in Hrun.
    destruct (xnative _ _ (Reset enum)) as [hr|[]] eqn:Hrs.
    { inversion Hrun; subst. split; [reflexivity|]. rewrite <- app_assoc.
      eexists. split; [reflexivity|]. cbn. split; [reflexivity|exact I]. }
    unfold xbind at 1, xinvoke at 1 in Hrun.
    destruct (xnative _ _ (Next enum 1)) as [hr|p'] eqn:Hn.
    { inversion Hrun; subst. split; [reflexivity|]. rewrite <- !app_assoc.
      eexists. split; [reflexivity|]. cbn. split; [reflexivity|exact I]. }
    apply IH in Hrun. destruct Hrun as [-> (new & -> & Hpre & Hr)].
    split; [reflexivity|]. rewrite <- !app_assoc.
    eexists. split; [reflexivity|].
    rewrite !removals_app, !deliveries_app, deliveries_Next.
    cbn [removals deliveries omap removal delivery app].
    split; [now apply prefix_cons|].
    destruct r; [|exact I]. cbn. now f_equal.
  - inversion Hrun; subst. split; [reflexivity|]. exists [].
    rewrite app_nil_r. cbn. auto.
Qed.

(** X16. [remove_filters] removes what the enumerator delivers: whatever
    the framework answers, each [RemoveFilter] is for the filter that the
    [Next] before it delivered.  When it returns, every filter delivered
    was removed and [filters] is empty, the two flags of the graph being as
    before; when it raises, [filters] is as it was, also when some filters
    are already out of the native graph. *)
Theorem remove_filters_removes_delivered (fuel : nat) (g : FilterGraph)
    (tr : list xevent) r g' tr' :
  remove_filters xnative fuel g tr = Some (r, g', tr') ->
  exists new,
    tr' = tr ++ new /\
    removals new `prefix_of` deliveries new /\
    match r with
    | Ok _ => removals new = deliveries new /\ g' = set_filters ∅ g
    | Raise _ => g' = g
    end.
Proof.
  intros Hrun. unfold remove_filters in Hrun.
  unfold xbind at 1, xinvoke at 1 in Hrun.
  destruct (xnative tr _ EnumFilters) as [hr|enum] eqn:He.
  { inversion Hrun; subst. eexists. split; [reflexivity|].
    split; [apply prefix_nil|reflexivity]. }
  unfold xbind at 1, xinvoke at 1 in Hrun.
  destruct (xnative _ _ (Next enum 1)) as [hr|p] eqn:Hn.
  { inversion Hrun; subst. rewrite <- app_assoc. eexists.
    split; [reflexivity|]. split; [apply prefix_nil|reflexivity]. }
  unfold xbind at 1 in Hrun.
  destruct (remove_filters_loop _ _ _ _ _ _) as [[[r1 g1] tr1]|]
    eqn:Hloop; [|discriminate Hrun].
  apply remove_filters_loop_spec in Hloop.
  destruct Hloop as [-> (new1 & -> & Hpre1 & Hr1)].
  exists ([XEv EnumFilters (inr enum)] ++ [XEv (Next enum 1) (inr p)] ++
          new1).
  rewrite !removals_app, !deliveries_app, deliveries_Next.
  cbn [removals deliveries omap removal delivery app].
  destruct r1 as [[]|e]; unfold xmodify in Hrun; inversion Hrun; subst;
    rewrite <- !app_assoc; (split; [reflexivity|]).
  - rewrite Hr1. split; [reflexivity|split; reflexivity].
  - split; [exact Hpre1|reflexivity].
Qed.

(** The loop of [remove_filters] ends when the enumerator runs dry. *)
Lemma remove_filters_loop_returns enum n tr g fuel :
  (forall new enum celt p,
     (n <= length (deliveries new))%nat ->
     xnative (tr ++ new) _ (Next enum celt) = inr p -> snd p <= 0) ->
  forall p new,
    (0 < snd p ->
     (length (deliveries new) <= n)%nat /\
     (n - length (deliveries new) < fuel)%nat) ->
    is_Some (remove_filters_loop xnative fuel enum p g (tr ++ new)).
Proof.
  intros Hdry. induction fuel as [|fuel IH]; intros p new Hp;
    cbn [remove_filters_loop]; destruct (0 <? snd p) eqn:Hpos;
    try (eexists; reflexivity).
  - apply Z.ltb_lt in Hpos. destruct (Hp Hpos). lia.
  - apply Z.ltb_lt in Hpos. destruct (Hp Hpos) as [Hle Hlt].
    unfold xbind at 1, xinvoke at 1.
    destruct (xnative (tr ++ new) _ (RemoveFilter (fst p))) as [hr|[]];
      [eexists; reflexivity|].
    unfold xbind at 1, xinvoke at 1.
    destruct (xnative _ _ (Reset enum)) as [hr|[]];
      [eexists; reflexivity|].
    unfold xbind at 1, xinvoke at 1. rewrite <- !app_assoc.
    destruct (xnative _ _ (Next enum 1)) as [hr|p'] eqn:Hn;
      [eexists; reflexivity|].
    rewrite <- ?app_assoc.
    change (tr ++ new ++ [XEv (RemoveFilter p.1) (inr ())] ++
            [XEv (Reset enum) (inr ())] ++ [XEv (Next enum 1) (inr p')])
      with (tr ++ (new ++ [XEv (RemoveFilter p.1) (inr ())] ++
            [XEv (Reset enum) (inr ())] ++ [XEv (Next enum 1) (inr p')])).
    apply IH. intros Hpos'.
    rewrite !deliveries_app, deliveries_Next, !length_app.
    apply Z.ltb_lt in Hpos'. rewrite Hpos'. cbn.
    assert (length (deliveries new) < n)%nat; [|lia].
    destruct (le_lt_dec n (length (deliveries new))) as [Hge|]; [|assumption].
    apply Hdry in Hn; [apply Z.ltb_lt in Hpos'; lia|].
    rewrite !deliveries_app. cbn. rewrite length_app. cbn. lia.
Qed.

(** X17. [remove_filters] returns, when the filters run out: if the
    enumerator delivers at most [n] filters from the call on, the loop needs
    no more than [n] rounds, whatever else the framework answers. *)
Theorem remove_filters_returns (n fuel : nat) (g : FilterGraph)
    (tr : list xevent) :
  (forall new enum celt p,
     (n <= length (deliveries new))%nat ->
     xnative (tr ++ new) _ (Next enum celt) = inr p -> snd p <= 0) ->
  (n <= fuel)%nat ->
  is_Some (remove_filters xnative fuel g tr).
Proof.
  intros Hdry Hfuel. unfold remove_filters.
  unfold xbind at 1, xinvoke at 1.
  destruct (xnative tr _ EnumFilters) as [hr|enum] eqn:He;
    [eexists; reflexivity|].
  unfold xbind at 1, xinvoke at 1.
  destruct (xnative _ _ (Next enum 1)) as [hr|p] eqn:Hn;
    [eexists; reflexivity|].
  rewrite <- app_assoc.
  destruct (remove_filters_loop_returns enum n tr g fuel Hdry p
              ([XEv EnumFilters (inr enum)] ++ [XEv (Next enum 1) (inr p)]))
    as [[[r1 g1] tr1] Hloop].
  { intros Hpos. rewrite deliveries_app, deliveries_Next.
    apply Z.ltb_lt in Hpos. rewrite Hpos. cbn.
    assert (0 < n)%nat; [|lia].
    destruct n; [|lia]. apply Z.ltb_lt in Hpos.
    apply (Hdry [XEv EnumFilters (inr enum)]) in Hn; [lia|cbn; lia]. }
  unfold xbind. rewrite Hloop.
  destruct r1; eexists; reflexivity.
Qed.

(** X18. [remove_filters] goes on for as long as the enumerator, started
    over, has a filter to deliver: with a framework where removing and
    resetting succeed and every [Next] delivers a filter, it does not
    return, however many rounds it is given. *)
Theorem remove_filters_needs_progress (fuel : nat) (g : FilterGraph)
    (tr : list xevent) (enum_filters : COMPTR) :
  xnative tr _ EnumFilters = inr enum_filters ->
  (forall tr' f, xnative tr' unit (RemoveFilter f) = inr tt) ->
  (forall tr' enum, xnative tr' unit (Reset enum) = inr tt) ->
  (forall tr' enum celt,
     exists p, xnative tr' _ (Next enum celt) = inr p /\ 0 < snd p) ->
  remove_filters xnative fuel g tr = None.
Proof.
  intros Henum Hremove Hreset Hnext.
  assert (Hloop : forall enum p g tr,
             0 < snd p -> remove_filters_loop xnative fuel enum p g tr = None).
  { clear g tr Henum. intros enum. induction fuel as [|fuel' IH];
      intros p g tr Hp; cbn [remove_filters_loop];
      apply Z.ltb_lt in Hp; rewrite Hp; [reflexivity|].
    erewrite xbind_Ok by (apply xinvoke_inr, Hremove).
    erewrite xbind_Ok by (apply xinvoke_inr, Hreset).
    destruct (Hnext ((tr ++ [XEv (RemoveFilter p.1) (inr tt)]) ++
                     [XEv (Reset enum) (inr tt)]) enum 1)
      as (p' & H3 & Hp').
    erewrite xbind_Ok by (apply xinvoke_inr; exact H3).
    apply IH. exact Hp'. }
  unfold remove_filters.
  erewrite xbind_Ok by (apply xinvoke_inr; exact Henum).
  destruct (Hnext (tr ++ [XEv EnumFilters (inr enum_filters)])
              enum_filters 1) as (p & H2 & Hp).
  erewrite xbind_Ok by (apply xinvoke_inr; exact H2).
  apply xbind_None, Hloop. exact Hp.
Qed.

End RemovalFacts.

(** The render cannot be removed: the sample grabber is out of the native
    graph when the call fails, and still in [filters]; the camera was
    delivered and not touched. *)
Lemma remove_all_filters_but_video_source_spares_camera_witness :
  let s := xgraph_grabber in
  let new := [XEv EnumFilters (inr 200%N);
              XEv (Next 200%N 1) (inr (30%N, 1));
              XEv (Next 200%N 1) (inr (20%N, 1));
              XEv (Next 200%N 1) (inr (10%N, 1));
              XEv (Next 200%N 1) (inr (0%N, 0));
              XEv (RemoveFilter 30%N) (inr tt);
              XEv (RemoveFilter 20%N) (inl E_FAIL)] in
  remove_all_filters_but_video_source stuck_xnative 3 (fst s) (snd s)
  = Some (Raise (COMError E_FAIL), fst s, snd s ++ new)
  /\
  exists new',
    snd s ++ new = snd s ++ new' /\
    match filters (fst s) !! video_input with
    | None => (Raise (COMError E_FAIL) : result unit)
              = Raise (KeyError video_input) /\
              fst s = fst s /\ new' = []
    | Some video_input_f =>
        (instance video_input_f ∉ removals new') /\
        removals new' `prefix_of`
          filter (fun f => f <> instance video_input_f) (deliveries new') /\
        fst s = fst s
    end.
Proof.
  intros s new.
  assert (Hrun : remove_all_filters_but_video_source stuck_xnative 3
                   (fst s) (snd s)
                 = Some (Raise (COMError E_FAIL), fst s, snd s ++ new))
    by (vm_compute; reflexivity).
  split; [exact Hrun|].
  exact (remove_all_filters_but_video_source_spares_camera
           stuck_xnative 3 (fst s) (snd s) _ _ _ Hrun).
Defined.

(** Three filters to deliver, three rounds. *)
Lemma remove_all_filters_but_video_source_returns_witness :
  is_Some (remove_all_filters_but_video_source
             (listing_xnative [30; 20; 10]%N) 3
             (fst xgraph_grabber) (snd xgraph_grabber)).
Proof.
  apply (remove_all_filters_but_video_source_returns
           (listing_xnative [30; 20; 10]%N) 3 3); [|lia].
  intros new enum celt p Hn H. unfold listing_xnative in H.
  rewrite deliveries_app in H.
  replace (deliveries (snd xgraph_grabber)) with (@nil IBASEFILTER) in H
    by (vm_compute; reflexivity).
  cbn [app] in H. rewrite lookup_ge_None_2 in H by exact Hn.
  inversion H. cbn. lia.
Defined.

(** The sample grabber is removed, the render cannot be: [filters] still
    lists the three filters. *)
Lemma remove_filters_removes_delivered_witness :
  let s := xgraph_grabber in
  let new := [XEv EnumFilters (inr 200%N);
              XEv (Next 200%N 1) (inr (30%N, 1));
              XEv (RemoveFilter 30%N) (inr tt);
              XEv (Reset 200%N) (inr tt);
              XEv (Next 200%N 1) (inr (20%N, 1));
              XEv (RemoveFilter 20%N) (inl E_FAIL)] in
  remove_filters stuck_xnative 3 (fst s) (snd s)
  = Some (Raise (COMError E_FAIL), fst s, snd s ++ new)
  /\
  exists new',
    snd s ++ new = snd s ++ new' /\
    removals new' `prefix_of` deliveries new' /\
    fst s = fst s.
Proof.
  intros s new.
  assert (Hrun : remove_filters stuck_xnative 3 (fst s) (snd s)
                 = Some (Raise (COMError E_FAIL), fst s, snd s ++ new))
    by (vm_compute; reflexivity).
  split; [exact Hrun|].
  exact (remove_filters_removes_delivered
           stuck_xnative 3 (fst s) (snd s) _ _ _ Hrun).
Defined.

Lemma remove_filters_returns_witness :
  is_Some (remove_filters (listing_xnative [30; 20; 10]%N) 3
             (fst xgraph_grabber) (snd xgraph_grabber)).
Proof.
  apply (remove_filters_returns (listing_xnative [30; 20; 10]%N) 3 3);
    [|lia].
  intros new enum celt p Hn H. unfold listing_xnative in H.
  rewrite deliveries_app in H.
  replace (deliveries (snd xgraph_grabber)) with (@nil IBASEFILTER) in H
    by (vm_compute; reflexivity).
  cbn [app] in H. rewrite lookup_ge_None_2 in H by exact Hn.
  inversion H. cbn. lia.
Defined.

(** A sample grabber that stays in the graph: five rounds are not enough,
    nor any other number. *)
Lemma remove_filters_needs_progress_witness :
  remove_filters sticky_xnative 5 (fst xgraph_grabber) (snd xgraph_grabber)
  = None.
Proof.
  apply (remove_filters_needs_progress sticky_xnative 5 _ _ 200%N).
  - reflexivity.
  - reflexivity.
  - reflexivity.
  - intros tr' enum celt. exists (30%N, 1). split; [reflexivity|]. cbn. lia.
Defined.

(** ** The video window *)

Section Window.

Variable native : Native.
Variable xnative : XNative.
Variable WS_CHILD WS_CLIPSIBLINGS : Z.

(** [Render.__init__]: the last thing it does is to ask for the video
    window, and a refusal leaves the render without one. *)
Lemma Render_new_run {St} inst (s s' : St) tr flt tr' :
  Render_new native inst s tr = (Ok flt, s', tr') ->
  exists tr1 ans,
    tr' = tr1 ++ [Ev (QueryInterface inst IID_IVideoWindow) ans] /\
    instance flt = inst /\ Name flt = "Render" /\
    subclass flt = Render (match ans with
                           | inl _ => None
                           | inr video_window => Some video_window
                           end).
Proof.
  unfold Render_new, Filter_new, construct.
  set (f0 := {| instance := inst; Name := "Render"; out_pins := [];
                in_pins := []; subclass := Render None |}).
  destruct (bind _ _ f0 tr) as [[[[]|e] f1] tr1] eqn:Hb; [|discriminate].
  intros H. inversion H; subst. clear H.
  apply bind_inv in Hb as [(e & _ & ?)|([] & f2 & tr2 & Hr & Hb)];
    [discriminate|].
  apply reload_pins_fields in Hr. destruct Hr as (Hi & Hn & _).
  cbn in Hi, Hn. revert Hb. step. unfold bind, try_except_COMError, invoke.
  rewrite Hi. intros Hb. exists tr2.
  destruct (native tr2 COMPTR (QueryInterface inst IID_IVideoWindow))
    as [hr|w]; cbn in Hb; inversion Hb; subst; eexists;
    (split; [reflexivity|]); cbn; auto.
Qed.

(** X19. The window [configure_render] sets up is the one the render was
    given when it was made.  After [__add_filter] has added a render,
    [configure_render] goes by the answer that [Render.__init__] got when
    it asked for the video window: if that was a refusal (which the
    constructor swallows), it raises [AttributeError] without any call;
    otherwise it makes the window a child of [handle] and then sets its
    style to [WS_CHILD | WS_CLIPSIBLINGS], stopping at the first call that
    fails.  The graph is not changed. *)
Theorem configure_render_after_add_render (id : filter_id) (handle : Z)
    (g : FilterGraph) (tr : list event) (g' : FilterGraph)
    (tr' : list event) (xtr : list xevent) :
  __add_filter native render id g tr = (Ok tt, g', tr') ->
  exists rd tr1 ans,
    filters g' !! render = Some rd /\
    tr' = tr1 ++ [Ev (QueryInterface (instance rd) IID_IVideoWindow) ans;
                  Ev (AddFilter (instance rd) (Name rd)) (inr tt)] /\
    configure_render xnative WS_CHILD WS_CLIPSIBLINGS handle g' xtr
    = match ans with
      | inl _ => Some (Raise AttributeError, g', xtr)
      | inr video_window =>
          let c1 := put_Owner video_window handle in
          let r1 := xnative xtr unit c1 in
          match r1 with
          | inl hr => Some (Raise (COMError hr), g', xtr ++ [XEv c1 r1])
          | inr _ =>
              let c2 := put_WindowStyle video_window
                          (Z.lor WS_CHILD WS_CLIPSIBLINGS) in
              let r2 := xnative (xtr ++ [XEv c1 r1]) unit c2 in
              Some (match r2 with
                    | inl hr => Raise (COMError hr)
                    | inr _ => Ok tt
                    end, g', xtr ++ [XEv c1 r1; XEv c2 r2])
          end
      end.
Proof.
  intros Hadd. apply add_filter_Ok in Hadd.
  destruct Hadd as (_ & rd & tr1 & Hb & -> & ->).
  cbn [build_filter] in Hb. destruct id as [i|clsid|f|]; try discriminate Hb.
  apply bind_inv in Hb as [(e & _ & ?)|(inst & s1 & tr2 & _ & Hb)];
    [discriminate|].
  apply Render_new_run in Hb.
  destruct Hb as (tr3 & ans & -> & Hi & Hn & Hs).
  exists rd, tr3, ans. split; [apply lookup_insert_eq|].
  split; [now rewrite Hi, <- app_assoc|].
  unfold configure_render.
  erewrite xbind_Ok by (apply old_filter_at_Some, lookup_insert_eq).
  unfold configure_video_window. rewrite Hs.
  destruct ans as [hr|video_window]; [reflexivity|].
  unfold xbind, xinvoke. cbv zeta.
  destruct (xnative xtr unit (put_Owner video_window handle)) as [hr|[]];
    [reflexivity|].
  rewrite <- app_assoc.
  destruct (xnative _ unit (put_WindowStyle _ _)) as [hr|[]]; reflexivity.
Qed.

End Window.

(** A null render, which has no video window: the refusal went unnoticed
    when the render was added, and comes out here. *)
Lemma configure_render_after_add_render_witness :
  let s := exec (add_video_input_device windowless_native 0) graph0 in
  let s' := exec (add_null_render windowless_native) s in
  configure_render sample_xnative 1073741824 67108864 5
                   (fst s') (earlier <$> snd s')
  = Some (Raise AttributeError, fst s', earlier <$> snd s')
  /\
  exists rd tr1 ans,
    filters (fst s') !! render = Some rd /\
    snd s' = tr1 ++ [Ev (QueryInterface (instance rd) IID_IVideoWindow) ans;
                     Ev (AddFilter (instance rd) (Name rd)) (inr tt)] /\
    configure_render sample_xnative 1073741824 67108864 5
                     (fst s') (earlier <$> snd s')
    = match ans with
      | inl _ => Some (Raise AttributeError, fst s', earlier <$> snd s')
      | inr video_window =>
          let c1 := put_Owner video_window 5 in
          let r1 := sample_xnative (earlier <$> snd s') unit c1 in
          match r1 with
          | inl hr => Some (Raise (COMError hr), fst s',
                            (earlier <$> snd s') ++ [XEv c1 r1])
          | inr _ =>
              let c2 := put_WindowStyle video_window
                          (Z.lor 1073741824 67108864) in
              let r2 := sample_xnative ((earlier <$> snd s') ++ [XEv c1 r1])
                                       unit c2 in
              Some (match r2 with
                    | inl hr => Raise (COMError hr)
                    | inr _ => Ok tt
                    end, fst s', (earlier <$> snd s') ++ [XEv c1 r1; XEv c2 r2])
          end
      end.
Proof.
  intros s s'. split; [vm_compute; reflexivity|].
  apply (configure_render_after_add_render windowless_native sample_xnative
           1073741824 67108864 (id_str CLSID_NullRender) 5 (fst s) (snd s)).
  reflexivity.
Defined.

(** ** From the graph to the callable *)

Section Pipeline.

Variable native : Native.
Variable U : Type.
Variable user_callback : Callable -> Mat -> M (U * SampleGrabberCallback) unit.


End Pipeline.

